(** * The symmetric matrix-based probabilistic linear solver of probnum

    A shallow embedding of
    [src/probnum/linalg/linearsolvers/matrixbased.py]
    ([ProbabilisticLinearSolver] and [SymmetricMatrixBasedSolver]) and the
    properties its specification states about it.  After the solver, three
    smaller parts of the same package are embedded, with what their code
    guarantees: the priors of the ODE filter
    ([src/probnum/diffeq/odefilter/prior.py]), the polynomial quadrature
    rule ([src/probnum/quad/polynomial/polynomialquadrature.py]) and the
    diffusion estimate of the Gaussian ODE filter
    ([src/probnum/diffeq/odefiltsmooth/ivpfiltsmooth.py]).

    Conventions of the embedding.
    - Scalars.  The code computes on NumPy floats.  Every definition is
      written over an interface [Arith] of scalar operations, so that a
      statement proved for every [Arith] holds for IEEE binary64 as well
      as for exact arithmetic.  Two instances are given: [float64], on the
      kernel's primitive binary64 floats (division by zero gives [infinity]
      or [nan], comparisons with [nan] are false), and [exactQ], on the
      rationals, the idealisation in which algebraic invariants are proved.
      Sums (inner products, [np.sum]) add their terms from the last to the
      first, starting from zero; NumPy does not fix the order, and in
      binary64 another order can change the last bit of a sum of three
      terms or more.
    - Arrays.  The solver works on column vectors, arrays of shape [(n,1)];
      they are lists of scalars.  A [(1,1)] array (the result of
      [u.T @ v]) is a scalar.  [@] raises [ValueError] when the inner
      dimensions differ, elementwise operators broadcast an operand of
      length one and raise [ValueError] otherwise, as NumPy does.
    - Exceptions are values of [result]; warnings are returned as a list. *)

From Stdlib Require Import String List ZArith QArith Bool Lia Lqa Floats Uint63.
Import ListNotations.

Set Implicit Arguments.

(** ** Scalars *)

Class Arith : Type := {
  scalar : Type;
  fzero : scalar;
  fhalf : scalar;                       (* the literal 0.5 *)
  fadd : scalar -> scalar -> scalar;
  fsub : scalar -> scalar -> scalar;
  fmul : scalar -> scalar -> scalar;
  fdiv : scalar -> scalar -> scalar;
  fneg : scalar -> scalar;
  fle : scalar -> scalar -> bool;       (* <= *)
  fsqrt : scalar -> scalar;             (* np.sqrt, inside np.linalg.norm *)
  flog : scalar -> scalar;              (* np.log *)
  fexp : scalar -> scalar;              (* np.exp *)
  fofZ : Z -> scalar                    (* an int used in float arithmetic *)
}.

Declare Scope num_scope.
Delimit Scope num_scope with S.
Notation "a + b" := (fadd a b) : num_scope.
Notation "a - b" := (fsub a b) : num_scope.
Notation "a * b" := (fmul a b) : num_scope.
Notation "a / b" := (fdiv a b) : num_scope.
Notation "- a" := (fneg a) : num_scope.
Notation "a <=? b" := (fle a b) : num_scope.

(** IEEE binary64, the arithmetic the code runs on.  The kernel has no
    logarithm or exponential: they are arguments of the instance. *)
Definition float64 (lg ex : float -> float) : Arith := {|
  scalar := float;
  fzero := 0%float;
  fhalf := 0.5%float;
  fadd := PrimFloat.add;
  fsub := PrimFloat.sub;
  fmul := PrimFloat.mul;
  fdiv := PrimFloat.div;
  fneg := PrimFloat.opp;
  fle := PrimFloat.leb;
  fsqrt := PrimFloat.sqrt;
  flog := lg;
  fexp := ex;
  fofZ := fun z => if (z <? 0)%Z then PrimFloat.opp (PrimFloat.of_uint63 (Uint63.of_Z (- z)))
                   else PrimFloat.of_uint63 (Uint63.of_Z z)
|}.

(** Exact rational arithmetic.  [Qdiv] is total ([q / 0 = 0]); statements on
    this instance that are meant to speak about the code assume that the
    denominators the code divides by are not zero.  Square root, logarithm
    and exponential are arguments of the instance. *)
Definition exactQ (sq lg ex : Q -> Q) : Arith := {|
  scalar := Q;
  fzero := 0%Q;
  fhalf := (1 # 2)%Q;
  fadd := Qplus;
  fsub := Qminus;
  fmul := Qmult;
  fdiv := Qdiv;
  fneg := Qopp;
  fle := Qle_bool;
  fsqrt := sq;
  flog := lg;
  fexp := ex;
  fofZ := inject_Z
|}.

(** ** Exceptions *)

Inductive error : Type :=
| ValueError (msg : string)      (* shape mismatch in NumPy or linops *)
| LinAlgError (msg : string)     (* np.linalg.solve *)
| CallbackError (msg : string)   (* raised by the caller's callback *)
| OutOfFuel.                     (* the model's loop bound, never reached *)

Inductive result (T : Type) : Type :=
| Ok (t : T)
| Raise (e : error).
Arguments Ok {T} t.
Arguments Raise {T} e.

Definition bind {T U : Type} (r : result T) (k : T -> result U) : result U :=
  match r with
  | Ok t => k t
  | Raise e => Raise e
  end.

Declare Scope result_scope.
Delimit Scope result_scope with result.
Notation "x <- r ;; k" := (bind r (fun x => k))
  (at level 61, r at next level, right associativity) : result_scope.
Notation "' p <- r ;; k" := (bind r (fun u => let p := u in k))
  (at level 61, p pattern, r at next level, right associativity) : result_scope.

(** ** External capabilities *)

(** The two numerical routines the solver calls and that are taken as black
    boxes: [np.linalg.solve(M, rhs)], with [M] given by its rows, and the
    regression of the calibration ([GPy.models.GPRegression] with a linear
    mean function and an RBF kernel, [optimize], then the mean of [predict]):
    [GPRegression_predict X Y Xnew] is fitted on the inputs [X] and targets
    [Y] and predicts at [Xnew]. *)
Class Capabilities {ar : Arith} : Type := {
  linalg_solve : list (list scalar) -> list scalar -> result (list scalar);
  GPRegression_predict : list scalar -> list scalar -> list scalar -> list scalar
}.

Section Solver.

Context {ar : Arith} {cap : Capabilities}.
Local Open Scope num_scope.
Local Open Scope result_scope.

(** ** Column vectors *)

Definition vec : Type := list scalar.

Fixpoint zipWith (f : scalar -> scalar -> scalar) (u v : vec) : vec :=
  match u, v with
  | a :: u', c :: v' => f a c :: zipWith f u' v'
  | _, _ => []
  end.

(** [u.T @ v] on two columns of one length. *)
Fixpoint dot (u v : vec) : scalar :=
  match u, v with
  | a :: u', c :: v' => a * c + dot u' v'
  | _, _ => fzero
  end.

Definition vadd (u v : vec) : vec := zipWith fadd u v.
Definition vsub (u v : vec) : vec := zipWith fsub u v.
Definition vneg (u : vec) : vec := map fneg u.
(** [c * v], a scalar times a column. *)
Definition vscale (c : scalar) (v : vec) : vec := map (fun a => c * a) v.
(** [v @ c], a column times a [(1,1)] array. *)
Definition vscale_r (v : vec) (c : scalar) : vec := map (fun a => a * c) v.
(** [v / c]. *)
Definition vdiv (v : vec) (c : scalar) : vec := map (fun a => a / c) v.

Definition vsum (v : vec) : scalar := fold_right fadd fzero v.
(** [np.mean]. *)
Definition mean (v : vec) : scalar := vsum v / fofZ (Z.of_nat (length v)).
(** [np.linalg.norm] of a column. *)
Definition norm (v : vec) : scalar := fsqrt (dot v v).

(** [u.T @ v]: NumPy's matmul raises when the lengths differ. *)
Definition inner (u v : vec) : result scalar :=
  if (length u =? length v)%nat then Ok (dot u v)
  else Raise (ValueError "matmul: dimension mismatch"%string).

(** An elementwise operator on two arrays, with NumPy's broadcasting of an
    operand of length one. *)
Definition broadcast (f : scalar -> scalar -> scalar) (u v : vec) : result vec :=
  if (length u =? length v)%nat then Ok (zipWith f u v)
  else if (length u =? 1)%nat then Ok (map (f (hd fzero u)) v)
  else if (length v =? 1)%nat then Ok (map (fun a => f a (hd fzero v)) u)
  else Raise (ValueError "operands could not be broadcast together"%string).

(** ** Structured operators *)

(** Modelled from the spec: the module [probnum.linalg.linops] is not among
    the sources.  A structured operator exposes a shape and its application
    to a vector.  [LinearOperator shape matvec] is the constructor the solver
    calls with a closure. *)
Record linop : Type := LinearOperator {
  shape : nat * nat;
  matvec : vec -> result vec
}.

Definition shape_eqb (s t : nat * nat) : bool :=
  (fst s =? fst t)%nat && (snd s =? snd t)%nat.

(** Modelled from the spec: [L @ v], the application of an operator.  As
    for NumPy's matmul, a vector whose length is not the operator's number
    of columns, or a result whose length is not its number of rows, raises
    [ValueError]. *)
Definition matmul (L : linop) (v : vec) : result vec :=
  if (length v =? snd (shape L))%nat then
    r <- matvec L v ;;
    if (length r =? fst (shape L))%nat then Ok r
    else Raise (ValueError "dimension mismatch"%string)
  else Raise (ValueError "dimension mismatch"%string).

(** Modelled from the spec: a dense array used as an operator, given by its
    rows ([linops.MatrixMult]). *)
Definition MatrixMult (rows : list vec) : linop :=
  LinearOperator (length rows, length (hd [] rows))
                 (fun v => Ok (map (fun row => dot row v) rows)).

(** Modelled from the spec: [linops.aslinop] leaves an operator as it is. *)
Definition aslinop (L : linop) : linop := L.

(** Modelled from the spec: [linops.ScalarMult(shape, scalar)], a scalar
    multiple of the identity. *)
Definition ScalarMult (shp : nat * nat) (c : scalar) : linop :=
  LinearOperator shp (fun v => Ok (vscale c v)).

(** Modelled from the spec: the sum of two operators, composed lazily.
    Operators of different shapes cannot be added. *)
Definition linop_add (L M : linop) : result linop :=
  if shape_eqb (shape L) (shape M) then
    Ok (LinearOperator (shape L)
          (fun v => a <- matmul L v ;; c <- matmul M v ;; broadcast fadd a c))
  else Raise (ValueError "cannot add operators: shape mismatch"%string).

(** Modelled from the spec: the difference of two operators. *)
Definition linop_sub (L M : linop) : result linop :=
  if shape_eqb (shape L) (shape M) then
    Ok (LinearOperator (shape L)
          (fun v => a <- matmul L v ;; c <- matmul M v ;; broadcast fsub a c))
  else Raise (ValueError "cannot subtract operators: shape mismatch"%string).

(** Modelled from the spec: [- L], the negated operator. *)
Definition linop_neg (L : linop) : linop :=
  LinearOperator (shape L) (fun v => a <- matmul L v ;; Ok (vneg a)).

(** Modelled from the spec: [c * L], the scaled operator. *)
Definition linop_scale (c : scalar) (L : linop) : linop :=
  LinearOperator (shape L) (fun v => a <- matmul L v ;; Ok (vscale c a)).

(** ** The solver object *)

(** The attributes of a [SymmetricMatrixBasedSolver].  [self_iter] is the
    attribute [iter_], which [solve] creates. *)
Record solver : Type := {
  self_A : linop;
  self_b : vec;
  self_A_mean : linop;
  self_A_covfactor : linop;
  self_Ainv_mean : linop;
  self_Ainv_covfactor : linop;
  self_x : vec;
  self_S : list vec;
  self_Y : list vec;
  self_sy : list scalar;
  self_iter : Z
}.

(** [SymmetricMatrixBasedSolver.__init__]. *)
Definition __init__ (A : linop) (b : vec)
    (A_mean A_covfactor Ainv_mean Ainv_covfactor : linop) : result solver :=
  x <- matmul Ainv_mean b ;;
  Ok {| self_A := A; self_b := b;
        self_A_mean := A_mean; self_A_covfactor := A_covfactor;
        self_Ainv_mean := Ainv_mean; self_Ainv_covfactor := Ainv_covfactor;
        self_x := x; self_S := []; self_Y := []; self_sy := [];
        self_iter := 0 |}.

(** ** Convergence check *)

Definition maxiter_warning : string :=
  "Iteration terminated. Solver reached the maximum number of iterations."%string.

(** [ProbabilisticLinearSolver._check_convergence]: the pair it returns and
    the warnings it emits. *)
Definition _check_convergence (self : solver) (iter maxiter : Z) (resid : vec)
    (atol rtol : scalar) : (bool * string) * list string :=
  if (iter >=? maxiter)%Z then ((true, "maxiter"%string), [maxiter_warning])
  else if norm resid <=? atol then ((true, "resid_atol"%string), [])
  else if norm resid <=? rtol * norm (self_b self) then ((true, "resid_rtol"%string), [])
  else ((false, EmptyString), []).


(** ** Output distributions *)

(** Modelled from the spec: [prob.Normal], [prob.RandomVariable] and
    [linops.SymmetricKronecker] are not among the sources; they are the
    records of their arguments ([dtype] is always [float]). *)
Record Normal (M C : Type) : Type := { mean_of : M; cov_of : C }.
Record RandomVariable (D : Type) : Type := { rv_shape : list nat; distribution : D }.
Record SymmetricKronecker : Type := { kron_A : linop }.

Definition operator_rv : Type := RandomVariable (Normal linop SymmetricKronecker).
Definition vector_rv : Type := RandomVariable (Normal vec linop).

(** ** The archive as arrays *)

(** The value of [np.squeeze(np.array(L)).T] for the list [L] of [k] columns
    of length [n]: [np.array(L)] has shape [(k,n,1)], [squeeze] drops every
    axis of length one, so the result has two axes only when neither [k] nor
    [n] is one.  [Array2 cols] is the array of shape [(n,k)] with the columns
    [cols]. *)
Inductive ndarray : Type :=
| Array0 (c : scalar)
| Array1 (v : vec)
| Array2 (cols : list vec).

Definition squeeze_T (L : list vec) : ndarray :=
  match L with
  | [] => Array1 []
  | [s] => match s with
           | [c] => Array0 c
           | _ => Array1 s
           end
  | s :: _ => if (length s =? 1)%nat then Array1 (map (hd fzero) L) else Array2 L
  end.

(** [np.squeeze(np.array(self.sy))]: the list of [(1,1)] arrays as one array
    of one axis (of none for a single entry, which broadcasts alike). *)
Definition squeeze_sy (L : list scalar) : vec := L.

(** [np.einsum('ij,ij->j', a, a)]: the squared norm of every column of an
    array of two axes; [ValueError] for any other array. *)
Definition einsum_ij_ij_j (a : ndarray) : result vec :=
  match a with
  | Array2 cols => Ok (map (fun s => dot s s) cols)
  | _ => Raise (ValueError "einstein sum subscripts string contains too many subscripts"%string)
  end.

(** [S @ c] for [S] of shape [(n,k)] given by its columns. *)
Fixpoint columns_comb (cols : list vec) (c : vec) (n : nat) : vec :=
  match cols, c with
  | s :: cols', cj :: c' => vadd (vscale_r s cj) (columns_comb cols' c' n)
  | _, _ => repeat fzero n
  end.

(** [x - S @ np.linalg.solve(S.T @ S, S.T @ x)], the closures [_I_S_fun] and
    [_I_Y_fun] of [_create_output_randvars]. *)
Definition _I_S_fun (S : ndarray) (x : vec) : result vec :=
  match S with
  | Array0 _ => Raise (ValueError "matmul: Input operand does not have enough dimensions"%string)
  | Array1 s =>
      if (length s =? length x)%nat
      then Raise (LinAlgError "0-dimensional array given"%string)
      else Raise (ValueError "matmul: dimension mismatch"%string)
  | Array2 cols =>
      let n := length (hd [] cols) in
      let StS := map (fun si => map (fun sj => dot si sj) cols) cols in
      if (length x =? n)%nat then
        c <- linalg_solve StS (map (fun s => dot s x) cols) ;;
        if (length c =? length cols)%nat
        then broadcast fsub x (columns_comb cols c n)
        else Raise (ValueError "matmul: dimension mismatch"%string)
      else Raise (ValueError "matmul: dimension mismatch"%string)
  end.

(** The covariance factor the outputs use: the current factor, with the
    calibration correction [_I_S_fun(Phi @ _I_S_fun(x))] added when a scale
    is given. *)
Definition calibrated_covfactor (shp : nat * nat) (covfactor : linop)
    (S : ndarray) (Phi : option linop) : result linop :=
  match Phi with
  | Some Phi =>
      let _mv := fun x => p <- _I_S_fun S x ;; q <- matmul Phi p ;; _I_S_fun S q in
      linop_add covfactor (LinearOperator shp _mv)
  | None => Ok covfactor
  end.

(** [SymmetricMatrixBasedSolver._create_output_randvars]. *)
Definition _create_output_randvars (self : solver) (S Y : ndarray)
    (Phi Psi : option linop) : result (vector_rv * operator_rv * operator_rv) :=
  _A_covfactor <- calibrated_covfactor (shape (self_A self)) (self_A_covfactor self) S Phi ;;
  _Ainv_covfactor <- calibrated_covfactor (shape (self_A self)) (self_Ainv_covfactor self) Y Psi ;;
  let A := {| rv_shape := [fst (shape (self_A_mean self)); snd (shape (self_A_mean self))];
              distribution := {| mean_of := self_A_mean self;
                                 cov_of := {| kron_A := _A_covfactor |} |} |} in
  let cov_Ainv := {| kron_A := _Ainv_covfactor |} in
  let Ainv := {| rv_shape := [fst (shape (self_Ainv_mean self)); snd (shape (self_Ainv_mean self))];
                 distribution := {| mean_of := self_Ainv_mean self; cov_of := cov_Ainv |} |} in
  Wb <- matmul _Ainv_covfactor (self_b self) ;;
  bWb <- inner Wb (self_b self) ;;
  let _mv := fun x =>
    Wx <- matmul (linop_scale bWb _Ainv_covfactor) x ;;
    Wbx <- inner Wb x ;;
    t <- broadcast fadd Wx (vscale_r Wb Wbx) ;;
    Ok (vscale fhalf t) in
  let cov_op := LinearOperator (shape _Ainv_covfactor) _mv in
  let x := {| rv_shape := [fst (shape (self_A_mean self))];
              distribution := {| mean_of := self_x self; cov_of := cov_op |} |} in
  Ok (x, A, Ainv).

(** ** Rank-2 updates *)

(** [SymmetricMatrixBasedSolver._mean_update]: the operator
    [x -> u @ (v.T @ x) + v @ (u.T @ x)]. *)
Definition _mean_update (self : solver) (u v : vec) : linop :=
  LinearOperator (shape (self_A_mean self))
    (fun x => vx <- inner v x ;; ux <- inner u x ;;
              broadcast fadd (vscale_r u vx) (vscale_r v ux)).

(** [SymmetricMatrixBasedSolver._covariance_update]: the operator
    [x -> u @ (Ws.T @ x)]. *)
Definition _covariance_update (self : solver) (u Ws : vec) : linop :=
  LinearOperator (shape (self_A_mean self))
    (fun x => wx <- inner Ws x ;; Ok (vscale_r u wx)).


(** ** The iteration *)

(** Assignments to the attributes of [self]. *)
Definition set_S (self : solver) (S : list vec) : solver :=
  {| self_A := self_A self; self_b := self_b self; self_A_mean := self_A_mean self;
     self_A_covfactor := self_A_covfactor self; self_Ainv_mean := self_Ainv_mean self;
     self_Ainv_covfactor := self_Ainv_covfactor self; self_x := self_x self;
     self_S := S; self_Y := self_Y self; self_sy := self_sy self;
     self_iter := self_iter self |}.
Definition set_Y (self : solver) (Y : list vec) : solver :=
  {| self_A := self_A self; self_b := self_b self; self_A_mean := self_A_mean self;
     self_A_covfactor := self_A_covfactor self; self_Ainv_mean := self_Ainv_mean self;
     self_Ainv_covfactor := self_Ainv_covfactor self; self_x := self_x self;
     self_S := self_S self; self_Y := Y; self_sy := self_sy self;
     self_iter := self_iter self |}.
Definition set_sy (self : solver) (sy : list scalar) : solver :=
  {| self_A := self_A self; self_b := self_b self; self_A_mean := self_A_mean self;
     self_A_covfactor := self_A_covfactor self; self_Ainv_mean := self_Ainv_mean self;
     self_Ainv_covfactor := self_Ainv_covfactor self; self_x := self_x self;
     self_S := self_S self; self_Y := self_Y self; self_sy := sy;
     self_iter := self_iter self |}.
Definition set_x (self : solver) (x : vec) : solver :=
  {| self_A := self_A self; self_b := self_b self; self_A_mean := self_A_mean self;
     self_A_covfactor := self_A_covfactor self; self_Ainv_mean := self_Ainv_mean self;
     self_Ainv_covfactor := self_Ainv_covfactor self; self_x := x;
     self_S := self_S self; self_Y := self_Y self; self_sy := self_sy self;
     self_iter := self_iter self |}.
Definition set_A_mean (self : solver) (L : linop) : solver :=
  {| self_A := self_A self; self_b := self_b self; self_A_mean := L;
     self_A_covfactor := self_A_covfactor self; self_Ainv_mean := self_Ainv_mean self;
     self_Ainv_covfactor := self_Ainv_covfactor self; self_x := self_x self;
     self_S := self_S self; self_Y := self_Y self; self_sy := self_sy self;
     self_iter := self_iter self |}.
Definition set_Ainv_mean (self : solver) (L : linop) : solver :=
  {| self_A := self_A self; self_b := self_b self; self_A_mean := self_A_mean self;
     self_A_covfactor := self_A_covfactor self; self_Ainv_mean := L;
     self_Ainv_covfactor := self_Ainv_covfactor self; self_x := self_x self;
     self_S := self_S self; self_Y := self_Y self; self_sy := self_sy self;
     self_iter := self_iter self |}.
Definition set_A_covfactor (self : solver) (L : linop) : solver :=
  {| self_A := self_A self; self_b := self_b self; self_A_mean := self_A_mean self;
     self_A_covfactor := L; self_Ainv_mean := self_Ainv_mean self;
     self_Ainv_covfactor := self_Ainv_covfactor self; self_x := self_x self;
     self_S := self_S self; self_Y := self_Y self; self_sy := self_sy self;
     self_iter := self_iter self |}.
Definition set_Ainv_covfactor (self : solver) (L : linop) : solver :=
  {| self_A := self_A self; self_b := self_b self; self_A_mean := self_A_mean self;
     self_A_covfactor := self_A_covfactor self; self_Ainv_mean := self_Ainv_mean self;
     self_Ainv_covfactor := L; self_x := self_x self;
     self_S := self_S self; self_Y := self_Y self; self_sy := self_sy self;
     self_iter := self_iter self |}.
Definition set_iter (self : solver) (i : Z) : solver :=
  {| self_A := self_A self; self_b := self_b self; self_A_mean := self_A_mean self;
     self_A_covfactor := self_A_covfactor self; self_Ainv_mean := self_Ainv_mean self;
     self_Ainv_covfactor := self_Ainv_covfactor self; self_x := self_x self;
     self_S := self_S self; self_Y := self_Y self; self_sy := self_sy self;
     self_iter := i |}.

(** The keyword arguments of a call of the callback. *)
Record callback_args : Type := {
  xk : vector_rv; Ak : operator_rv; Ainvk : operator_rv;
  sk : vec; yk : vec; alphak : scalar; resid_k : vec
}.

(** A callback observes its arguments; it returns or raises. *)
Definition callback_t : Type := option (callback_args -> result unit).

(** The body of the [while] loop of [solve] after the convergence check, up
    to the increment of [iter_] (lines 307 to 346): from the solver and the
    residual to the updated solver and residual, with the search direction,
    the observation and the step size of this iteration. *)
Definition iteration_step (self : solver) (resid : vec)
    : result (solver * vec * (vec * vec * scalar)) :=
  (* compute search direction *)
  search_dir <- matmul (linop_neg (self_Ainv_mean self)) resid ;;
  let self := set_S self (self_S self ++ [search_dir]) in
  (* perform action and observe *)
  obs <- matmul (self_A self) search_dir ;;
  let self := set_Y self (self_Y self ++ [obs]) in
  (* compute step size *)
  sy <- inner search_dir obs ;;
  sr <- inner search_dir resid ;;
  let step_size := (- sr) / sy in
  let self := set_sy self (self_sy self ++ [sy]) in
  (* step and residual update *)
  x <- broadcast fadd (self_x self) (vscale step_size search_dir) ;;
  let self := set_x self x in
  resid <- broadcast fadd resid (vscale step_size obs) ;;
  (* (symmetric) mean and covariance updates *)
  Vs <- matmul (self_A_covfactor self) search_dir ;;
  As <- matmul (self_A_mean self) search_dir ;;
  delta_A <- broadcast fsub obs As ;;
  sVs <- inner search_dir Vs ;;
  let u_A := vdiv Vs sVs in
  sdA <- inner search_dir delta_A ;;
  v_A <- broadcast fsub delta_A (vscale (fhalf * sdA) u_A) ;;
  Wy <- matmul (self_Ainv_covfactor self) obs ;;
  Hy <- matmul (self_Ainv_mean self) obs ;;
  delta_Ainv <- broadcast fsub search_dir Hy ;;
  yWy <- inner obs Wy ;;
  let u_Ainv := vdiv Wy yWy in
  ydH <- inner obs delta_Ainv ;;
  v_Ainv <- broadcast fsub delta_Ainv (vscale (fhalf * ydH) u_Ainv) ;;
  (* rank 2 mean updates (+= uv' + vu') *)
  A_mean <- linop_add (aslinop (self_A_mean self)) (_mean_update self u_A v_A) ;;
  let self := set_A_mean self A_mean in
  Ainv_mean <- linop_add (aslinop (self_Ainv_mean self)) (_mean_update self u_Ainv v_Ainv) ;;
  let self := set_Ainv_mean self Ainv_mean in
  (* rank 1 covariance kronecker factor update (-= u_A(Vs)' and -= u_Ainv(Wy)') *)
  A_covfactor <- linop_sub (aslinop (self_A_covfactor self)) (_covariance_update self u_A Vs) ;;
  let self := set_A_covfactor self A_covfactor in
  Ainv_covfactor <- linop_sub (aslinop (self_Ainv_covfactor self))
                              (_covariance_update self u_Ainv Wy) ;;
  let self := set_Ainv_covfactor self Ainv_covfactor in
  (* iteration increment *)
  let self := set_iter self (self_iter self + 1)%Z in
  Ok (self, resid, (search_dir, obs, step_size)).

(** The end of the loop body (lines 348 to 355): the callback, when one is
    given, is called with the current output distributions. *)
Definition call_callback (callback : callback_t) (self : solver) (resid : vec)
    (locals : vec * vec * scalar) : result unit :=
  match callback with
  | Some cb =>
      let '(search_dir, obs, step_size) := locals in
      '(xk, Ak, Ainvk) <- _create_output_randvars self (squeeze_T (self_S self))
                            (squeeze_T (self_Y self)) None None ;;
      cb {| xk := xk; Ak := Ak; Ainvk := Ainvk; sk := search_dir; yk := obs;
            alphak := step_size; resid_k := resid |}
  | None => Ok tt
  end.

(** One pass of the loop body. *)
Definition iteration (callback : callback_t) (self : solver) (resid : vec)
    : result (solver * vec) :=
  '(self, resid, locals) <- iteration_step self resid ;;
  _ <- call_callback callback self resid locals ;;
  Ok (self, resid).

(** ** Uncertainty calibration *)

(** [np.arange(lo, hi)], as floats. *)
Definition arange (lo hi : Z) : vec :=
  map (fun i => fofZ (lo + Z.of_nat i)%Z) (seq 0 (Z.to_nat (hi - lo))).

(** [SymmetricMatrixBasedSolver._calibrate_uncertainty]. *)
Definition _calibrate_uncertainty (self : solver) : result (option linop * option linop) :=
  (* Transform to arrays *)
  let _sy := squeeze_sy (self_sy self) in
  let _S := squeeze_T (self_S self) in
  let _Y := squeeze_T (self_Y self) in
  if (self_iter self >? 5)%Z then
    (* Rayleigh quotient *)
    let iters := arange 0 (self_iter self) in
    SS <- einsum_ij_ij_j _S ;;
    logR <- broadcast fsub (map flog _sy) (map flog SS) ;;
    (* Least-squares fit for y intercept *)
    let x_mean := mean iters in
    let y_mean := mean logR in
    xy <- broadcast fmul (map (fun i => i - x_mean) iters) (map (fun l => l - y_mean) logR) ;;
    let beta1 := vsum xy / vsum (map (fun i => (i - x_mean) * (i - x_mean)) iters) in
    let beta0 := y_mean - beta1 * x_mean in
    (* Log-Rayleigh quotient regression, predict Rayleigh quotient *)
    let remaining_dims := arange (self_iter self) (Z.of_nat (fst (shape (self_A self)))) in
    let GP_pred := GPRegression_predict iters (map (fun l => l - beta0) logR) remaining_dims in
    let R_pred := map (fun g => fexp (g + beta0)) GP_pred in
    (* Set scale *)
    let Phi := ScalarMult (shape (self_A self)) (mean R_pred) in
    let Psi := ScalarMult (shape (self_A self)) (mean (map (fun r => fofZ 1 / r) R_pred)) in
    Ok (Some Phi, Some Psi)
  else Ok (None, None).

(** ** solve *)

(** The [info] dictionary; [matrix_cond] is always [None]. *)
Record info_t : Type := {
  info_iter : Z;
  info_maxiter : Z;
  info_resid_l2norm : scalar;
  info_conv_crit : string;
  info_matrix_cond : option scalar
}.

(** What a call of [solve] leaves: the tuple it returns, the warnings it
    emitted, and the solver object after the call. *)
Record solve_output : Type := {
  out_x : vector_rv;
  out_A : operator_rv;
  out_Ainv : operator_rv;
  out_info : info_t;
  out_warnings : list string;
  out_self : solver
}.

(** The [while True] loop of [solve].  Every pass that does not stop
    increments [iter_], and a pass stops when [iter_ >= maxiter]: the loop
    makes at most [maxiter + 1] passes, and [fuel] counts them. *)
Fixpoint solve_loop (fuel : nat) (callback : callback_t) (maxiter : Z)
    (atol rtol : scalar) (self : solver) (resid : vec) (warnings : list string)
    : result (solver * vec * string * list string) :=
  match fuel with
  | O => Raise OutOfFuel
  | S fuel' =>
      (* check convergence *)
      let '((_has_converged, _conv_crit), w) :=
        _check_convergence self (self_iter self) maxiter resid atol rtol in
      if _has_converged : bool then Ok (self, resid, _conv_crit, warnings ++ w)
      else
        '(self', resid') <- iteration callback self resid ;;
        solve_loop fuel' callback maxiter atol rtol self' resid' (warnings ++ w)
  end.

(** What [solve] does after the loop. *)
Definition finish (calibrate : bool) (maxiter : Z)
    (st : solver * vec * string * list string) : result solve_output :=
  let '(self, resid, _conv_crit, warnings) := st in
  (* Calibrate uncertainty *)
  '(Phi, Psi) <- (if calibrate then _calibrate_uncertainty self else Ok (None, None)) ;;
  (* Create output random variables *)
  '(x, A, Ainv) <- _create_output_randvars self (squeeze_T (self_S self))
                     (squeeze_T (self_Y self)) Phi Psi ;;
  (* Log information on solution *)
  let info := {| info_iter := self_iter self;
                 info_maxiter := maxiter;
                 info_resid_l2norm := norm resid;
                 info_conv_crit := _conv_crit;
                 info_matrix_cond := None |} in
  Ok {| out_x := x; out_A := A; out_Ainv := Ainv; out_info := info;
        out_warnings := warnings; out_self := self |}.

(** [SymmetricMatrixBasedSolver.solve]. *)
Definition solve (self : solver) (callback : callback_t) (maxiter : Z)
    (atol rtol : scalar) (calibrate : bool) : result solve_output :=
  (* initialization *)
  let self := set_iter self 0 in
  Ax <- matmul (self_A self) (self_x self) ;;
  resid <- broadcast fsub Ax (self_b self) ;;
  (* iteration with stopping criteria *)
  st <- solve_loop (S (Z.to_nat maxiter)) callback maxiter atol rtol self resid [] ;;
  finish calibrate maxiter st.


(** ** The equations of the specification *)

(** The specification states the iteration on operators that are plain
    maps on vectors.  The definitions of this part follow its words
    (sections 4.2, 4.3 and 4.5); the theorems below compare them with the
    code above. *)
Definition op : Type := vec -> vec.

(** The belief state of the specification, with the residual. *)
Record belief : Type := {
  bel_x : vec;
  bel_residual : vec;
  bel_A_mean : op;
  bel_A_covfactor : op;
  bel_Ainv_mean : op;
  bel_Ainv_covfactor : op
}.

(** Search direction [s = - Ainv_mean . residual]. *)
Definition spec_s (bs : belief) : vec := vneg (bel_Ainv_mean bs (bel_residual bs)).
(** Observation [y = A . s]. *)
Definition spec_y (A : op) (bs : belief) : vec := A (spec_s bs).
(** Scalar [sy = s^T . y]. *)
Definition spec_sy (A : op) (bs : belief) : scalar := dot (spec_s bs) (spec_y A bs).
(** Step size [alpha = - (s^T . residual) / sy]. *)
Definition spec_alpha (A : op) (bs : belief) : scalar :=
  (- dot (spec_s bs) (bel_residual bs)) / spec_sy A bs.

(** [u = Vs / (s^T . Vs)] with [Vs = W . s]. *)
Definition rank2_u (W : op) (s : vec) : vec := vdiv (W s) (dot s (W s)).
(** [v = delta - 1/2 (s^T . delta) . u] with [delta = y - M . s]. *)
Definition rank2_v (M W : op) (s y : vec) : vec :=
  let delta := vsub y (M s) in
  vsub delta (vscale (fhalf * dot s delta) (rank2_u W s)).
(** Mean update [M + (u v^T + v u^T)]. *)
Definition spec_mean_update (M : op) (u v : vec) : op :=
  fun z => vadd (M z) (vadd (vscale_r u (dot v z)) (vscale_r v (dot u z))).
(** Covariance update [W - u Vs^T]. *)
Definition spec_cov_update (W : op) (u Vs : vec) : op :=
  fun z => vsub (W z) (vscale_r u (dot Vs z)).

(** One iteration of the specification, for the system operator [A]. *)
Definition spec_step (A : op) (bs : belief) : belief :=
  let s := spec_s bs in
  let y := spec_y A bs in
  let alpha := spec_alpha A bs in
  {| bel_x := vadd (bel_x bs) (vscale alpha s);
     bel_residual := vadd (bel_residual bs) (vscale alpha y);
     bel_A_mean :=
       spec_mean_update (bel_A_mean bs) (rank2_u (bel_A_covfactor bs) s)
                        (rank2_v (bel_A_mean bs) (bel_A_covfactor bs) s y);
     bel_A_covfactor :=
       spec_cov_update (bel_A_covfactor bs) (rank2_u (bel_A_covfactor bs) s)
                       (bel_A_covfactor bs s);
     bel_Ainv_mean :=
       spec_mean_update (bel_Ainv_mean bs) (rank2_u (bel_Ainv_covfactor bs) y)
                        (rank2_v (bel_Ainv_mean bs) (bel_Ainv_covfactor bs) y s);
     bel_Ainv_covfactor :=
       spec_cov_update (bel_Ainv_covfactor bs) (rank2_u (bel_Ainv_covfactor bs) y)
                       (bel_Ainv_covfactor bs y) |}.

Fixpoint spec_steps (k : nat) (A : op) (bs : belief) : belief :=
  match k with
  | O => bs
  | S k' => spec_steps k' A (spec_step A bs)
  end.

(** The search directions, observations and inner products of the first
    [k] steps of the specification. *)
Definition spec_archive {T : Type} (f : belief -> T) (k : nat) (A : op) (bs : belief)
    : list T :=
  map (fun i => f (spec_steps i A bs)) (seq 0 k).

(** The covariance of the distribution over [x]:
    [Cov(v) = 1/2 ((b^T W b) (W . v) + Wb (Wb^T . v))] with [Wb = W . b]. *)
Definition spec_cov_x (W : op) (b v : vec) : vec :=
  let Wb := W b in
  vscale fhalf (vadd (vscale (dot b Wb) (W v)) (vscale_r Wb (dot Wb v))).

(** ** Operators of the code as maps on vectors *)

(** The operator [L] is square of size [n], and on the vectors of length
    [n] it returns, without raising, what the map [f] gives. *)
Definition denotes (n : nat) (L : linop) (f : op) : Prop :=
  shape L = (n, n) /\
  forall v, length v = n -> matvec L v = Ok (f v) /\ length (f v) = n.

(** The solver object and the residual of the code are a belief state of
    the specification for a system of size [n] with operator [A]. *)
Record refines (n : nat) (self : solver) (resid : vec) (A : op) (bs : belief) : Prop := {
  ref_A : denotes n (self_A self) A;
  ref_A_mean : denotes n (self_A_mean self) (bel_A_mean bs);
  ref_A_covfactor : denotes n (self_A_covfactor self) (bel_A_covfactor bs);
  ref_Ainv_mean : denotes n (self_Ainv_mean self) (bel_Ainv_mean bs);
  ref_Ainv_covfactor : denotes n (self_Ainv_covfactor self) (bel_Ainv_covfactor bs);
  ref_x : self_x self = bel_x bs;
  ref_resid : resid = bel_residual bs;
  ref_len_x : length (self_x self) = n;
  ref_len_resid : length resid = n
}.

(** [k] passes of the loop body, without the convergence checks between. *)
Fixpoint iterations (k : nat) (callback : callback_t) (self : solver) (resid : vec)
    : result (solver * vec) :=
  match k with
  | O => Ok (self, resid)
  | S k' => '(self', resid') <- iteration callback self resid ;;
            iterations k' callback self' resid'
  end.

End Solver.

(** * Concrete systems *)

(** The arithmetic of the runs below: binary64.  None of them takes a
    logarithm or an exponential, and none calls [np.linalg.solve] or the
    regression. *)
Definition binary64 : Arith := float64 (fun _ => nan) (fun _ => nan).

Definition no_capabilities : @Capabilities binary64 :=
  {| linalg_solve := fun _ _ => Raise (LinAlgError "not available"%string);
     GPRegression_predict := fun _ _ _ => [] |}.

(** The identity of size 1 and of size 2. *)
Definition eye1 : @linop binary64 := @MatrixMult binary64 [[1%float]].
Definition eye2 : @linop binary64 :=
  @MatrixMult binary64 [[1%float; 0%float]; [0%float; 1%float]].

(** The system [49 x = 1] with identity priors: symmetric positive
    definite, of size 1. *)
Definition system_49 : result (@solver binary64) :=
  @__init__ binary64 (@MatrixMult binary64 [[49%float]]) [1%float] eye1 eye1 eye1 eye1.

(** The symmetric indefinite system [x1 = 3, - x2 = 1], with identity priors
    except for the mean of the inverse, which is twice the identity. *)
Definition indefinite_A : @linop binary64 :=
  @MatrixMult binary64 [[1%float; 0%float]; [0%float; (-1)%float]].
Definition twice_eye2 : @linop binary64 :=
  @MatrixMult binary64 [[2%float; 0%float]; [0%float; 2%float]].
Definition system_indefinite : result (@solver binary64) :=
  @__init__ binary64 indefinite_A [3%float; 1%float] eye2 eye2 twice_eye2 eye2.

(** Two systems whose operator does not fit the right-hand side of length
    2: an identity of size 3, and an operator of shape (1,2). *)
Definition eye3 : @linop binary64 :=
  @MatrixMult binary64 [[1%float; 0%float; 0%float]; [0%float; 1%float; 0%float];
                        [0%float; 0%float; 1%float]].
Definition row_1x2 : @linop binary64 := @MatrixMult binary64 [[2%float; 0%float]].
Definition system_3x3_b2 : result (@solver binary64) :=
  @__init__ binary64 eye3 [1%float; 2%float] eye2 eye2 eye2 eye2.
Definition system_1x2_b2 : result (@solver binary64) :=
  @__init__ binary64 row_1x2 [1%float; 1%float] eye2 eye2 eye2 eye2.

(** The symmetric positive definite system [2 x1 = 0, 3 x2 = 1] with identity
    priors, except for the covariance factor of [A], which is the symmetric
    positive semi-definite [[1,0],[0,0]]. *)
Definition system_singular_prior : result (@solver binary64) :=
  @__init__ binary64
    (@MatrixMult binary64 [[2%float; 0%float]; [0%float; 3%float]])
    [0%float; 1%float] eye2
    (@MatrixMult binary64 [[1%float; 0%float]; [0%float; 0%float]]) eye2 eye2.

(** [solve] on a constructed system, without callback. *)
Definition run (sys : result (@solver binary64)) (maxiter : Z) (atol rtol : float)
    (calibrate : bool) : result (@solve_output binary64) :=
  bind sys (fun self => @solve binary64 no_capabilities self None maxiter atol rtol calibrate).

(** * Exact arithmetic *)

(** The invariants of the specification are statements of exact arithmetic.
    They are stated on the instance [exactQ], whatever its square root,
    logarithm and exponential are, and up to the equality [==] of the
    rationals. *)
Section ExactDefinitions.

Context {sq lg ex : Q -> Q}.
Local Abbreviation QA := (exactQ sq lg ex).

(** The map [f] on vectors of length [n] is a symmetric positive
    semi-definite linear operator: the form [z, w -> z^T (f w)] is
    symmetric, linear in [w], and non-negative on the diagonal. *)
Record spsd (n : nat) (f : @op QA) : Prop := {
  spsd_length : forall z, length z = n -> length (f z) = n;
  spsd_sym : forall z w, length z = n -> length w = n ->
    (dot (ar:=QA) z (f w) == dot (ar:=QA) w (f z))%Q;
  spsd_linear : forall z w1 w2 c, length z = n -> length w1 = n -> length w2 = n ->
    (dot (ar:=QA) z (f (vadd (ar:=QA) w1 (vscale (ar:=QA) c w2)))
     == dot (ar:=QA) z (f w1) + c * dot (ar:=QA) z (f w2))%Q;
  spsd_psd : forall z, length z = n -> (0 <= dot (ar:=QA) z (f z))%Q
}.

(** What the specification states of a covariance factor of the code: applied to
    probe vectors it returns, [z^T (W z) >= 0], and [W] is its own
    transpose, [z^T (W w) = w^T (W z)]. *)
Definition symmetric_psd (n : nat) (W : @linop QA) : Prop :=
  forall z w, length z = n -> length w = n ->
  exists Wz Ww, matmul W z = Ok Wz /\ matmul W w = Ok Ww /\
                (0 <= dot (ar:=QA) z Wz)%Q /\
                (dot (ar:=QA) z Ww == dot (ar:=QA) w Wz)%Q.

(** None of the three denominators of an iteration, [sy = s^T y],
    [s^T (A_covfactor s)] and [y^T (Ainv_covfactor y)], is zero in the first
    [k] iterations from the belief state [bs]. *)
Fixpoint nondegenerate (k : nat) (A : @op QA) (bs : @belief QA) : Prop :=
  match k with
  | O => True
  | S k' =>
      let s := spec_s bs in
      let y := spec_y A bs in
      ~ (dot (ar:=QA) s y == 0)%Q /\
      ~ (dot (ar:=QA) s (bel_A_covfactor bs s) == 0)%Q /\
      ~ (dot (ar:=QA) y (bel_Ainv_covfactor bs y) == 0)%Q /\
      nondegenerate k' A (spec_step A bs)
  end.

End ExactDefinitions.

(** The rationals, for the runs in exact arithmetic below; none of them
    takes a square root, a logarithm or an exponential. *)
Definition rationals : Arith := exactQ (fun _ => 0%Q) (fun _ => 0%Q) (fun _ => 0%Q).

Definition no_capabilities_Q : @Capabilities rationals :=
  {| linalg_solve := fun _ _ => Raise (LinAlgError "not available"%string);
     GPRegression_predict := fun _ _ _ => [] |}.

(** Scenario A of the specification, [A = [[4,1],[1,3]]], [b = [1,2]], with
    identity priors: the operators, the constructed solver, the initial
    residual [A x0 - b], and the belief state they refine. *)
Definition eye2_rows_Q : list (list Q) := [[1%Q; 0%Q]; [0%Q; 1%Q]].
Definition scenario_A_rows_Q : list (list Q) := [[4%Q; 1%Q]; [1%Q; 3%Q]].
Definition rows_op {ar : Arith} (rows : list vec) : op :=
  fun v => map (fun row => dot row v) rows.

Definition scenario_A_solver_Q : @solver rationals :=
  {| self_A := @MatrixMult rationals scenario_A_rows_Q;
     self_b := [1%Q; 2%Q];
     self_A_mean := @MatrixMult rationals eye2_rows_Q;
     self_A_covfactor := @MatrixMult rationals eye2_rows_Q;
     self_Ainv_mean := @MatrixMult rationals eye2_rows_Q;
     self_Ainv_covfactor := @MatrixMult rationals eye2_rows_Q;
     self_x := @rows_op rationals eye2_rows_Q [1%Q; 2%Q];
     self_S := []; self_Y := []; self_sy := []; self_iter := 0 |}.

Definition scenario_A_resid_Q : list Q :=
  @vsub rationals (@rows_op rationals scenario_A_rows_Q (self_x scenario_A_solver_Q))
        [1%Q; 2%Q].

Definition scenario_A_belief_Q : @belief rationals :=
  {| bel_x := self_x scenario_A_solver_Q;
     bel_residual := scenario_A_resid_Q;
     bel_A_mean := @rows_op rationals eye2_rows_Q;
     bel_A_covfactor := @rows_op rationals eye2_rows_Q;
     bel_Ainv_mean := @rows_op rationals eye2_rows_Q;
     bel_Ainv_covfactor := @rows_op rationals eye2_rows_Q |}.

(** Scenario A in binary64. *)
Definition scenario_A_solver : @solver binary64 :=
  {| self_A := @MatrixMult binary64 [[4%float; 1%float]; [1%float; 3%float]];
     self_b := [1%float; 2%float];
     self_A_mean := eye2; self_A_covfactor := eye2;
     self_Ainv_mean := eye2; self_Ainv_covfactor := eye2;
     self_x := [1%float; 2%float];
     self_S := []; self_Y := []; self_sy := []; self_iter := 0 |}.

(** * Equality up to [==]

    On the rationals two results of the code that are equal as numbers need
    not be the same fraction: vectors and matrices are compared entry by
    entry, up to [==]. *)

(** Equality of two vectors of rationals, entry by entry, up to [==]. *)
Definition veq (u v : list Q) : Prop := Forall2 Qeq u v.

(** Equality of two matrices of rationals, entry by entry, up to [==]. *)
Definition meq (M N : list (list Q)) : Prop := Forall2 veq M N.

(** The sum of [f 0], ..., [f (n - 1)]. *)
Fixpoint qsum (f : nat -> Q) (n : nat) : Q :=
  match n with
  | O => 0
  | Datatypes.S n' => qsum f n' + f n'
  end.

Section ExactOperators.

Context {sq lg ex : Q -> Q}.
Local Abbreviation QA := (exactQ sq lg ex).

(** The map [f] is linear on the vectors of length [n]. *)
Definition linear (n : nat) (f : @op QA) : Prop :=
  forall u v c, length u = n -> length v = n ->
    veq (f (vadd (ar:=QA) u (vscale (ar:=QA) c v)))
        (vadd (ar:=QA) (f u) (vscale (ar:=QA) c (f v))).

(** The operator [L] of the code is its own transpose on the vectors of
    length [n]: applied to [z] and [w] it returns, and
    [z^T (L w) = w^T (L z)]. *)
Definition symmetric_op (n : nat) (L : @linop QA) : Prop :=
  forall z w, length z = n -> length w = n ->
  exists Lz Lw, matmul L z = Ok Lz /\ matmul L w = Ok Lw /\
                (dot (ar:=QA) z Lw == dot (ar:=QA) w Lz)%Q.

End ExactOperators.

(** * The priors of the ODE filter

    [src/probnum/diffeq/odefilter/prior.py]: the integrated Brownian
    motion, the integrated Ornstein-Uhlenbeck process and the Matern process
    as linear time-invariant models, and the closed-form prediction of the
    first.  The orders [ordint] and the dimensions [spatialdim] are natural
    numbers.  A matrix is the list of its rows, all of one length. *)
Section Priors.

Context {ar : Arith}.
Local Open Scope num_scope.
Local Open Scope result_scope.

Definition matrix : Type := list (list scalar).

(** A matrix has [n] rows of length [m]. *)
Definition has_shape (n m : nat) (M : matrix) : Prop :=
  length M = n /\ Forall (fun row => length row = m) M.

(** [np.array([[f(row, col) for col in range(m)] for row in range(n)])]. *)
Definition tabulate (n m : nat) (f : nat -> nat -> scalar) : matrix :=
  map (fun row => map (f row) (seq 0 m)) (seq 0 n).

(** [np.eye(n)]. *)
Definition np_eye (n : nat) : matrix :=
  tabulate n n (fun i j => if (i =? j)%nat then fofZ 1 else fzero).

(** [np.diag(np.ones(k), 1)]: the square array of size [k + 1] with ones
    above the diagonal. *)
Definition np_diag_ones_1 (k : nat) : matrix :=
  tabulate (k + 1) (k + 1) (fun i j => if (j =? i + 1)%nat then fofZ 1 else fzero).

(** [np.kron] of two arrays of two axes, and of two arrays of one axis. *)
Definition kron (A B : matrix) : matrix :=
  flat_map (fun arow =>
    map (fun brow => flat_map (fun a => map (fun b => a * b) brow) arow) B) A.
Definition kron1 (u v : list scalar) : list scalar :=
  flat_map (fun a => map (fun b => a * b) v) u.

(** An assignment [l[i] = x] to an entry that exists. *)
Fixpoint list_set {T : Type} (l : list T) (i : nat) (x : T) : list T :=
  match l, i with
  | [], _ => []
  | _ :: t, O => x :: t
  | h :: t, Datatypes.S i' => h :: list_set t i' x
  end.

(** [x ** k] for an integer [k >= 0]: the product of [k] factors [x].  On
    the rationals this is the power; the power of binary64 rounds the exact
    power, and what depends on the value of a power is stated on the
    rationals. *)
Fixpoint fpow (x : scalar) (k : nat) : scalar :=
  match k with
  | O => fofZ 1
  | Datatypes.S k' => x * fpow x k'
  end.

(** [np.math.factorial] and [scipy.special.binom] on natural numbers. *)
Definition factorial (k : nat) : Z := Z.of_nat (fact k).
Definition binom (n k : nat) : Z := Z.of_nat (fact n / (fact k * fact (n - k))).

(** [_dynamat_ibm]. *)
Definition _dynamat_ibm (ordint spatialdim : nat) : matrix :=
  let dynamat := np_diag_ones_1 ordint in
  kron (np_eye spatialdim) dynamat.

(** [_dynamat_ioup]: the entry [[-1, -1]] is the last of the last row. *)
Definition _dynamat_ioup (ordint spatialdim : nat) (driftspeed : scalar) : matrix :=
  let dynamat := np_diag_ones_1 ordint in
  let minus_1 := (length dynamat - 1)%nat in
  let dynamat :=
    list_set dynamat minus_1 (list_set (nth minus_1 dynamat []) minus_1 (- driftspeed)) in
  kron (np_eye spatialdim) dynamat.

(** [_dynamat_matern]. *)
Definition _dynamat_matern (ordint spatialdim : nat) (lengthscale : scalar) : matrix :=
  let dynamat := np_diag_ones_1 ordint in
  let nu := fofZ (Z.of_nat ordint) + fhalf in
  let D := (ordint + 1)%nat in
  let lam := fsqrt (fofZ 2 * nu) / lengthscale in
  let dynamat :=
    list_set dynamat (length dynamat - 1)
      (map (fun i => (- fofZ (binom D i)) * fpow lam (D - i)) (seq 0 D)) in
  kron (np_eye spatialdim) dynamat.

(** [_dispvec_ibm_ioup_matern]; [np.eye(ordint + 1)[:, -1]] is the last
    column of the identity. *)
Definition _dispvec_ibm_ioup_matern (ordint spatialdim : nat) (diffconst : scalar)
    : list scalar :=
  let dispvec :=
    map (fun a => diffconst * a) (map (fun row => last row fzero) (np_eye (ordint + 1))) in
  kron1 (repeat (fofZ 1) spatialdim) dispvec.

(** The class [LTISDEModel] is not among the sources: an object of it is
    the record of the four arrays its constructor is given. *)
Record LTISDEModel : Type := {
  ltisde_driftmat : matrix;
  ltisde_forcevec : list scalar;
  ltisde_dispvec : list scalar;
  ltisde_diffmat : matrix
}.

(** The objects of the classes [IBM], [IOUP] and [Matern]: their
    attributes, and the part of the base class. *)
Record IBM : Type := {
  ibm_ordint : nat;
  ibm_spatialdim : nat;
  ibm_diffconst : scalar;
  ibm_model : LTISDEModel
}.

Record IOUP : Type := {
  ioup_ordint : nat;
  ioup_spatialdim : nat;
  ioup_driftspeed : scalar;
  ioup_diffconst : scalar;
  ioup_model : LTISDEModel
}.

Record Matern : Type := {
  matern_ordint : nat;
  matern_spatialdim : nat;
  matern_lengthscale : scalar;
  matern_diffconst : scalar;
  matern_model : LTISDEModel
}.

(** [IBM.__init__]. *)
Definition IBM_init (ordint spatialdim : nat) (diffconst : scalar) : IBM :=
  let driftmat := _dynamat_ibm ordint spatialdim in
  let forcevec := repeat fzero (length driftmat) in
  let dispvec := _dispvec_ibm_ioup_matern ordint spatialdim diffconst in
  let diffmat := np_eye (spatialdim * (ordint + 1)) in
  {| ibm_ordint := ordint; ibm_spatialdim := spatialdim; ibm_diffconst := diffconst;
     ibm_model := {| ltisde_driftmat := driftmat; ltisde_forcevec := forcevec;
                     ltisde_dispvec := dispvec; ltisde_diffmat := diffmat |} |}.

(** [IOUP.__init__]. *)
Definition IOUP_init (ordint spatialdim : nat) (driftspeed diffconst : scalar) : IOUP :=
  let driftmat := _dynamat_ioup ordint spatialdim driftspeed in
  let forcevec := repeat fzero (length driftmat) in
  let dispvec := _dispvec_ibm_ioup_matern ordint spatialdim diffconst in
  let diffmat := np_eye (spatialdim * (ordint + 1)) in
  {| ioup_ordint := ordint; ioup_spatialdim := spatialdim; ioup_driftspeed := driftspeed;
     ioup_diffconst := diffconst;
     ioup_model := {| ltisde_driftmat := driftmat; ltisde_forcevec := forcevec;
                      ltisde_dispvec := dispvec; ltisde_diffmat := diffmat |} |}.

(** [Matern.__init__]. *)
Definition Matern_init (ordint spatialdim : nat) (lengthscale diffconst : scalar) : Matern :=
  let driftmat := _dynamat_matern ordint spatialdim lengthscale in
  let forcevec := repeat fzero (length driftmat) in
  let dispvec := _dispvec_ibm_ioup_matern ordint spatialdim diffconst in
  let diffmat := np_eye (spatialdim * (ordint + 1)) in
  {| matern_ordint := ordint; matern_spatialdim := spatialdim;
     matern_lengthscale := lengthscale; matern_diffconst := diffconst;
     matern_model := {| ltisde_driftmat := driftmat; ltisde_forcevec := forcevec;
                        ltisde_dispvec := dispvec; ltisde_diffmat := diffmat |} |}.

(** [IBM._ah_ibm]: the closed form of [A(h)]. *)
Definition ah_element (stp : scalar) (rw cl : nat) : scalar :=
  if (rw <=? cl)%nat then fpow stp (cl - rw) / fofZ (factorial (cl - rw))
  else fzero.

Definition _ah_ibm (ordint spatialdim : nat) (start stop : scalar) : matrix :=
  let step := stop - start in
  let ah_1d := tabulate (ordint + 1) (ordint + 1) (ah_element step) in
  kron (np_eye spatialdim) ah_1d.

(** [IBM._qh_ibm]: the closed form of [Q(h)].  The index and the two
    factorials are integers, and so is their product. *)
Definition qh_element (stp : scalar) (ordint rw cl : nat) (dconst : scalar) : scalar :=
  let idx := (2 * Z.of_nat ordint + 1 - Z.of_nat rw - Z.of_nat cl)%Z in
  let fact_rw := factorial (ordint - rw) in
  let fact_cl := factorial (ordint - cl) in
  fpow dconst 2 * fpow stp (Z.to_nat idx) / fofZ (idx * fact_rw * fact_cl)%Z.

Definition _qh_ibm (ordint spatialdim : nat) (diffconst : scalar) (start stop : scalar)
    : matrix :=
  let step := stop - start in
  let qh_1d := tabulate (ordint + 1) (ordint + 1)
                 (fun row col => qh_element step ordint row col diffconst) in
  kron (np_eye spatialdim) qh_1d.

(** The arrays of NumPy the prediction uses: [M.T], [M @ v], [M @ N] and
    [M + N] on arrays of one shape.  [@] raises [ValueError] when the inner
    dimensions differ. *)
Definition transpose (M : matrix) : matrix :=
  map (fun j => map (fun row => nth j row fzero) M) (seq 0 (length (hd [] M))).

Definition mat_vec (M : matrix) (v : list scalar) : result (list scalar) :=
  if (length (hd [] M) =? length v)%nat then Ok (map (fun row => dot row v) M)
  else Raise (ValueError "matmul: dimension mismatch"%string).

Definition mat_mat (M N : matrix) : result matrix :=
  if (length (hd [] M) =? length N)%nat
  then Ok (map (fun row => map (fun col => dot row col) (transpose N)) M)
  else Raise (ValueError "matmul: dimension mismatch"%string).

Definition mat_add (M N : matrix) : matrix :=
  map (fun rows => zipWith fadd (fst rows) (snd rows)) (combine M N).

(** [IBM.chapmankolmogorov]; the argument [step] is ignored.  The random
    variable is its distribution, given by mean and covariance. *)
Definition chapmankolmogorov (self : IBM) (start stop step : scalar)
    (randvar : Normal (list scalar) matrix) : result (Normal (list scalar) matrix) :=
  let mean := mean_of randvar in
  let covar := cov_of randvar in
  let ah := _ah_ibm (ibm_ordint self) (ibm_spatialdim self) start stop in
  let qh := _qh_ibm (ibm_ordint self) (ibm_spatialdim self) (ibm_diffconst self) start stop in
  mpred <- mat_vec ah mean ;;
  ah_covar <- mat_mat ah covar ;;
  ah_covar_aht <- mat_mat ah_covar (transpose ah) ;;
  let cpred := mat_add ah_covar_aht qh in
  Ok {| mean_of := mpred; cov_of := cpred |}.

End Priors.

(** * Polynomial quadrature

    [src/probnum/quad/polynomial/polynomialquadrature.py].  The module
    [utils] and the class [Quadrature] are not among the sources: the
    assertions of [utils] on the number of axes of the three arrays hold by
    the types of the model, and the constructor of [Quadrature] takes no
    argument. *)
Section Quadrature.

Context {ar : Arith}.
Local Open Scope num_scope.
Local Open Scope result_scope.

(** An array of two axes, of shape [(len(rows), ncols)]. *)
Record array2 : Type := {
  a2_rows : list (list scalar);
  a2_ncols : nat
}.

(** The attributes of a [PolynomialQuadrature]. *)
Record PolynomialQuadrature : Type := {
  quad_nodes : array2;
  quad_weights : list scalar;
  quad_bounds : array2
}.

(** [PolynomialQuadrature.__init__]; [len(nodes.T)] is the number of
    columns of [nodes]. *)
Definition PolynomialQuadrature_init (nodes : array2) (weights : list scalar)
    (bounds : array2) : result PolynomialQuadrature :=
  if negb (length (a2_rows nodes) =? length weights)%nat
     || negb (a2_ncols nodes =? length (a2_rows bounds))%nat
  then Raise (ValueError
         "Either nodes and weights or nodes and bounds are incompatible."%string)
  else Ok {| quad_nodes := nodes; quad_weights := weights; quad_bounds := bounds |}.

(** An integrand: what it returns on one node, and on the array of all
    nodes. *)
Record integrand : Type := {
  on_node : list scalar -> scalar;
  on_nodes : array2 -> list scalar
}.

(** [PolynomialQuadrature.integrate]. *)
Definition integrate (self : PolynomialQuadrature) (fun_ : integrand)
    (isvectorized : bool) : result scalar :=
  if negb isvectorized then
    let output := fzero in
    Ok (fold_left (fun output node_weight =>
                     output + snd node_weight * on_node fun_ (fst node_weight))
                  (combine (a2_rows (quad_nodes self)) (quad_weights self)) output)
  else inner (quad_weights self) (on_nodes fun_ (quad_nodes self)).

End Quadrature.

(** * The diffusion estimate of the Gaussian ODE filter

    [GaussianIVPFilter._estimate_diffusion] of
    [src/probnum/diffeq/odefiltsmooth/ivpfiltsmooth.py].  The random
    variable it is given is the record of the three attributes it reads. *)
Section Diffusion.

Context {ar : Arith} {cap : Capabilities}.
Local Open Scope num_scope.
Local Open Scope result_scope.

Record measured_rv : Type := {
  rv_mean : list scalar;
  rv_cov_cholesky : list (list scalar);
  rv_size : Z
}.

Definition _estimate_diffusion (meas_rv : measured_rv) : result scalar :=
  let std_like := rv_cov_cholesky meas_rv in
  whitened_res <- linalg_solve std_like (rv_mean meas_rv) ;;
  ww <- inner whitened_res whitened_res ;;
  let ssq := ww / fofZ (rv_size meas_rv) in
  Ok ssq.

End Diffusion.

(** * Concrete priors, quadrature rules and measurements *)

(** The integrated Brownian motion of order 1 in one dimension, with unit
    diffusion, and a distribution on its state space, in exact arithmetic. *)
Definition ibm_1_1_Q : @IBM rationals := @IBM_init rationals 1 1 1%Q.
Definition normal_2_Q : Normal (list Q) (list (list Q)) :=
  {| mean_of := [1%Q; 2%Q]; cov_of := eye2_rows_Q |}.

(** The trapezoidal rule on [[0, 1]], and three integrands on it. *)
Definition trapezoid_nodes_Q : @array2 rationals :=
  @Build_array2 rationals [[0%Q]; [1%Q]] 1.
Definition unit_interval_Q : @array2 rationals :=
  @Build_array2 rationals [[0%Q; 1%Q]] 2.
Definition trapezoid_Q : @PolynomialQuadrature rationals :=
  @Build_PolynomialQuadrature rationals trapezoid_nodes_Q [(1 # 2)%Q; (1 # 2)%Q]
    unit_interval_Q.
Definition first_coordinate_Q : @integrand rationals :=
  @Build_integrand rationals (fun node => hd 0%Q node)
    (fun nodes => map (fun node => hd 0%Q node) (a2_rows nodes)).
Definition constant_one_Q : @integrand rationals :=
  @Build_integrand rationals (fun _ => 1%Q) (fun nodes => map (fun _ => 1%Q) (a2_rows nodes)).
Definition affine_Q : @integrand rationals :=
  @Build_integrand rationals (fun node => (3 * hd 0 node + 1)%Q)
    (fun nodes => map (fun node => (3 * hd 0 node + 1)%Q) (a2_rows nodes)).

(** [np.linalg.solve] on the systems of size 1. *)
Definition solve_1x1_Q : @Capabilities rationals :=
  @Build_Capabilities rationals
    (fun (M : list (list Q)) (rhs : list Q) =>
       match M, rhs with
       | [[a]], [c] => if Qeq_bool a 0 then Raise (LinAlgError "Singular matrix"%string)
                       else Ok [(c / a)%Q]
       | _, _ => Raise (LinAlgError "not available"%string)
       end)
    (fun _ _ _ => []).

Definition measured_3_Q : @measured_rv rationals :=
  @Build_measured_rv rationals [3%Q] [[2%Q]] 1.

(** * Properties *)

Unset Implicit Arguments.

(** Inversion of a bind that returns. *)
Lemma bind_Ok_inv {T U} (r : result T) (k : T -> result U) u :
  bind r k = Ok u -> exists t, r = Ok t /\ k t = Ok u.
Proof. destruct r; simpl; intros H; [eauto | discriminate]. Qed.

Ltac inv_bind H :=
  let t := fresh "t" in let E := fresh "E" in
  apply bind_Ok_inv in H; destruct H as (t & E & H).

(** Reduction of the attributes of a solver after assignments. *)
Ltac self_simpl :=
  cbn [bind self_A self_b self_A_mean self_A_covfactor self_Ainv_mean
       self_Ainv_covfactor self_x self_S self_Y self_sy self_iter
       set_S set_Y set_sy set_x set_A_mean set_Ainv_mean set_A_covfactor
       set_Ainv_covfactor set_iter].

Section Facts.

Context {ar : Arith} {cap : Capabilities}.
Local Open Scope num_scope.
Local Open Scope result_scope.

Lemma length_zipWith f (u v : vec) :
  length u = length v -> length (zipWith f u v) = length u.
Proof.
  revert v; induction u as [|a u IH]; intros [|c v]; simpl; try discriminate; auto.
Qed.

Lemma length_vadd (u v : vec) n : length u = n -> length v = n -> length (vadd u v) = n.
Proof. intros Hu Hv. unfold vadd. rewrite length_zipWith; congruence. Qed.
Lemma length_vsub (u v : vec) n : length u = n -> length v = n -> length (vsub u v) = n.
Proof. intros Hu Hv. unfold vsub. rewrite length_zipWith; congruence. Qed.
Lemma length_vneg (u : vec) n : length u = n -> length (vneg u) = n.
Proof. intros; unfold vneg; now rewrite length_map. Qed.
Lemma length_vscale c (u : vec) n : length u = n -> length (vscale c u) = n.
Proof. intros; unfold vscale; now rewrite length_map. Qed.
Lemma length_vscale_r c (u : vec) n : length u = n -> length (vscale_r u c) = n.
Proof. intros; unfold vscale_r; now rewrite length_map. Qed.
Lemma length_vdiv c (u : vec) n : length u = n -> length (vdiv u c) = n.
Proof. intros; unfold vdiv; now rewrite length_map. Qed.

Create HintDb lengths.
#[local] Hint Resolve length_vadd length_vsub length_vneg length_vscale
  length_vscale_r length_vdiv : lengths.

Lemma length_rank2_u (W : op) (s : vec) n :
  length (W s) = n -> length (rank2_u W s) = n.
Proof. unfold rank2_u. auto with lengths. Qed.

Lemma length_rank2_v (M W : op) (s y : vec) n :
  length y = n -> length (M s) = n -> length (W s) = n ->
  length (rank2_v M W s y) = n.
Proof. unfold rank2_v, rank2_u. auto 6 with lengths. Qed.

#[local] Hint Resolve length_rank2_u length_rank2_v : lengths.

Lemma inner_same {u v : vec} {n} : length u = n -> length v = n -> inner u v = Ok (dot u v).
Proof. intros Hu Hv. unfold inner. rewrite Hu, Hv, Nat.eqb_refl. reflexivity. Qed.

Lemma broadcast_same {f} {u v : vec} {n} :
  length u = n -> length v = n -> broadcast f u v = Ok (zipWith f u v).
Proof. intros Hu Hv. unfold broadcast. rewrite Hu, Hv, Nat.eqb_refl. reflexivity. Qed.

Lemma matmul_denotes {n L f v} :
  denotes n L f -> length v = n -> matmul L v = Ok (f v).
Proof.
  intros [Hs Hf] Hv. destruct (Hf v Hv) as [E Hl].
  unfold matmul. rewrite Hs, E; simpl. rewrite Hv, Hl, Nat.eqb_refl. reflexivity.
Qed.

Lemma denotes_length {n L f v} : denotes n L f -> length v = n -> length (f v) = n.
Proof. intros [_ Hf] Hv. apply Hf, Hv. Qed.

Lemma denotes_shape {n L f} : denotes n L f -> shape L = (n, n).
Proof. now intros [H _]. Qed.

Lemma shape_eqb_refl s : shape_eqb s s = true.
Proof. unfold shape_eqb. now rewrite !Nat.eqb_refl. Qed.

Lemma denotes_neg {n L f} : denotes n L f -> denotes n (linop_neg L) (fun z => vneg (f z)).
Proof.
  intros H. split; [exact (denotes_shape H)|].
  intros v Hv. simpl. rewrite (matmul_denotes H Hv). simpl. split; [reflexivity|].
  apply length_vneg, (denotes_length H Hv).
Qed.

Lemma denotes_mean_update {n self M fM u v} :
  denotes n M fM -> shape (self_A_mean self) = (n, n) ->
  length u = n -> length v = n ->
  exists M', linop_add (aslinop M) (_mean_update self u v) = Ok M' /\
             denotes n M' (spec_mean_update fM u v).
Proof.
  intros HM Hshape Hu Hv. unfold linop_add, aslinop.
  rewrite (denotes_shape HM). simpl. rewrite Hshape, shape_eqb_refl.
  eexists; split; [reflexivity|].
  split; [reflexivity|]. intros z Hz. simpl.
  rewrite (matmul_denotes HM Hz). simpl.
  unfold matmul; simpl. rewrite Hshape; simpl. rewrite Hz, Nat.eqb_refl.
  rewrite (inner_same Hv Hz), (inner_same Hu Hz). simpl.
  rewrite (broadcast_same (n:=n)); try (apply length_vscale_r; assumption). simpl.
  rewrite length_zipWith, (length_vscale_r _ _ n), Nat.eqb_refl; auto.
  2:{ rewrite !(length_vscale_r _ _ n); auto. }
  simpl. rewrite (broadcast_same (n:=n)).
  - unfold spec_mean_update, vadd. split; [reflexivity|].
    apply length_vadd; [apply (denotes_length HM Hz)|apply length_vadd; apply length_vscale_r; auto].
  - apply (denotes_length HM Hz).
  - apply length_vadd; apply length_vscale_r; auto.
Qed.

Lemma denotes_cov_update {n self W fW u Ws} :
  denotes n W fW -> shape (self_A_mean self) = (n, n) ->
  length u = n -> length Ws = n ->
  exists W', linop_sub (aslinop W) (_covariance_update self u Ws) = Ok W' /\
             denotes n W' (spec_cov_update fW u Ws).
Proof.
  intros HW Hshape Hu Hv. unfold linop_sub, aslinop.
  rewrite (denotes_shape HW). simpl. rewrite Hshape, shape_eqb_refl.
  eexists; split; [reflexivity|].
  split; [reflexivity|]. intros z Hz. simpl.
  rewrite (matmul_denotes HW Hz). simpl.
  unfold matmul; simpl. rewrite Hshape; simpl. rewrite Hz, Nat.eqb_refl.
  rewrite (inner_same Hv Hz). simpl.
  rewrite (length_vscale_r _ _ n), Nat.eqb_refl; auto. cbn [bind].
  rewrite (broadcast_same (n:=n)).
  - unfold spec_cov_update, vsub. split; [reflexivity|].
    apply length_vsub; [apply (denotes_length HW Hz)|apply length_vscale_r; auto].
  - apply (denotes_length HW Hz).
  - apply length_vscale_r; auto.
Qed.

Lemma iteration_step_refines {n self resid A bs} :
  refines n self resid A bs ->
  exists self',
    iteration_step self resid =
      Ok (self', bel_residual (spec_step A bs),
          (spec_s bs, spec_y A bs, spec_alpha A bs)) /\
    refines n self' (bel_residual (spec_step A bs)) A (spec_step A bs) /\
    self_S self' = self_S self ++ [spec_s bs] /\
    self_Y self' = self_Y self ++ [spec_y A bs] /\
    self_sy self' = self_sy self ++ [spec_sy A bs] /\
    self_iter self' = (self_iter self + 1)%Z /\
    self_b self' = self_b self.
Proof.
  intros [HA HAm HAc HHm HHc Hx Hr Hlx Hlr]. subst resid.
  assert (Hs : length (spec_s bs) = n).
  { unfold spec_s. apply length_vneg. apply (denotes_length HHm Hlr). }
  assert (Hy : length (spec_y A bs) = n) by apply (denotes_length HA Hs).
  set (s := spec_s bs) in *. set (y := spec_y A bs) in *.
  set (alpha := spec_alpha A bs).
  assert (HVs : length (bel_A_covfactor bs s) = n) by apply (denotes_length HAc Hs).
  assert (HAs : length (bel_A_mean bs s) = n) by apply (denotes_length HAm Hs).
  assert (HWy : length (bel_Ainv_covfactor bs y) = n) by apply (denotes_length HHc Hy).
  assert (HHy : length (bel_Ainv_mean bs y) = n) by apply (denotes_length HHm Hy).
  assert (HdA : length (vsub y (bel_A_mean bs s)) = n) by auto with lengths.
  assert (HdH : length (vsub s (bel_Ainv_mean bs y)) = n) by auto with lengths.
  assert (HuA : length (rank2_u (bel_A_covfactor bs) s) = n) by auto with lengths.
  assert (HuH : length (rank2_u (bel_Ainv_covfactor bs) y) = n) by auto with lengths.
  assert (HvA : length (rank2_v (bel_A_mean bs) (bel_A_covfactor bs) s y) = n)
    by auto with lengths.
  assert (HvH : length (rank2_v (bel_Ainv_mean bs) (bel_Ainv_covfactor bs) y s) = n)
    by auto with lengths.
  unfold iteration_step.
  rewrite (matmul_denotes (denotes_neg HHm) Hlr). self_simpl.
  change (vneg (bel_Ainv_mean bs (bel_residual bs))) with s.
  rewrite (matmul_denotes HA Hs). change (A s) with y. self_simpl.
  rewrite (inner_same Hs Hy). self_simpl.
  rewrite (inner_same Hs Hlr). self_simpl.
  change (- dot s (bel_residual bs) / dot s y) with alpha.
  rewrite (broadcast_same Hlx (length_vscale alpha _ _ Hs)). self_simpl.
  rewrite (broadcast_same Hlr (length_vscale alpha _ _ Hy)). self_simpl.
  rewrite (matmul_denotes HAc Hs), (matmul_denotes HAm Hs). self_simpl.
  rewrite (broadcast_same Hy HAs). self_simpl.
  rewrite (inner_same Hs HVs). self_simpl.
  fold (vsub y (bel_A_mean bs s)).
  rewrite (inner_same Hs HdA). self_simpl.
  fold (rank2_u (bel_A_covfactor bs) s).
  rewrite (broadcast_same HdA (length_vscale _ _ _ HuA)). self_simpl.
  rewrite (matmul_denotes HHc Hy), (matmul_denotes HHm Hy). self_simpl.
  rewrite (broadcast_same Hs HHy). self_simpl.
  rewrite (inner_same Hy HWy). self_simpl.
  fold (vsub s (bel_Ainv_mean bs y)).
  rewrite (inner_same Hy HdH). self_simpl.
  fold (rank2_u (bel_Ainv_covfactor bs) y).
  rewrite (broadcast_same HdH (length_vscale _ _ _ HuH)). self_simpl.
  match goal with |- context [linop_add (aslinop ?M) (_mean_update ?sf ?u ?v)] =>
    destruct (@denotes_mean_update n sf M _ u v HAm (denotes_shape HAm) HuA HvA)
      as (Am' & EAm & DAm); rewrite EAm; clear EAm end.
  self_simpl.
  match goal with |- context [linop_add (aslinop ?M) (_mean_update ?sf ?u ?v)] =>
    destruct (@denotes_mean_update n sf M _ u v HHm (denotes_shape DAm) HuH HvH)
      as (Hm' & EHm & DHm); rewrite EHm; clear EHm end.
  self_simpl.
  match goal with |- context [linop_sub (aslinop ?M) (_covariance_update ?sf ?u ?v)] =>
    destruct (@denotes_cov_update n sf M _ u v HAc (denotes_shape DAm) HuA HVs)
      as (Ac' & EAc & DAc); rewrite EAc; clear EAc end.
  self_simpl.
  match goal with |- context [linop_sub (aslinop ?M) (_covariance_update ?sf ?u ?v)] =>
    destruct (@denotes_cov_update n sf M _ u v HHc (denotes_shape DAm) HuH HWy)
      as (Hc' & EHc & DHc); rewrite EHc; clear EHc end.
  self_simpl.
  eexists; split; [reflexivity|].
  split; [|repeat split; reflexivity].
  constructor; self_simpl; cbn [spec_step bel_x bel_residual bel_A_mean bel_A_covfactor
    bel_Ainv_mean bel_Ainv_covfactor]; try assumption.
  - rewrite Hx. reflexivity.
  - reflexivity.
  - apply length_vadd; auto with lengths.
  - apply length_vadd; auto with lengths.
Qed.

(** C4.  The convergence check tries its criteria in this order and
    returns at the first that holds: [iter >= maxiter] gives
    [(True, "maxiter")] and emits the warning, whatever the residual is;
    otherwise [norm resid <= atol] gives [(True, "resid_atol")];
    otherwise [norm resid <= rtol * norm b] gives [(True, "resid_rtol")];
    otherwise the check returns [(False, "")].  Only the first case emits a
    warning. *)
Theorem check_convergence_priority (self : solver) (iter maxiter : Z) (resid : vec)
    (atol rtol : scalar) :
  let r := _check_convergence self iter maxiter resid atol rtol in
  ((iter >= maxiter)%Z -> r = ((true, "maxiter"%string), [maxiter_warning])) /\
  ((iter < maxiter)%Z -> (norm resid <=? atol) = true ->
     r = ((true, "resid_atol"%string), [])) /\
  ((iter < maxiter)%Z -> (norm resid <=? atol) = false ->
     (norm resid <=? rtol * norm (self_b self)) = true ->
     r = ((true, "resid_rtol"%string), [])) /\
  ((iter < maxiter)%Z -> (norm resid <=? atol) = false ->
     (norm resid <=? rtol * norm (self_b self)) = false ->
     r = ((false, EmptyString), [])).
Proof.
  unfold _check_convergence. cbv zeta.
  destruct (Z.geb_spec iter maxiter) as [Hge | Hlt].
  - repeat split; intros; try reflexivity; lia.
  - repeat split; intros; try lia.
    + rewrite H0. reflexivity.
    + rewrite H0, H1. reflexivity.
    + rewrite H0, H1. reflexivity.
Qed.

Lemma solve_loop_unfold fuel callback maxiter atol rtol self resid warnings :
  solve_loop (S fuel) callback maxiter atol rtol self resid warnings =
  let '((_has_converged, _conv_crit), w) :=
    _check_convergence self (self_iter self) maxiter resid atol rtol in
  if _has_converged : bool then Ok (self, resid, _conv_crit, warnings ++ w)
  else
    '(self', resid') <- iteration callback self resid ;;
    solve_loop fuel callback maxiter atol rtol self' resid' (warnings ++ w).
Proof. reflexivity. Qed.

Lemma iteration_step_iter self resid self' resid' loc :
  iteration_step self resid = Ok (self', resid', loc) ->
  self_iter self' = (self_iter self + 1)%Z /\ self_b self' = self_b self /\
  self_A self' = self_A self.
Proof.
  unfold iteration_step. intros H.
  repeat inv_bind H. inversion H; subst. repeat split.
Qed.

Lemma iteration_iter callback self resid self' resid' :
  iteration callback self resid = Ok (self', resid') ->
  self_iter self' = (self_iter self + 1)%Z /\ self_b self' = self_b self /\
  self_A self' = self_A self.
Proof.
  unfold iteration. intros H. inv_bind H. destruct t as [[s1 r1] loc]. 
  inv_bind H. inversion H; subst. eapply iteration_step_iter; eauto.
Qed.

(** The fuel of [solve] is enough: with more than [maxiter - iter_]
    passes allowed the loop does what it does with any larger bound, so
    [OutOfFuel] is never the model's own. *)
Lemma solve_loop_fuel fuel fuel' callback maxiter atol rtol self resid warnings :
  (Z.to_nat (maxiter - self_iter self) < fuel)%nat ->
  (Z.to_nat (maxiter - self_iter self) < fuel')%nat ->
  solve_loop fuel callback maxiter atol rtol self resid warnings =
  solve_loop fuel' callback maxiter atol rtol self resid warnings.
Proof.
  revert fuel' self resid warnings.
  induction fuel as [|fuel IH]; intros [|fuel'] self resid warnings Hlt Hlt'; try lia.
  rewrite !solve_loop_unfold. unfold _check_convergence.
  destruct (Z.geb_spec (self_iter self) maxiter) as [Hge|Hn]; [reflexivity|].
  destruct (norm resid <=? atol); [reflexivity|].
  destruct (norm resid <=? rtol * norm (self_b self)); [reflexivity|].
  destruct (iteration callback self resid) as [[self' resid']|e] eqn:E; simpl; [|reflexivity].
  apply iteration_iter in E. destruct E as (E & _).
  apply IH; rewrite E; lia.
Qed.

(** A loop that returns has made some number of passes of the body. *)
Lemma solve_loop_iterations fuel callback maxiter atol rtol self resid warnings
    self' resid' crit warnings' :
  solve_loop fuel callback maxiter atol rtol self resid warnings
    = Ok (self', resid', crit, warnings') ->
  exists k, iterations k callback self resid = Ok (self', resid') /\
            self_iter self' = (self_iter self + Z.of_nat k)%Z.
Proof.
  revert self resid warnings.
  induction fuel as [|fuel IH]; intros self resid warnings H; [discriminate|].
  rewrite solve_loop_unfold in H.
  destruct (_check_convergence self (self_iter self) maxiter resid atol rtol)
    as [[conv c] w].
  destruct conv.
  - inversion H; subst. exists 0%nat. split; [reflexivity|lia].
  - destruct (iteration callback self resid) as [[self1 resid1]|e] eqn:E; simpl in H;
      [|discriminate].
    apply IH in H. destruct H as (k & Hk & Hi).
    exists (S k). simpl. rewrite E. simpl. split; [exact Hk|].
    apply iteration_iter in E. destruct E as (E & _). lia.
Qed.

Lemma iteration_None self resid :
  iteration None self resid =
  ('(self', resid', _) <- iteration_step self resid ;; Ok (self', resid')).
Proof.
  unfold iteration. destruct (iteration_step self resid) as [[[s r] l]|]; reflexivity.
Qed.

(** A callback does not change what an iteration returns. *)
Lemma iteration_callback callback self resid p :
  iteration callback self resid = Ok p -> iteration None self resid = Ok p.
Proof.
  unfold iteration. intros H.
  destruct (iteration_step self resid) as [[[self1 resid1] loc]|]; [|discriminate].
  cbn [bind] in *. destruct (call_callback callback self1 resid1 loc); [|discriminate].
  exact H.
Qed.

Lemma iterations_callback k : forall callback self resid p,
  iterations k callback self resid = Ok p -> iterations k None self resid = Ok p.
Proof.
  induction k as [|k IH]; intros callback self resid p H; [exact H|].
  cbn [iterations] in *.
  destruct (iteration callback self resid) as [[self1 resid1]|] eqn:E; [|discriminate].
  rewrite (iteration_callback _ _ _ _ E). cbn [bind] in *. exact (IH _ _ _ _ H).
Qed.

Lemma spec_archive_S {T : Type} (f : belief -> T) k A bs :
  spec_archive f (S k) A bs = f bs :: spec_archive f k A (spec_step A bs).
Proof.
  unfold spec_archive. cbn [seq map spec_steps]. f_equal.
  rewrite <- seq_shift, map_map. reflexivity.
Qed.

(** [k] iterations of the code are [k] steps of the specification. *)
Lemma iterations_refine k : forall n self resid A bs,
  refines n self resid A bs ->
  exists self',
    iterations k None self resid = Ok (self', bel_residual (spec_steps k A bs)) /\
    refines n self' (bel_residual (spec_steps k A bs)) A (spec_steps k A bs) /\
    self_iter self' = (self_iter self + Z.of_nat k)%Z /\
    self_S self' = self_S self ++ spec_archive spec_s k A bs /\
    self_Y self' = self_Y self ++ spec_archive (spec_y A) k A bs /\
    self_sy self' = self_sy self ++ spec_archive (spec_sy A) k A bs.
Proof.
  induction k as [|k IH]; intros n self resid A bs R.
  - exists self. cbn [iterations spec_steps].
    assert (Hr : resid = bel_residual bs) by apply R. subst resid.
    unfold spec_archive. cbn [seq map]. rewrite !app_nil_r.
    split; [reflexivity|split; [exact R|]]. repeat split. lia.
  - destruct (iteration_step_refines R) as (self1 & E & R1 & HS & HY & Hsy & Hi & _).
    destruct (IH _ _ _ _ _ R1) as (self' & E' & R' & Hi' & HS' & HY' & Hsy').
    exists self'. cbn [iterations spec_steps]. rewrite iteration_None, E.
    cbn [bind]. rewrite E'.
    split; [reflexivity|]. split; [exact R'|]. split; [lia|].
    rewrite !spec_archive_S, HS', HY', Hsy', HS, HY, Hsy, <- !app_assoc.
    repeat split.
Qed.


(** C2.  On a system of size [n] whose operators accept the vectors of
    length [n], an iteration returns, and with [Vs = A_covfactor . s],
    [delta_A = y - A_mean . s], [u_A = Vs / (s^T . Vs)] and
    [v_A = delta_A - 1/2 (s^T . delta_A) u_A] the new mean of [A] is the
    operator [A_mean + (u_A v_A^T + v_A u_A^T)] and the new covariance
    factor is [A_covfactor - u_A Vs^T]; the mean and the covariance factor
    of the inverse are updated by the same four formulas with
    [Wy = Ainv_covfactor . y] and [delta_Ainv = s - Ainv_mean . y].  The
    new solver and residual are again such a state, for the next
    iteration. *)
Theorem rank2_update_formulas (n : nat) (self : solver) (resid : vec) (A : op)
    (bs : belief) :
  refines n self resid A bs ->
  let s := vneg (bel_Ainv_mean bs resid) in
  let y := A s in
  (* the side of A *)
  let Vs := bel_A_covfactor bs s in
  let delta_A := vsub y (bel_A_mean bs s) in
  let u_A := vdiv Vs (dot s Vs) in
  let v_A := vsub delta_A (vscale (fhalf * dot s delta_A) u_A) in
  (* the side of the inverse *)
  let Wy := bel_Ainv_covfactor bs y in
  let delta_Ainv := vsub s (bel_Ainv_mean bs y) in
  let u_Ainv := vdiv Wy (dot y Wy) in
  let v_Ainv := vsub delta_Ainv (vscale (fhalf * dot y delta_Ainv) u_Ainv) in
  exists self' resid',
    iteration None self resid = Ok (self', resid') /\
    (forall callback p, iteration callback self resid = Ok p -> p = (self', resid')) /\
    denotes n (self_A_mean self')
      (fun z => vadd (bel_A_mean bs z)
                     (vadd (vscale_r u_A (dot v_A z)) (vscale_r v_A (dot u_A z)))) /\
    denotes n (self_A_covfactor self')
      (fun z => vsub (bel_A_covfactor bs z) (vscale_r u_A (dot Vs z))) /\
    denotes n (self_Ainv_mean self')
      (fun z => vadd (bel_Ainv_mean bs z)
                     (vadd (vscale_r u_Ainv (dot v_Ainv z)) (vscale_r v_Ainv (dot u_Ainv z)))) /\
    denotes n (self_Ainv_covfactor self')
      (fun z => vsub (bel_Ainv_covfactor bs z) (vscale_r u_Ainv (dot Wy z))) /\
    refines n self' resid' A (spec_step A bs).
Proof.
  intros R. cbv zeta.
  destruct (iteration_step_refines R) as (self1 & E & R1 & _).
  assert (Hr : resid = bel_residual bs) by apply R. subst resid.
  exists self1, (bel_residual (spec_step A bs)).
  assert (EN : iteration None self (bel_residual bs)
               = Ok (self1, bel_residual (spec_step A bs))).
  { rewrite iteration_None, E. reflexivity. }
  split; [exact EN|]. split.
  { intros callback p H. apply iteration_callback in H. rewrite EN in H.
    inversion H. reflexivity. }
  split; [exact (ref_A_mean R1)|]. split; [exact (ref_A_covfactor R1)|].
  split; [exact (ref_Ainv_mean R1)|]. split; [exact (ref_Ainv_covfactor R1)|exact R1].
Qed.

(** ** The output distributions *)

Lemma dot_comm (mul_comm : forall a c : scalar, a * c = c * a) (u v : vec) :
  dot u v = dot v u.
Proof.
  revert v; induction u as [|a u IH]; intros [|c v]; simpl; try reflexivity.
  rewrite IH, mul_comm. reflexivity.
Qed.

Lemma create_output_randvars_None self S Y :
  _create_output_randvars self S Y None None =
  (Wb <- matmul (self_Ainv_covfactor self) (self_b self) ;;
   bWb <- inner Wb (self_b self) ;;
   Ok ({| rv_shape := [fst (shape (self_A_mean self))];
          distribution :=
            {| mean_of := self_x self;
               cov_of := LinearOperator (shape (self_Ainv_covfactor self))
                 (fun x =>
                    Wx <- matmul (linop_scale bWb (self_Ainv_covfactor self)) x ;;
                    Wbx <- inner Wb x ;;
                    t <- broadcast fadd Wx (vscale_r Wb Wbx) ;;
                    Ok (vscale fhalf t)) |} |},
       {| rv_shape := [fst (shape (self_A_mean self)); snd (shape (self_A_mean self))];
          distribution := {| mean_of := self_A_mean self;
                             cov_of := {| kron_A := self_A_covfactor self |} |} |},
       {| rv_shape := [fst (shape (self_Ainv_mean self)); snd (shape (self_Ainv_mean self))];
          distribution := {| mean_of := self_Ainv_mean self;
                             cov_of := {| kron_A := self_Ainv_covfactor self |} |} |})).
Proof. reflexivity. Qed.

(** C5.  The distribution over [x] that [_create_output_randvars] builds
    has the current estimate [self.x] as its mean, and its covariance
    operator applied to a vector [v] is
    [1/2 ((b^T W b) (W v) + Wb (Wb^T v))] with [Wb = W b], where [W] is the
    final covariance factor of the inverse (the current factor, with the
    calibration correction when [Psi] is given).  The code computes the
    scalar as [Wb^T b]; multiplication of scalars is commutative. *)
Theorem x_distribution_mean_and_covariance
    (mul_comm : forall a c : scalar, a * c = c * a)
    (n : nat) (self : solver) (S Y : ndarray) (Phi Psi : option linop)
    (WA W : linop) (fW : op) :
  calibrated_covfactor (shape (self_A self)) (self_A_covfactor self) S Phi = Ok WA ->
  calibrated_covfactor (shape (self_A self)) (self_Ainv_covfactor self) Y Psi = Ok W ->
  denotes n W fW ->
  length (self_b self) = n ->
  exists x A Ainv,
    _create_output_randvars self S Y Phi Psi = Ok (x, A, Ainv) /\
    mean_of (distribution x) = self_x self /\
    forall v, length v = n ->
      matmul (cov_of (distribution x)) v = Ok (spec_cov_x fW (self_b self) v).
Proof.
  intros HWA HW D Hb. unfold _create_output_randvars.
  rewrite HWA, HW. cbn [bind].
  rewrite (matmul_denotes D Hb). cbn [bind].
  rewrite (inner_same (denotes_length D Hb) Hb). cbn [bind].
  do 3 eexists. split; [reflexivity|]. split; [reflexivity|].
  intros v Hv. cbn [distribution cov_of].
  unfold matmul at 1. cbn [shape matvec]. rewrite (denotes_shape D). cbn [fst snd].
  rewrite Hv, Nat.eqb_refl.
  unfold matmul at 1. cbn [shape matvec linop_scale]. rewrite (denotes_shape D). cbn [fst snd].
  rewrite Hv, Nat.eqb_refl. rewrite (matmul_denotes D Hv). cbn [bind].
  rewrite (length_vscale _ _ n (denotes_length D Hv)), Nat.eqb_refl. cbn [bind].
  rewrite (inner_same (denotes_length D Hb) Hv). cbn [bind].
  rewrite (broadcast_same (length_vscale _ _ n (denotes_length D Hv))
                          (length_vscale_r _ _ n (denotes_length D Hb))).
  cbn [bind].
  rewrite (length_vscale _ _ n), Nat.eqb_refl.
  - unfold spec_cov_x, vadd. rewrite (dot_comm mul_comm (self_b self)). reflexivity.
  - apply length_vadd; [apply length_vscale, (denotes_length D Hv)
                       |apply length_vscale_r, (denotes_length D Hb)].
Qed.

(** ** The calibration threshold *)

Lemma calibrate_uncertainty_upto_5 self :
  (self_iter self <= 5)%Z -> _calibrate_uncertainty self = Ok (None, None).
Proof.
  intros H. unfold _calibrate_uncertainty.
  destruct (Z.gtb_spec (self_iter self) 5) as [Hgt|_]; [lia|reflexivity].
Qed.

(** With more than 5 iterations and an archive that is an array of two
    axes (at least two search directions, of a length other than 1), as
    many inner products as search directions and as many of both as
    iterations, the calibration returns the two scalar multiples of the
    identity, of the shape of [A], with the scalars [mean(R_pred)] and
    [mean(1 / R_pred)]. *)
Lemma calibrate_uncertainty_above_5 self cols :
  (self_iter self > 5)%Z ->
  squeeze_T (self_S self) = Array2 cols ->
  length (self_sy self) = length cols ->
  length cols = Z.to_nat (self_iter self) ->
  let iters := arange 0 (self_iter self) in
  let logR := zipWith fsub (map flog (self_sy self)) (map flog (map (fun s => dot s s) cols)) in
  let x_mean := mean iters in
  let y_mean := mean logR in
  let beta1 :=
    vsum (zipWith fmul (map (fun i => i - x_mean) iters) (map (fun l => l - y_mean) logR))
    / vsum (map (fun i => (i - x_mean) * (i - x_mean)) iters) in
  let beta0 := y_mean - beta1 * x_mean in
  let R_pred :=
    map (fun g => fexp (g + beta0))
        (GPRegression_predict iters (map (fun l => l - beta0) logR)
           (arange (self_iter self) (Z.of_nat (fst (shape (self_A self)))))) in
  _calibrate_uncertainty self =
  Ok (Some (ScalarMult (shape (self_A self)) (mean R_pred)),
      Some (ScalarMult (shape (self_A self)) (mean (map (fun r => fofZ 1 / r) R_pred)))).
Proof.
  intros Hgt HS Hsy Hk. cbv zeta. unfold _calibrate_uncertainty.
  destruct (Z.gtb_spec (self_iter self) 5) as [_|Hle]; [|lia].
  rewrite HS. cbn [einsum_ij_ij_j bind]. unfold squeeze_sy.
  rewrite (@broadcast_same _ _ _ (length cols)); [|now rewrite length_map|now rewrite !length_map].
  cbn [bind].
  rewrite (@broadcast_same _ _ _ (length cols)).
  - reflexivity.
  - unfold arange. rewrite !length_map, length_seq. rewrite Z.sub_0_r. congruence.
  - rewrite length_map, length_zipWith; rewrite !length_map; congruence.
Qed.

Lemma squeeze_T_Array2 (s1 s2 : vec) (L : list vec) :
  length s1 <> 1%nat -> squeeze_T (s1 :: s2 :: L) = Array2 (s1 :: s2 :: L).
Proof.
  intros H. unfold squeeze_T.
  destruct (Nat.eqb_spec (length s1) 1); [contradiction|reflexivity].
Qed.

(** ** maxiter = 0 *)


(** The distributions [solve] returns are those [_create_output_randvars]
    builds from the solver object as the loop left it. *)
Lemma solve_output_built self callback maxiter atol rtol calibrate out :
  solve self callback maxiter atol rtol calibrate = Ok out ->
  exists Phi Psi,
    _create_output_randvars (out_self out) (squeeze_T (self_S (out_self out)))
      (squeeze_T (self_Y (out_self out))) Phi Psi
    = Ok (out_x out, out_A out, out_Ainv out).
Proof.
  unfold solve. intros H.
  destruct (matmul _ _) as [Ax|]; [|discriminate]. cbn [bind] in H.
  destruct (broadcast _ _ _) as [resid|]; [|discriminate]. cbn [bind] in H.
  destruct (solve_loop _ _ _ _ _ _ _ _) as [[[[self' resid'] crit] w]|]; [|discriminate].
  cbn [bind] in H. unfold finish in H.
  destruct (if calibrate then _ else _) as [[Phi Psi]|]; [|discriminate].
  cbn [bind] in H.
  destruct (_create_output_randvars self' _ _ Phi Psi) as [[[x A] Ainv]|] eqn:E;
    [|discriminate].
  cbn [bind] in H. inversion H; subst. cbn [out_self out_x out_A out_Ainv]. eauto.
Qed.

(** ** Calibration requested but skipped *)

(** C10.  For a result [out] with at most 5 iterations, [solve] with
    [calibrate=True] returns [out] exactly when [solve] with
    [calibrate=False] returns [out] on the same inputs: the same three
    distributions, the same [info], the same warnings and the same solver
    object.  The calibration returns [(None, None)] and the distributions
    are built with the same arguments. *)
Theorem calibrate_true_as_false_upto_5 (self : solver) (callback : callback_t)
    (maxiter : Z) (atol rtol : scalar) (out : solve_output) :
  (info_iter (out_info out) <= 5)%Z ->
  solve self callback maxiter atol rtol true = Ok out <->
  solve self callback maxiter atol rtol false = Ok out.
Proof.
  unfold solve. intros Hi.
  destruct (matmul _ _) as [Ax|]; [|split; discriminate]. cbn [bind].
  destruct (broadcast _ _ _) as [resid|]; [|split; discriminate]. cbn [bind].
  destruct (solve_loop _ _ _ _ _ _ _ _) as [[[[self' resid'] crit] w]|];
    [|split; discriminate].
  cbn [bind]. unfold finish.
  destruct (Z.leb_spec (self_iter self') 5) as [Hle|Hgt].
  - rewrite (calibrate_uncertainty_upto_5 _ Hle). reflexivity.
  - split; intros H.
    + destruct (_calibrate_uncertainty self') as [[Phi Psi]|]; [|discriminate].
      cbn [bind] in H.
      destruct (_create_output_randvars self' _ _ Phi Psi) as [[[x Ao] Ainv]|];
        [|discriminate].
      cbn [bind] in H. inversion H; subst. cbn [info_iter out_info] in Hi. lia.
    + cbn [bind] in H.
      destruct (_create_output_randvars self' _ _ None None) as [[[x Ao] Ainv]|];
        [|discriminate].
      cbn [bind] in H. inversion H; subst. cbn [info_iter out_info] in Hi. lia.
Qed.

(** The fuel [solve] gives its loop is enough: a larger bound changes
    nothing. *)
Lemma solve_fuel_enough fuel callback maxiter atol rtol self resid warnings :
  (Z.to_nat maxiter < fuel)%nat ->
  solve_loop (S (Z.to_nat maxiter)) callback maxiter atol rtol (set_iter self 0) resid
             warnings
  = solve_loop fuel callback maxiter atol rtol (set_iter self 0) resid warnings.
Proof.
  intros H. apply solve_loop_fuel; self_simpl; rewrite Z.sub_0_r; lia.
Qed.

End Facts.

(** * Runs in binary64 *)

Lemma inner_Ok_inv {ar : Arith} (u v : vec) c : inner u v = Ok c -> c = dot u v.
Proof. unfold inner. destruct (_ =? _)%nat; intros H; inversion H; reflexivity. Qed.

(** C8.  The step size is the quotient [- (s^T . residual) / (s^T . y)]
    whatever the value of [sy]: an iteration that returns has computed
    it, and on a system whose operators accept the vectors the iteration
    returns for every value of [sy], no branch of the code looks at it.
    The denominator can be zero when the division is reached: on the
    symmetric indefinite system above the first convergence check does not
    stop the loop, the first search direction and observation are
    [[-6; 6]] and [[-6; -6]], [sy] is 0, and the step size is
    [36 / 0 = infinity]; the iteration returns, with a residual that is
    no longer finite. *)
Theorem step_size_division_is_unguarded :
  (forall (ar : Arith) (self : solver) (resid : vec) self' resid' s y alpha,
     iteration_step self resid = Ok (self', resid', (s, y, alpha)) ->
     alpha = fdiv (fneg (dot s resid)) (dot s y)) /\
  (forall (ar : Arith) (n : nat) (self : solver) (resid : vec) (A : op) (bs : belief),
     refines n self resid A bs ->
     exists self' resid' s y,
       iteration_step self resid
         = Ok (self', resid', (s, y, fdiv (fneg (dot s resid)) (dot s y)))) /\
  (exists self resid0 self' ,
     system_indefinite = Ok self /\
     bind (matmul (self_A self) (self_x self))
          (fun Ax => broadcast fsub Ax (self_b self)) = Ok resid0 /\
     _check_convergence self 0 2 resid0 0%float 0%float = ((false, EmptyString), []) /\
     iteration_step self resid0 =
       Ok (self', [neg_infinity; neg_infinity],
           ([(-6)%float; 6%float], [(-6)%float; (-6)%float], infinity)) /\
     @dot binary64 [(-6)%float; 6%float] [(-6)%float; (-6)%float] = 0%float).
Proof.
  split; [|split].
  - intros ar self resid self' resid' s y alpha H.
    unfold iteration_step in H.
    inv_bind H. inv_bind H. inv_bind H. inv_bind H.
    repeat inv_bind H. inversion H; subst.
    apply inner_Ok_inv in E1, E2. subst. reflexivity.
  - intros ar n self resid A bs R.
    destruct (iteration_step_refines R) as (self' & E & _).
    assert (Hr : resid = bel_residual bs) by apply R. subst resid.
    do 4 eexists. exact E.
  - do 3 eexists. split; [reflexivity|]. split; [vm_compute; reflexivity|].
    split; [vm_compute; reflexivity|]. split; [vm_compute; reflexivity|reflexivity].
Qed.

(** A residual that is [nan] meets no tolerance: the check goes on to the
    next iteration until [maxiter] stops the loop. *)
Example check_convergence_nan :
  _check_convergence scenario_A_solver 3 6 [nan; nan] 0%float 0%float
    = ((false, EmptyString), []) /\
  _check_convergence scenario_A_solver 6 6 [nan; nan] 0%float 0%float
    = ((true, "maxiter"%string), [maxiter_warning]).
Proof. split; vm_compute; reflexivity. Qed.

(** ** Shapes *)

(** C9, as the code has it.  The constructor applies [Ainv_mean] to [b]
    and does nothing else: it never looks at [A], and it returns or raises
    as that application does.  An operator [A] that does not fit is
    rejected by [solve], when it forms the initial residual [A @ x - b]
    before the first convergence check: if the number of columns of [A] is
    not the length of [x], or if the length of [A @ x] is not the length of
    [b] and neither of the two is 1. *)
Theorem shape_mismatch_detected_by_solve {ar : Arith} {cap : Capabilities}
    (A : linop) (b : vec) (A_mean A_covfactor Ainv_mean Ainv_covfactor : linop) :
  (forall x, matmul Ainv_mean b = Ok x ->
     exists self,
       __init__ A b A_mean A_covfactor Ainv_mean Ainv_covfactor = Ok self /\
       self_A self = A /\ self_b self = b /\ self_x self = x) /\
  (forall e, matmul Ainv_mean b = Raise e ->
     __init__ A b A_mean A_covfactor Ainv_mean Ainv_covfactor = Raise e) /\
  (snd (shape Ainv_mean) <> length b ->
     __init__ A b A_mean A_covfactor Ainv_mean Ainv_covfactor
       = Raise (ValueError "dimension mismatch"%string)) /\
  (forall self callback maxiter atol rtol calibrate,
     snd (shape (self_A self)) <> length (self_x self) ->
     solve self callback maxiter atol rtol calibrate
       = Raise (ValueError "dimension mismatch"%string)) /\
  (forall self callback maxiter atol rtol calibrate Ax,
     matmul (self_A self) (self_x self) = Ok Ax ->
     length Ax <> length (self_b self) -> length Ax <> 1%nat ->
     length (self_b self) <> 1%nat ->
     solve self callback maxiter atol rtol calibrate
       = Raise (ValueError "operands could not be broadcast together"%string)).
Proof.
  repeat split.
  - intros x E. unfold __init__. rewrite E. cbn [bind].
    eexists; repeat split; reflexivity.
  - intros e E. unfold __init__. rewrite E. reflexivity.
  - intros H. unfold __init__, matmul.
    destruct (Nat.eqb_spec (length b) (snd (shape Ainv_mean))); [congruence|reflexivity].
  - intros self callback maxiter atol rtol calibrate H. unfold solve. self_simpl.
    unfold matmul.
    destruct (Nat.eqb_spec (length (self_x self)) (snd (shape (self_A self))));
      [congruence|reflexivity].
  - intros self callback maxiter atol rtol calibrate Ax E H1 H2 H3.
    unfold solve. self_simpl. rewrite E. cbn [bind]. unfold broadcast.
    destruct (Nat.eqb_spec (length Ax) (length (self_b self))); [congruence|].
    destruct (Nat.eqb_spec (length Ax) 1); [congruence|].
    destruct (Nat.eqb_spec (length (self_b self)) 1); [congruence|reflexivity].
Qed.

(** The claim C9 as the specification states it does not hold.  An
    identity of size 3 with a right-hand side of length 2 is accepted by the
    constructor, and it is [solve] that raises.  An operator of shape
    (1,2) with a right-hand side of length 2 is accepted by the constructor
    and passes the initialisation of [solve], because the residual
    broadcasts; the loop is entered and the first iteration raises. *)
Lemma shape_mismatch_passes_construction :
  (exists self,
     system_3x3_b2 = Ok self /\
     shape (self_A self) = (3, 3)%nat /\ length (self_b self) = 2%nat /\
     run system_3x3_b2 2 0%float 0%float false
       = Raise (ValueError "dimension mismatch"%string)) /\
  (exists self resid0,
     system_1x2_b2 = Ok self /\
     shape (self_A self) = (1, 2)%nat /\ length (self_b self) = 2%nat /\
     bind (matmul (self_A self) (self_x self))
          (fun Ax => broadcast fsub Ax (self_b self)) = Ok resid0 /\
     _check_convergence self 0 2 resid0 0%float 0%float = ((false, EmptyString), []) /\
     @iteration binary64 no_capabilities None self resid0
       = Raise (ValueError "matmul: dimension mismatch"%string) /\
     run system_1x2_b2 2 0%float 0%float false
       = Raise (ValueError "matmul: dimension mismatch"%string)).
Proof.
  split.
  - eexists. split; [reflexivity|]. repeat split; vm_compute; reflexivity.
  - do 2 eexists. split; [reflexivity|]. split; [reflexivity|]. split; [reflexivity|].
    split; [vm_compute; reflexivity|]. repeat split; vm_compute; reflexivity.
Qed.

(** ** Calibration *)


(** ** The covariance factors in binary64 *)

(** The claim C3 as the specification states it does not hold: a
    denominator of the update can be zero, and the factor is then [nan].
    On the system with the singular prior factor, where every number of
    the first iteration is exact in binary64, the first search direction
    is [[-0; -2]], [A_covfactor . s] is 0, the update divides 0 by 0, and
    after one iteration [A_covfactor] returns [nan] on the probe vectors
    [[1; 0]] and [[0; 1]].  On the system [49 x = 1] with identity priors
    and the tolerances at 0, the first iteration leaves a residual of
    [7.1e-15]; in the second iteration [A_covfactor . s] is exactly 0, and
    after it both covariance factors return [nan] on the probe vector
    [[1]].  [z^T (W z)] is [nan], which is not above [-1]. *)
Lemma covfactor_nan_after_update :
  (exists out,
     run system_singular_prior 1 0%float 0%float false = Ok out /\
     info_iter (out_info out) = 1%Z /\
     self_S (out_self out) = [[(-0)%float; (-2)%float]] /\
     bind (matmul (self_A_covfactor (out_self out)) [1%float; 0%float])
          (fun Wz => Ok (@dot binary64 [1%float; 0%float] Wz)) = Ok nan /\
     bind (matmul (self_A_covfactor (out_self out)) [0%float; 1%float])
          (fun Wz => Ok (@dot binary64 [0%float; 1%float] Wz)) = Ok nan) /\
  (exists out,
     run system_49 2 0%float 0%float false = Ok out /\
     info_iter (out_info out) = 2%Z /\
     bind (matmul (self_A_covfactor (out_self out)) [1%float])
          (fun Wz => Ok (@dot binary64 [1%float] Wz)) = Ok nan /\
     bind (matmul (self_Ainv_covfactor (out_self out)) [1%float])
          (fun Wz => Ok (@dot binary64 [1%float] Wz)) = Ok nan) /\
  @fle binary64 (-1)%float nan = false.
Proof.
  split; [|split].
  - eexists. split; [vm_compute; reflexivity|]. repeat split; vm_compute; reflexivity.
  - eexists. split; [vm_compute; reflexivity|]. repeat split; vm_compute; reflexivity.
  - reflexivity.
Qed.

(** * Exact arithmetic: the covariance factors *)

Ltac qsimpl :=
  cbn [dot zipWith map vadd vsub vscale vscale_r vdiv vneg
       scalar fzero fhalf fadd fsub fmul fdiv fneg exactQ] in *.

Section ExactArithmetic.

Context {sq lg ex : Q -> Q} {cap : @Capabilities (exactQ sq lg ex)}.
Local Abbreviation QA := (exactQ sq lg ex).
Local Open Scope Q_scope.

Lemma dotQ_comm (u v : list Q) : dot (ar:=QA) u v == dot (ar:=QA) v u.
Proof.
  revert v; induction u as [|a u IH]; intros [|c v]; qsimpl; try reflexivity.
  rewrite IH. ring.
Qed.

Lemma dotQ_vsub_r (u v w : list Q) :
  length v = length w ->
  dot (ar:=QA) u (vsub (ar:=QA) v w) == dot (ar:=QA) u v - dot (ar:=QA) u w.
Proof.
  unfold vsub.
  revert v w; induction u as [|a u IH]; intros [|c v] [|d w]; qsimpl; try discriminate;
    intros H; try ring.
  injection H as H. rewrite (IH _ _ H). ring.
Qed.

Lemma dotQ_vscale_r (u v : list Q) c :
  dot (ar:=QA) u (vscale_r (ar:=QA) v c) == dot (ar:=QA) u v * c.
Proof.
  unfold vscale_r.
  revert v; induction u as [|a u IH]; intros [|d v]; qsimpl; try ring.
  rewrite IH. ring.
Qed.

Lemma dotQ_vdiv (u v : list Q) c :
  dot (ar:=QA) u (vdiv (ar:=QA) v c) == dot (ar:=QA) u v / c.
Proof.
  unfold vdiv.
  revert v; induction u as [|a u IH]; intros [|d v]; qsimpl; unfold Qdiv; try ring.
  rewrite IH. unfold Qdiv. ring.
Qed.

(** The bilinear form of the downdated operator [W - u Vs^T]. *)
Lemma downdate_form n (W : @op QA) (s z w : list Q) :
  spsd n W -> length s = n -> length z = n -> length w = n ->
  dot (ar:=QA) z (spec_cov_update W (rank2_u W s) (W s) w)
  == dot (ar:=QA) z (W w)
     - dot (ar:=QA) z (W s) * dot (ar:=QA) w (W s) / dot (ar:=QA) s (W s).
Proof.
  intros H Hs Hz Hw. unfold spec_cov_update, rank2_u.
  rewrite dotQ_vsub_r.
  2:{ transitivity n; [apply (spsd_length H w Hw)|symmetry].
      apply (length_vscale_r (ar:=QA)), (length_vdiv (ar:=QA)), (spsd_length H s Hs). }
  rewrite dotQ_vscale_r, dotQ_vdiv.
  rewrite (dotQ_comm (W s) w). unfold Qdiv. ring.
Qed.

Lemma length_axpy n (z s : list Q) t :
  length z = n -> length s = n ->
  length (vadd (ar:=QA) z (vscale (ar:=QA) t s)) = n.
Proof.
  intros Hz Hs.
  apply (length_vadd (ar:=QA)); [assumption|apply (length_vscale (ar:=QA)); assumption].
Qed.

Lemma spsd_linear_l n (W : @op QA) : spsd n W -> forall z1 z2 w c,
  length z1 = n -> length z2 = n -> length w = n ->
  dot (ar:=QA) (vadd (ar:=QA) z1 (vscale (ar:=QA) c z2)) (W w)
  == dot (ar:=QA) z1 (W w) + c * dot (ar:=QA) z2 (W w).
Proof.
  intros H z1 z2 w c H1 H2 Hw.
  rewrite (spsd_sym H _ _ (length_axpy n z1 z2 c H1 H2) Hw).
  rewrite (spsd_linear H w z1 z2 c Hw H1 H2).
  rewrite (spsd_sym H w z1 Hw H1), (spsd_sym H w z2 Hw H2). reflexivity.
Qed.

(** The inequality of Cauchy and Schwarz, in the form the downdate needs. *)
Lemma spsd_schur n (W : @op QA) s z :
  spsd n W -> length s = n -> length z = n -> ~ dot (ar:=QA) s (W s) == 0 ->
  0 <= dot (ar:=QA) z (W z)
       - dot (ar:=QA) z (W s) * dot (ar:=QA) z (W s) / dot (ar:=QA) s (W s).
Proof.
  intros H Hs Hz Hd.
  set (d := dot (ar:=QA) s (W s)) in *. set (c := dot (ar:=QA) z (W s)).
  set (t := - c / d).
  pose proof (spsd_psd H _ (length_axpy n z s t Hz Hs)) as P.
  rewrite (spsd_linear H _ z s t (length_axpy n z s t Hz Hs) Hz Hs) in P.
  rewrite (spsd_linear_l n W H z s z t Hz Hs Hz) in P.
  rewrite (spsd_linear_l n W H z s s t Hz Hs Hs) in P.
  rewrite (spsd_sym H s z Hs Hz) in P.
  fold d in P. fold c in P.
  assert (E : dot (ar:=QA) z (W z) + t * c + t * (c + t * d)
              == dot (ar:=QA) z (W z) - c * c / d).
  { unfold t. field. exact Hd. }
  rewrite E in P. exact P.
Qed.

(** The rank-1 downdate of the code keeps an operator symmetric positive
    semi-definite when its denominator is not zero. *)
Lemma downdate_spsd n (W : @op QA) s :
  spsd n W -> length s = n -> ~ dot (ar:=QA) s (W s) == 0 ->
  spsd n (spec_cov_update W (rank2_u W s) (W s)).
Proof.
  intros H Hs Hd. constructor.
  - intros z Hz. unfold spec_cov_update, rank2_u.
    apply (length_vsub (ar:=QA)); [apply (spsd_length H z Hz)|].
    apply (length_vscale_r (ar:=QA)), (length_vdiv (ar:=QA)), (spsd_length H s Hs).
  - intros z w Hz Hw.
    rewrite (downdate_form n W s z w H Hs Hz Hw), (downdate_form n W s w z H Hs Hw Hz).
    rewrite (spsd_sym H z w Hz Hw). unfold Qdiv. ring.
  - intros z w1 w2 c Hz H1 H2.
    rewrite (downdate_form n W s z _ H Hs Hz (length_axpy n w1 w2 c H1 H2)).
    rewrite (downdate_form n W s z w1 H Hs Hz H1), (downdate_form n W s z w2 H Hs Hz H2).
    rewrite (spsd_linear H z w1 w2 c Hz H1 H2).
    rewrite (spsd_linear_l n W H w1 w2 s c H1 H2 Hs). unfold Qdiv. ring.
  - intros z Hz. rewrite (downdate_form n W s z z H Hs Hz Hz).
    apply (spsd_schur n); assumption.
Qed.

Lemma spsd_symmetric_psd n (W : @linop QA) f :
  denotes n W f -> spsd n f -> symmetric_psd n W.
Proof.
  intros D H z w Hz Hw. exists (f z), (f w).
  rewrite (matmul_denotes D Hz), (matmul_denotes D Hw).
  repeat split; [apply (spsd_psd H z Hz)|apply (spsd_sym H z w Hz Hw)].
Qed.

(** The invariant along [k] iterations. *)
Lemma iterations_spsd k : forall n (self : @solver QA) resid A bs,
  refines n self resid A bs ->
  spsd n (bel_A_covfactor bs) -> spsd n (bel_Ainv_covfactor bs) ->
  nondegenerate k A bs ->
  exists self',
    iterations k None self resid = Ok (self', bel_residual (spec_steps k A bs)) /\
    refines n self' (bel_residual (spec_steps k A bs)) A (spec_steps k A bs) /\
    spsd n (bel_A_covfactor (spec_steps k A bs)) /\
    spsd n (bel_Ainv_covfactor (spec_steps k A bs)).
Proof.
  induction k as [|k IH]; intros n self resid A bs R HAc HHc Hnd.
  - exists self. cbn [iterations spec_steps].
    assert (Hr : resid = bel_residual bs) by apply R. subst resid.
    split; [reflexivity|]. split; [exact R|]. split; assumption.
  - destruct Hnd as (_ & Hd1 & Hd2 & Hnd).
    destruct (iteration_step_refines R) as (self1 & E & R1 & _).
    assert (Hs : length (spec_s bs) = n).
    { unfold spec_s. apply (length_vneg (ar:=QA)).
      apply (denotes_length (ref_Ainv_mean R)).
      rewrite <- (ref_resid R). apply (ref_len_resid R). }
    assert (Hy : length (spec_y A bs) = n) by apply (denotes_length (ref_A R) Hs).
    destruct (IH n self1 _ A (spec_step A bs) R1) as (self' & E' & R' & P1 & P2).
    + apply (downdate_spsd n _ _ HAc Hs Hd1).
    + apply (downdate_spsd n _ _ HHc Hy Hd2).
    + exact Hnd.
    + exists self'. cbn [iterations spec_steps]. rewrite iteration_None, E.
      cbn [bind]. rewrite E'.
      split; [reflexivity|]. split; [exact R'|]. split; assumption.
Qed.

(** C3, as the code has it.  In exact arithmetic, on a system of size [n]
    whose covariance factors [A_covfactor] and [Ainv_covfactor] are
    symmetric positive semi-definite linear operators: [k] iterations in
    which no denominator is zero return, and after them both covariance
    factors are again symmetric positive semi-definite, that is, applied to
    probe vectors [z] and [w] they return, [z^T (W z) >= 0] and
    [z^T (W w) = w^T (W z)]; and so are the factors the loop of [solve]
    leaves, whatever the callback and the tolerances, when no denominator
    is zero in the iterations it has made. *)
Theorem covfactors_remain_spsd (n : nat) (self : @solver QA) (resid : list Q)
    (A : @op QA) (bs : @belief QA) :
  refines n self resid A bs ->
  spsd n (bel_A_covfactor bs) -> spsd n (bel_Ainv_covfactor bs) ->
  (forall k, nondegenerate k A bs ->
     exists self' resid',
       iterations k None self resid = Ok (self', resid') /\
       self_iter self' = (self_iter self + Z.of_nat k)%Z /\
       symmetric_psd n (self_A_covfactor self') /\
       symmetric_psd n (self_Ainv_covfactor self')) /\
  (forall fuel callback maxiter atol rtol warnings self' resid' crit warnings',
     solve_loop fuel callback maxiter atol rtol self resid warnings
       = Ok (self', resid', crit, warnings') ->
     nondegenerate (Z.to_nat (self_iter self' - self_iter self)) A bs ->
     symmetric_psd n (self_A_covfactor self') /\
     symmetric_psd n (self_Ainv_covfactor self')).
Proof.
  intros R HAc HHc.
  assert (K : forall k, nondegenerate k A bs ->
     exists self',
       iterations k None self resid = Ok (self', bel_residual (spec_steps k A bs)) /\
       self_iter self' = (self_iter self + Z.of_nat k)%Z /\
       symmetric_psd n (self_A_covfactor self') /\
       symmetric_psd n (self_Ainv_covfactor self')).
  { intros k Hnd.
    destruct (iterations_spsd k n self resid A bs R HAc HHc Hnd)
      as (self' & E & R' & P1 & P2).
    destruct (iterations_refine k n self resid A bs R) as (self'' & E'' & _ & Hi & _).
    rewrite E in E''. inversion E''; subst self''.
    exists self'. split; [exact E|]. split; [exact Hi|]. split.
    - apply (spsd_symmetric_psd n _ _ (ref_A_covfactor R') P1).
    - apply (spsd_symmetric_psd n _ _ (ref_Ainv_covfactor R') P2). }
  split.
  - intros k Hnd. destruct (K k Hnd) as (self' & E & H).
    exists self', (bel_residual (spec_steps k A bs)). split; [exact E|exact H].
  - intros fuel callback maxiter atol rtol warnings self' resid' crit warnings' H Hnd.
    apply solve_loop_iterations in H. destruct H as (k & E & Hi).
    apply iterations_callback in E.
    replace (Z.to_nat (self_iter self' - self_iter self)) with k in Hnd by lia.
    destruct (K k Hnd) as (self'' & E'' & _ & P1 & P2).
    rewrite E in E''. inversion E''; subst self''. split; assumption.
Qed.

End ExactArithmetic.

(** * Scenario A of the specification *)

Lemma denotes_MatrixMult {ar : Arith} (n : nat) (rows : list vec) :
  length rows = n -> length (hd [] rows) = n -> denotes n (MatrixMult rows) (rows_op rows).
Proof.
  intros Hr Hc. split.
  - unfold MatrixMult. cbn [shape]. congruence.
  - intros v _. split; [reflexivity|]. unfold rows_op. rewrite length_map. exact Hr.
Qed.

Lemma Qmult_comm_eq (a c : Q) : (a * c)%Q = (c * a)%Q.
Proof.
  destruct a as [an ad], c as [cn cd]. unfold Qmult. cbn [Qnum Qden].
  f_equal; [apply Z.mul_comm|apply Pos.mul_comm].
Qed.

Lemma scenario_A_refines :
  refines 2 scenario_A_solver_Q scenario_A_resid_Q
          (@rows_op rationals scenario_A_rows_Q) scenario_A_belief_Q.
Proof.
  constructor; try reflexivity;
    apply (denotes_MatrixMult (ar:=rationals) 2); reflexivity.
Qed.

Lemma spsd_eye2 : spsd 2 (@rows_op rationals eye2_rows_Q).
Proof.
  constructor.
  - intros z _. reflexivity.
  - intros [|z1 [|z2 [|]]] [|w1 [|w2 [|]]]; try discriminate. intros _ _.
    unfold rows_op, eye2_rows_Q, rationals. qsimpl. ring.
  - intros [|z1 [|z2 [|]]] [|w1 [|w2 [|]]] [|v1 [|v2 [|]]] c; try discriminate.
    intros _ _ _. unfold rows_op, eye2_rows_Q, rationals. qsimpl. ring.
  - intros [|z1 [|z2 [|]]]; try discriminate. intros _.
    unfold rows_op, eye2_rows_Q, rationals. qsimpl. nra.
Qed.

Lemma scenario_A_nondegenerate :
  nondegenerate 2 (@rows_op rationals scenario_A_rows_Q) scenario_A_belief_Q.
Proof.
  cbn [nondegenerate].
  repeat split; try (intros H; vm_compute in H; discriminate H).
Qed.


(** C2 on the first iteration of scenario A, in exact arithmetic. *)
Lemma rank2_update_formulas_witness :
  refines 2 scenario_A_solver_Q scenario_A_resid_Q
          (@rows_op rationals scenario_A_rows_Q) scenario_A_belief_Q /\
  exists self' resid',
    @iteration rationals no_capabilities_Q None scenario_A_solver_Q scenario_A_resid_Q
      = Ok (self', resid') /\
    denotes 2 (self_A_covfactor self')
      (bel_A_covfactor (spec_step (@rows_op rationals scenario_A_rows_Q)
                                  scenario_A_belief_Q)).
Proof.
  split; [exact scenario_A_refines|].
  destruct (@rank2_update_formulas rationals no_capabilities_Q 2 _ _ _ _ scenario_A_refines)
    as (self' & resid' & E & _ & _ & D & _).
  exists self', resid'. split; [exact E|exact D].
Defined.

(** C3 on two iterations of scenario A, in exact arithmetic. *)
Lemma covfactors_remain_spsd_witness :
  exists self' resid',
    @iterations rationals no_capabilities_Q 2 None scenario_A_solver_Q scenario_A_resid_Q
      = Ok (self', resid') /\
    self_iter self' = 2%Z /\
    symmetric_psd 2 (self_A_covfactor self') /\
    symmetric_psd 2 (self_Ainv_covfactor self').
Proof.
  exact (proj1 (@covfactors_remain_spsd _ _ _ no_capabilities_Q 2 _ _ _ _
                  scenario_A_refines spsd_eye2 spsd_eye2) 2%nat scenario_A_nondegenerate).
Defined.

(** C5 on the distribution over [x] of scenario A before any iteration, in
    exact arithmetic. *)
Lemma x_distribution_mean_and_covariance_witness :
  exists x A Ainv,
    @_create_output_randvars rationals no_capabilities_Q scenario_A_solver_Q
      (Array1 []) (Array1 []) None None = Ok (x, A, Ainv) /\
    mean_of (distribution x) = [1%Q; 2%Q] /\
    forall v, length v = 2%nat ->
      matmul (cov_of (distribution x)) v
      = Ok (@spec_cov_x rationals (@rows_op rationals eye2_rows_Q) [1%Q; 2%Q] v).
Proof.
  destruct (@x_distribution_mean_and_covariance rationals no_capabilities_Q Qmult_comm_eq
              2 scenario_A_solver_Q (Array1 []) (Array1 []) None None _ _ _
              eq_refl eq_refl
              (denotes_MatrixMult (ar:=rationals) 2 eye2_rows_Q eq_refl eq_refl) eq_refl)
    as (x & A & Ainv & E & Hm & Hc).
  exists x, A, Ainv. split; [exact E|]. split; [|exact Hc].
  rewrite Hm. vm_compute. reflexivity.
Defined.


(** C10 on scenario A with [maxiter = 2], in binary64. *)
Lemma calibrate_true_as_false_upto_5_witness :
  exists out,
    @solve binary64 no_capabilities scenario_A_solver None 2 0%float 0%float false = Ok out /\
    info_iter (out_info out) = 2%Z /\
    @solve binary64 no_capabilities scenario_A_solver None 2 0%float 0%float true = Ok out.
Proof.
  eexists. split; [vm_compute; reflexivity|]. split; [reflexivity|].
  apply calibrate_true_as_false_upto_5; [cbn [info_iter out_info]; lia|].
  vm_compute. reflexivity.
Defined.

(** * The loop of [solve]: what a call reports *)

Section MoreFacts.
Context {ar : Arith} {cap : Capabilities}.
Local Open Scope num_scope.
Local Open Scope result_scope.

(** What the convergence check has found when it says that the loop goes on,
    and when it says that it stops. *)
Lemma check_convergence_false self iter maxiter resid atol rtol c w :
  _check_convergence self iter maxiter resid atol rtol = ((false, c), w) ->
  c = EmptyString /\ w = [] /\ (iter < maxiter)%Z.
Proof.
  unfold _check_convergence.
  destruct (Z.geb_spec iter maxiter) as [Hge|Hlt]; [discriminate|].
  destruct (norm resid <=? atol); [discriminate|].
  destruct (norm resid <=? rtol * norm (self_b self)); [discriminate|].
  intros H. inversion H. auto.
Qed.


Lemma iteration_step_archive self resid self' resid' loc :
  iteration_step self resid = Ok (self', resid', loc) ->
  length (self_S self') = S (length (self_S self)) /\
  length (self_Y self') = S (length (self_Y self)) /\
  length (self_sy self') = S (length (self_sy self)).
Proof.
  unfold iteration_step. intros H.
  repeat inv_bind H. inversion H; subst. self_simpl.
  rewrite !length_app. cbn [length]. lia.
Qed.

Lemma iteration_archive callback self resid self' resid' :
  iteration callback self resid = Ok (self', resid') ->
  length (self_S self') = S (length (self_S self)) /\
  length (self_Y self') = S (length (self_Y self)) /\
  length (self_sy self') = S (length (self_sy self)).
Proof.
  unfold iteration. intros H. inv_bind H. destruct t as [[s1 r1] loc].
  inv_bind H. inversion H; subst. eapply iteration_step_archive; eauto.
Qed.

(** The loop, when it returns. *)
Lemma solve_loop_exit fuel callback maxiter atol rtol : forall self resid warnings
    self' resid' crit warnings',
  solve_loop fuel callback maxiter atol rtol self resid warnings
    = Ok (self', resid', crit, warnings') ->
  (exists w, _check_convergence self' (self_iter self') maxiter resid' atol rtol
               = ((true, crit), w) /\ warnings' = warnings ++ w) /\
  (self_iter self <= self_iter self' <= Z.max (self_iter self) maxiter)%Z /\
  length (self_S self') = (length (self_S self) + Z.to_nat (self_iter self' - self_iter self))%nat /\
  length (self_Y self') = (length (self_Y self) + Z.to_nat (self_iter self' - self_iter self))%nat /\
  length (self_sy self') = (length (self_sy self) + Z.to_nat (self_iter self' - self_iter self))%nat /\
  self_A self' = self_A self /\ self_b self' = self_b self.
Proof.
  induction fuel as [|fuel IH]; intros self resid warnings self' resid' crit warnings' H;
    [discriminate|].
  rewrite solve_loop_unfold in H.
  destruct (_check_convergence self (self_iter self) maxiter resid atol rtol)
    as [[conv c] w] eqn:Ec.
  destruct conv.
  - inversion H; subst. split; [eauto|]. rewrite Z.sub_diag. cbn [Z.to_nat].
    rewrite !Nat.add_0_r. repeat split; lia.
  - apply check_convergence_false in Ec. destruct Ec as (_ & -> & Hlt).
    rewrite app_nil_r in H.
    destruct (iteration callback self resid) as [[self1 resid1]|e] eqn:E; [|discriminate].
    cbn [bind] in H. apply IH in H.
    destruct (iteration_iter _ _ _ _ _ E) as (Hi & Hb & HA).
    destruct (iteration_archive _ _ _ _ _ E) as (HS & HY & Hsy).
    destruct H as (Hex & Hbound & HS' & HY' & Hsy' & HA' & Hb').
    split; [exact Hex|]. split; [lia|].
    rewrite HS', HY', Hsy', HS, HY, Hsy, HA', Hb', HA, Hb.
    repeat split; lia.
Qed.

(** What a call of [solve] that returns has gone through. *)
Lemma solve_Ok_inv self callback maxiter atol rtol calibrate out :
  solve self callback maxiter atol rtol calibrate = Ok out ->
  exists Ax resid self' resid' crit w,
    matmul (self_A self) (self_x self) = Ok Ax /\
    broadcast fsub Ax (self_b self) = Ok resid /\
    solve_loop (S (Z.to_nat maxiter)) callback maxiter atol rtol (set_iter self 0) resid []
      = Ok (self', resid', crit, w) /\
    out_self out = self' /\ out_warnings out = w /\
    out_info out = {| info_iter := self_iter self'; info_maxiter := maxiter;
                      info_resid_l2norm := norm resid'; info_conv_crit := crit;
                      info_matrix_cond := None |}.
Proof.
  unfold solve. self_simpl. intros H.
  destruct (matmul _ _) as [Ax|] eqn:EA; [|discriminate]. cbn [bind] in H.
  destruct (broadcast _ _ _) as [resid|] eqn:ER; [|discriminate]. cbn [bind] in H.
  destruct (solve_loop _ _ _ _ _ _ _ _) as [[[[self' resid'] crit] w]|] eqn:E; [|discriminate].
  cbn [bind] in H. unfold finish in H.
  destruct (if calibrate then _ else _) as [[Phi Psi]|]; [|discriminate].
  cbn [bind] in H.
  destruct (_create_output_randvars self' _ _ Phi Psi) as [[[x A] Ainv]|];
    [|discriminate].
  cbn [bind] in H. inversion H; subst. cbn [out_self out_warnings out_info].
  exists Ax, resid, self', resid', crit, w.
  split; [reflexivity|]. split; [exact ER|]. split; [exact E|]. repeat split.
Qed.


(** X2.  Whenever [solve] returns, the number of iterations of [info]
    is the counter [iter_] of the solver object and lies between 0 and
    [max(0, maxiter)]; each of the three lists of the archive, [S], [Y] and
    [sy], has grown by exactly that many entries (on a freshly constructed
    solver it has that many; a second call of [solve] adds to the archive
    of the first, while the counter starts again from 0); and [A] and [b]
    of the solver object are what they were before the call. *)
Theorem solve_counts_its_iterations (self : solver) (callback : callback_t)
    (maxiter : Z) (atol rtol : scalar) (calibrate : bool) (out : solve_output) :
  solve self callback maxiter atol rtol calibrate = Ok out ->
  let k := info_iter (out_info out) in
  (0 <= k <= Z.max 0 maxiter)%Z /\
  self_iter (out_self out) = k /\
  length (self_S (out_self out)) = (length (self_S self) + Z.to_nat k)%nat /\
  length (self_Y (out_self out)) = (length (self_Y self) + Z.to_nat k)%nat /\
  length (self_sy (out_self out)) = (length (self_sy self) + Z.to_nat k)%nat /\
  self_A (out_self out) = self_A self /\ self_b (out_self out) = self_b self.
Proof.
  intros H. apply solve_Ok_inv in H.
  destruct H as (Ax & resid & self' & resid' & crit & w & _ & _ & HL & Hs & _ & Hi).
  apply solve_loop_exit in HL. revert HL. self_simpl. rewrite Z.sub_0_r.
  intros (_ & Hb & HS & HY & Hsy & HA & Hb').
  cbn zeta. rewrite Hi, Hs. cbn [info_iter]. repeat split; try assumption; lia.
Qed.

(** The distributions without calibration, on a well-shaped solver. *)
Lemma create_output_randvars_refines {n self resid A bs} S Y :
  refines n self resid A bs -> length (self_b self) = n ->
  exists x,
    _create_output_randvars self S Y None None =
      Ok (x,
          {| rv_shape := [fst (shape (self_A_mean self)); snd (shape (self_A_mean self))];
             distribution := {| mean_of := self_A_mean self;
                                cov_of := {| kron_A := self_A_covfactor self |} |} |},
          {| rv_shape := [fst (shape (self_Ainv_mean self)); snd (shape (self_Ainv_mean self))];
             distribution := {| mean_of := self_Ainv_mean self;
                                cov_of := {| kron_A := self_Ainv_covfactor self |} |} |}) /\
    mean_of (distribution x) = self_x self.
Proof.
  intros R Hb. rewrite create_output_randvars_None.
  rewrite (matmul_denotes (ref_Ainv_covfactor R) Hb). cbn [bind].
  rewrite (inner_same (denotes_length (ref_Ainv_covfactor R) Hb) Hb). cbn [bind].
  eexists. split; reflexivity.
Qed.

(** X3.  On a system of size [n] whose operators accept vectors of
    length [n], a pass of the loop with a callback is the pass without one
    followed by one call of the callback.  The callback is given the
    distribution over [x] with the updated estimate as its mean, the
    updated means of [A] and [Ainv] with their updated covariance factors
    (without calibration), the search direction, the observation and the
    step size of this iteration, and the updated residual; the estimate
    and the residual have moved by the step size along the direction and
    the observation.  What the callback raises, the iteration raises. *)
Theorem callback_sees_the_updated_belief (n : nat) (self : solver) (resid : vec)
    (A : op) (bs : belief) (cb : callback_args -> result unit) :
  refines n self resid A bs -> length (self_b self) = n ->
  exists self' resid' args,
    iteration None self resid = Ok (self', resid') /\
    iteration (Some cb) self resid = (_ <- cb args ;; Ok (self', resid')) /\
    mean_of (distribution (xk args)) = self_x self' /\
    mean_of (distribution (Ak args)) = self_A_mean self' /\
    kron_A (cov_of (distribution (Ak args))) = self_A_covfactor self' /\
    mean_of (distribution (Ainvk args)) = self_Ainv_mean self' /\
    kron_A (cov_of (distribution (Ainvk args))) = self_Ainv_covfactor self' /\
    sk args = spec_s bs /\ yk args = spec_y A bs /\ alphak args = spec_alpha A bs /\
    resid_k args = resid' /\
    self_x self' = vadd (self_x self) (vscale (alphak args) (sk args)) /\
    resid' = vadd resid (vscale (alphak args) (yk args)).
Proof.
  intros R Hb.
  destruct (iteration_step_refines R) as (self1 & E & R1 & _ & _ & _ & _ & Hb1).
  rewrite <- Hb1 in Hb.
  destruct (create_output_randvars_refines (squeeze_T (self_S self1)) (squeeze_T (self_Y self1))
              R1 Hb) as (x & Ex & Hx).
  eexists self1, _, _. split.
  { rewrite iteration_None, E. reflexivity. }
  split.
  { unfold iteration. rewrite E. cbn [bind call_callback]. rewrite Ex. cbn [bind].
    reflexivity. }
  cbn [xk Ak Ainvk sk yk alphak resid_k distribution mean_of cov_of kron_A].
  split; [exact Hx|]. do 8 (split; [reflexivity|]).
  rewrite (ref_x R1), (ref_x R), (ref_resid R). split; reflexivity.
Qed.


Section WellShaped.
Variables (n : nat) (fA : op) (maxiter : Z) (atol rtol : scalar).



End WellShaped.




End MoreFacts.

(** * A residual that is not a number *)

Lemma leb_nan_l (x : float) : PrimFloat.leb nan x = false.
Proof.
  rewrite FloatAxioms.leb_spec. change (Prim2SF nan) with S754_nan. reflexivity.
Qed.

(** X6.  In binary64, a residual whose norm is [nan] meets no
    tolerance, whatever [atol], [rtol] and [b] are: on such a residual the
    convergence check stops the loop when the counter has reached
    [maxiter], with the criterion "maxiter", and not before. *)
Theorem nan_residual_meets_no_tolerance (lg ex : float -> float)
    (self : @solver (float64 lg ex)) (iter maxiter : Z) (resid : list float)
    (atol rtol : float) :
  @norm (float64 lg ex) resid = nan ->
  @_check_convergence (float64 lg ex) self iter maxiter resid atol rtol
  = if (iter >=? maxiter)%Z then ((true, "maxiter"%string), [maxiter_warning])
    else ((false, EmptyString), []).
Proof.
  intros H. unfold _check_convergence. rewrite H.
  change (@fle (float64 lg ex)) with PrimFloat.leb. rewrite !leb_nan_l. reflexivity.
Qed.

(** * Exact arithmetic: what an iteration achieves *)

Section ExactIteration.

Context {sq lg ex : Q -> Q} {cap : @Capabilities (exactQ sq lg ex)}.
Local Abbreviation QA := (exactQ sq lg ex).
Local Open Scope Q_scope.

Lemma veq_refl u : veq u u.
Proof. induction u; constructor; [reflexivity|assumption]. Qed.

Lemma dotQ_vadd_r (u v w : list Q) :
  length v = length w ->
  dot (ar:=QA) u (vadd (ar:=QA) v w) == dot (ar:=QA) u v + dot (ar:=QA) u w.
Proof.
  unfold vadd.
  revert v w; induction u as [|a u IH]; intros [|c v] [|d w]; qsimpl; try discriminate;
    intros H; try ring.
  injection H as H. rewrite (IH _ _ H). ring.
Qed.

Lemma dotQ_vscale (u v : list Q) c :
  dot (ar:=QA) u (vscale (ar:=QA) c v) == c * dot (ar:=QA) u v.
Proof.
  unfold vscale.
  revert v; induction u as [|a u IH]; intros [|d v]; qsimpl; try ring.
  rewrite IH. ring.
Qed.

(** [u^T s = 1] for [u = Vs / (s^T Vs)]. *)
Lemma rank2_u_dot (W : @op QA) (s : list Q) :
  ~ dot (ar:=QA) s (W s) == 0 ->
  dot (ar:=QA) (rank2_u W s) s == 1.
Proof.
  intros Hd. unfold rank2_u. rewrite dotQ_comm, dotQ_vdiv. field. exact Hd.
Qed.

(** [v^T s = 1/2 s^T delta]. *)
Lemma rank2_v_dot n (M W : @op QA) (s y : list Q) :
  length s = n -> length y = n -> length (M s) = n -> length (W s) = n ->
  ~ dot (ar:=QA) s (W s) == 0 ->
  dot (ar:=QA) (rank2_v M W s y) s
  == (1#2) * dot (ar:=QA) s (vsub (ar:=QA) y (M s)).
Proof.
  intros Hs Hy HM HW Hd. unfold rank2_v. cbv zeta.
  rewrite dotQ_comm, dotQ_vsub_r.
  2:{ transitivity n; [apply (length_vsub (ar:=QA) _ _ n Hy HM)|].
      symmetry. apply (length_vscale (ar:=QA)), (length_vdiv (ar:=QA)), HW. }
  rewrite dotQ_vscale. rewrite (dotQ_comm s (rank2_u W s)), (rank2_u_dot W s Hd).
  qsimpl. ring.
Qed.

Lemma secant_pointwise (m w y : list Q) (d k a c : Q) :
  length m = length w -> length y = length w -> a == k -> c == 1 ->
  veq (vadd (ar:=QA) m
         (vadd (ar:=QA) (vscale_r (ar:=QA) (vdiv (ar:=QA) w d) a)
            (vscale_r (ar:=QA)
               (vsub (ar:=QA) (vsub (ar:=QA) y m)
                  (vscale (ar:=QA) k (vdiv (ar:=QA) w d))) c)))
      y.
Proof.
  intros Hm Hy Ha Hc. unfold vadd, vsub, vscale, vscale_r, vdiv.
  revert w y Hm Hy. induction m as [|m0 m IH]; intros [|w0 w] [|y0 y]; try discriminate;
    intros Hm Hy; qsimpl; constructor.
  - rewrite Ha, Hc. ring.
  - apply IH; [now injection Hm|now injection Hy].
Qed.

(** The secant equation for one rank-2 update: [M' s == y]. *)
Lemma mean_update_secant n (M W : @op QA) (s y : list Q) :
  length s = n -> length y = n -> length (M s) = n -> length (W s) = n ->
  ~ dot (ar:=QA) s (W s) == 0 ->
  veq (spec_mean_update M (rank2_u W s) (rank2_v M W s y) s) y.
Proof.
  intros Hs Hy HM HW Hd. unfold spec_mean_update.
  pose proof (rank2_v_dot n M W s y Hs Hy HM HW Hd) as Hv.
  pose proof (rank2_u_dot W s Hd) as Hu.
  unfold rank2_v in *. cbv zeta in *. unfold rank2_u in *.
  apply secant_pointwise;
    [transitivity n; [exact HM|symmetry; exact HW]
    |transitivity n; [exact Hy|symmetry; exact HW]| |exact Hu].
  rewrite Hv. qsimpl. reflexivity.
Qed.

Lemma annihilate_pointwise (w : list Q) (d c : Q) :
  c == d -> ~ d == 0 ->
  Forall (fun q => q == 0)
    (vsub (ar:=QA) w (vscale_r (ar:=QA) (vdiv (ar:=QA) w d) c)).
Proof.
  intros Hc Hd. unfold vsub, vscale_r, vdiv.
  induction w as [|w0 w IH]; qsimpl; constructor; [|exact IH].
  rewrite Hc. field. exact Hd.
Qed.

(** The downdated factor maps the direction to zero: [W' s == 0]. *)
Lemma cov_update_annihilates (W : @op QA) (s : list Q) :
  ~ dot (ar:=QA) s (W s) == 0 ->
  Forall (fun q => q == 0) (spec_cov_update W (rank2_u W s) (W s) s).
Proof.
  intros Hd. unfold spec_cov_update, rank2_u.
  apply annihilate_pointwise; [apply dotQ_comm|exact Hd].
Qed.

Lemma refines_length_s {n} {self : @solver QA} {resid A bs} :
  refines n self resid A bs -> length (spec_s bs) = n.
Proof.
  intros R. unfold spec_s. apply (length_vneg (ar:=QA)).
  apply (denotes_length (ref_Ainv_mean R)).
  rewrite <- (ref_resid R). apply (ref_len_resid R).
Qed.

Lemma refines_length_y {n} {self : @solver QA} {resid A bs} :
  refines n self resid A bs -> length (spec_y A bs) = n.
Proof.
  intros R. apply (denotes_length (ref_A R) (refines_length_s R)).
Qed.

(** X7.  The secant equations.  In exact arithmetic, on a system of
    size [n] whose operators accept vectors of length [n], after an
    iteration in which neither [s^T (A_covfactor s)] nor
    [y^T (Ainv_covfactor y)] is zero, the updated mean of [A] maps the
    search direction [s] to the observation [y], and the updated mean of
    [Ainv] maps [y] to [s], where [s] and [y] are the entries this
    iteration has appended to the archive. *)
Theorem updated_means_satisfy_the_secant_equations (n : nat) (self : @solver QA)
    (resid : list Q) (A : @op QA) (bs : @belief QA) :
  refines n self resid A bs ->
  let s := spec_s bs in
  let y := spec_y A bs in
  ~ dot (ar:=QA) s (bel_A_covfactor bs s) == 0 ->
  ~ dot (ar:=QA) y (bel_Ainv_covfactor bs y) == 0 ->
  exists self' resid' As Hy,
    iteration None self resid = Ok (self', resid') /\
    nth_error (self_S self') (length (self_S self)) = Some s /\
    nth_error (self_Y self') (length (self_Y self)) = Some y /\
    matmul (self_A_mean self') s = Ok As /\ veq As y /\
    matmul (self_Ainv_mean self') y = Ok Hy /\ veq Hy s.
Proof.
  intros R s y Hd1 Hd2.
  destruct (iteration_step_refines R) as (self1 & E & R1 & HS & HY & _).
  pose proof (refines_length_s R) as Hs. pose proof (refines_length_y R) as Hy.
  fold s in Hs. fold y in Hy.
  exists self1, (bel_residual (spec_step A bs)).
  exists (bel_A_mean (spec_step A bs) s), (bel_Ainv_mean (spec_step A bs) y).
  split; [rewrite iteration_None, E; reflexivity|].
  split; [rewrite HS, nth_error_app2, Nat.sub_diag by lia; reflexivity|].
  split; [rewrite HY, nth_error_app2, Nat.sub_diag by lia; reflexivity|].
  split; [exact (matmul_denotes (ref_A_mean R1) Hs)|].
  split.
  { cbn [spec_step bel_A_mean]. fold s. fold y.
    apply (mean_update_secant n); try assumption.
    - apply (denotes_length (ref_A_mean R) Hs).
    - apply (denotes_length (ref_A_covfactor R) Hs). }
  split; [exact (matmul_denotes (ref_Ainv_mean R1) Hy)|].
  cbn [spec_step bel_Ainv_mean]. fold s. fold y.
  apply (mean_update_secant n); try assumption.
  - apply (denotes_length (ref_Ainv_mean R) Hy).
  - apply (denotes_length (ref_Ainv_covfactor R) Hy).
Qed.

(** X8.  In exact arithmetic, after an iteration in which neither
    [s^T (A_covfactor s)] nor [y^T (Ainv_covfactor y)] is zero, the updated
    covariance factor of [A] maps the search direction [s] to zero and the
    updated covariance factor of [Ainv] maps the observation [y] to zero:
    the rank-1 update removes the explored direction. *)
Theorem updated_covfactors_vanish_on_the_direction (n : nat) (self : @solver QA)
    (resid : list Q) (A : @op QA) (bs : @belief QA) :
  refines n self resid A bs ->
  let s := spec_s bs in
  let y := spec_y A bs in
  ~ dot (ar:=QA) s (bel_A_covfactor bs s) == 0 ->
  ~ dot (ar:=QA) y (bel_Ainv_covfactor bs y) == 0 ->
  exists self' resid' Vs Wy,
    iteration None self resid = Ok (self', resid') /\
    matmul (self_A_covfactor self') s = Ok Vs /\ Forall (fun q => q == 0) Vs /\
    matmul (self_Ainv_covfactor self') y = Ok Wy /\ Forall (fun q => q == 0) Wy.
Proof.
  intros R s y Hd1 Hd2.
  destruct (iteration_step_refines R) as (self1 & E & R1 & _).
  pose proof (refines_length_s R) as Hs. pose proof (refines_length_y R) as Hy.
  fold s in Hs. fold y in Hy.
  exists self1, (bel_residual (spec_step A bs)).
  exists (bel_A_covfactor (spec_step A bs) s), (bel_Ainv_covfactor (spec_step A bs) y).
  split; [rewrite iteration_None, E; reflexivity|].
  split; [exact (matmul_denotes (ref_A_covfactor R1) Hs)|].
  split; [apply cov_update_annihilates; exact Hd1|].
  split; [exact (matmul_denotes (ref_Ainv_covfactor R1) Hy)|].
  apply cov_update_annihilates; exact Hd2.
Qed.

(** X9.  In exact arithmetic, after an iteration with [s^T y] not
    zero, the residual is orthogonal to the search direction of the
    iteration: the step size [- (s^T r) / (s^T y)] is the one that
    makes [s^T (r + alpha y)] vanish. *)
Theorem new_residual_is_orthogonal_to_the_direction (n : nat) (self : @solver QA)
    (resid : list Q) (A : @op QA) (bs : @belief QA) :
  refines n self resid A bs ->
  ~ dot (ar:=QA) (spec_s bs) (spec_y A bs) == 0 ->
  exists self' resid',
    iteration None self resid = Ok (self', resid') /\
    dot (ar:=QA) (spec_s bs) resid' == 0.
Proof.
  intros R Hd.
  destruct (iteration_step_refines R) as (self1 & E & R1 & _).
  pose proof (refines_length_s R) as Hs. pose proof (refines_length_y R) as Hy.
  exists self1, (bel_residual (spec_step A bs)).
  split; [rewrite iteration_None, E; reflexivity|].
  cbn [spec_step bel_residual].
  rewrite dotQ_vadd_r.
  2:{ transitivity n; [rewrite <- (ref_resid R); apply (ref_len_resid R)|].
      symmetry. apply (length_vscale (ar:=QA) _ _ n Hy). }
  rewrite dotQ_vscale. unfold spec_alpha, spec_sy. qsimpl. field. exact Hd.
Qed.


(** The symmetric form of a map on vectors. *)
Lemma symmetric_op_form n (L : @linop QA) f :
  denotes n L f ->
  symmetric_op n L <->
  (forall z w, length z = n -> length w = n ->
     dot (ar:=QA) z (f w) == dot (ar:=QA) w (f z)).
Proof.
  intros D. split.
  - intros H z w Hz Hw. destruct (H z w Hz Hw) as (Lz & Lw & Ez & Ew & Hsym).
    rewrite (matmul_denotes D Hz) in Ez. rewrite (matmul_denotes D Hw) in Ew.
    inversion Ez; inversion Ew; subst. exact Hsym.
  - intros H z w Hz Hw. exists (f z), (f w).
    rewrite (matmul_denotes D Hz), (matmul_denotes D Hw). auto.
Qed.

(** The rank-2 update [M + u v^T + v u^T] of a symmetric form is symmetric. *)
Lemma mean_update_symmetric n (M : @op QA) (u v : list Q) :
  (forall z, length z = n -> length (M z) = n) ->
  length u = n -> length v = n ->
  (forall z w, length z = n -> length w = n ->
     dot (ar:=QA) z (M w) == dot (ar:=QA) w (M z)) ->
  forall z w, length z = n -> length w = n ->
    dot (ar:=QA) z (spec_mean_update M u v w)
    == dot (ar:=QA) w (spec_mean_update M u v z).
Proof.
  intros HM Hu Hv Hsym z w Hz Hw. unfold spec_mean_update.
  assert (L : forall t, length (vadd (ar:=QA) (vscale_r (ar:=QA) u (dot (ar:=QA) v t))
                                  (vscale_r (ar:=QA) v (dot (ar:=QA) u t))) = n).
  { intros t. apply (length_vadd (ar:=QA)); apply (length_vscale_r (ar:=QA)); assumption. }
  rewrite !dotQ_vadd_r.
  2:{ rewrite !(length_vscale_r (ar:=QA) _ _ n) by assumption. reflexivity. }
  2:{ rewrite L. apply HM, Hz. }
  2:{ rewrite !(length_vscale_r (ar:=QA) _ _ n) by assumption. reflexivity. }
  2:{ rewrite L. apply HM, Hw. }
  rewrite !dotQ_vscale_r. rewrite (Hsym z w Hz Hw).
  rewrite (dotQ_comm z u), (dotQ_comm z v), (dotQ_comm w u), (dotQ_comm w v). ring.
Qed.

Lemma iterations_symmetric k : forall n (self : @solver QA) resid A bs,
  refines n self resid A bs ->
  symmetric_op n (self_A_mean self) -> symmetric_op n (self_Ainv_mean self) ->
  exists self',
    iterations k None self resid = Ok (self', bel_residual (spec_steps k A bs)) /\
    symmetric_op n (self_A_mean self') /\ symmetric_op n (self_Ainv_mean self').
Proof.
  induction k as [|k IH]; intros n self resid A bs R H1 H2.
  - exists self. cbn [iterations spec_steps]. rewrite (ref_resid R). auto.
  - destruct (iteration_step_refines R) as (self1 & E & R1 & _).
    pose proof (refines_length_s R) as Hs. pose proof (refines_length_y R) as Hy.
    destruct (IH n self1 _ A (spec_step A bs) R1) as (self' & E' & S1 & S2).
    + apply (symmetric_op_form n _ _ (ref_A_mean R1)). cbn [spec_step bel_A_mean].
      apply mean_update_symmetric.
      * intros z Hz. apply (denotes_length (ref_A_mean R) Hz).
      * apply (length_rank2_u (ar:=QA)), (denotes_length (ref_A_covfactor R) Hs).
      * apply (length_rank2_v (ar:=QA)); [exact Hy|apply (denotes_length (ref_A_mean R) Hs)
                                          |apply (denotes_length (ref_A_covfactor R) Hs)].
      * apply (symmetric_op_form n _ _ (ref_A_mean R)), H1.
    + apply (symmetric_op_form n _ _ (ref_Ainv_mean R1)). cbn [spec_step bel_Ainv_mean].
      apply mean_update_symmetric.
      * intros z Hz. apply (denotes_length (ref_Ainv_mean R) Hz).
      * apply (length_rank2_u (ar:=QA)), (denotes_length (ref_Ainv_covfactor R) Hy).
      * apply (length_rank2_v (ar:=QA)); [exact Hs|apply (denotes_length (ref_Ainv_mean R) Hy)
                                          |apply (denotes_length (ref_Ainv_covfactor R) Hy)].
      * apply (symmetric_op_form n _ _ (ref_Ainv_mean R)), H2.
    + exists self'. cbn [iterations spec_steps]. rewrite iteration_None, E.
      cbn [bind]. rewrite E'. auto.
Qed.

(** X10.  In exact arithmetic, on a system of size [n] whose operators
    accept vectors of length [n]: if the means of [A] and of [Ainv] are
    their own transposes before the first iteration, they are after every
    iteration, and so are the means the loop of [solve] leaves, whatever
    the callback and the tolerances are (the denominators of the iterations
    are assumed not to be zero, as everywhere in exact arithmetic). *)
Theorem means_stay_symmetric (n : nat) (self : @solver QA) (resid : list Q)
    (A : @op QA) (bs : @belief QA) :
  refines n self resid A bs ->
  symmetric_op n (self_A_mean self) -> symmetric_op n (self_Ainv_mean self) ->
  (forall k, nondegenerate k A bs ->
     exists self' resid',
       iterations k None self resid = Ok (self', resid') /\
       symmetric_op n (self_A_mean self') /\ symmetric_op n (self_Ainv_mean self')) /\
  (forall fuel callback maxiter atol rtol warnings self' resid' crit warnings',
     solve_loop fuel callback maxiter atol rtol self resid warnings
       = Ok (self', resid', crit, warnings') ->
     nondegenerate (Z.to_nat (self_iter self' - self_iter self)) A bs ->
     symmetric_op n (self_A_mean self') /\ symmetric_op n (self_Ainv_mean self')).
Proof.
  intros R H1 H2. split.
  - intros k _. destruct (iterations_symmetric k n self resid A bs R H1 H2) as (self' & E & S).
    eauto.
  - intros fuel callback maxiter atol rtol warnings self' resid' crit warnings' H _.
    apply solve_loop_iterations in H. destruct H as (k & E & _).
    apply iterations_callback in E.
    destruct (iterations_symmetric k n self resid A bs R H1 H2) as (self'' & E'' & S).
    rewrite E in E''. inversion E''; subst self''. exact S.
Qed.

Lemma residual_pointwise (r ax b y z : list Q) (alpha : Q) :
  length ax = length b -> length y = length b ->
  veq r (vsub (ar:=QA) ax b) ->
  veq z (vadd (ar:=QA) ax (vscale (ar:=QA) alpha y)) ->
  veq (vadd (ar:=QA) r (vscale (ar:=QA) alpha y)) (vsub (ar:=QA) z b).
Proof.
  unfold veq, vadd, vsub, vscale.
  revert ax b y z. induction r as [|r0 r IH]; intros [|a0 ax] [|b0 b] [|y0 y] z;
    try discriminate; intros Ha Hy Hr Hz; qsimpl; inversion Hr; subst;
    inversion Hz; subst; qsimpl; constructor.
  - match goal with H1 : r0 == _, H2 : _ == a0 + alpha * y0 |- _ => rewrite H1, H2 end. ring.
  - match goal with |- Forall2 _ _ (zipWith _ ?l _) => apply (IH ax b y l) end;
      [now injection Ha|now injection Hy|assumption|assumption].
Qed.

Lemma iterations_residual k : forall n (self : @solver QA) resid A bs,
  refines n self resid A bs -> linear n A -> length (self_b self) = n ->
  veq resid (vsub (ar:=QA) (A (self_x self)) (self_b self)) ->
  exists self',
    iterations k None self resid = Ok (self', bel_residual (spec_steps k A bs)) /\
    veq (bel_residual (spec_steps k A bs))
        (vsub (ar:=QA) (A (self_x self')) (self_b self')).
Proof.
  induction k as [|k IH]; intros n self resid A bs R HL Hb Hr.
  - exists self. cbn [iterations spec_steps]. rewrite <- (ref_resid R). auto.
  - destruct (iteration_step_refines R) as (self1 & E & R1 & _ & _ & _ & _ & Hb1).
    pose proof (refines_length_s R) as Hs. pose proof (refines_length_y R) as Hy.
    destruct (IH n self1 _ A (spec_step A bs) R1 HL) as (self' & E' & Hr').
    + rewrite Hb1. exact Hb.
    + rewrite Hb1, (ref_x R1). cbn [spec_step bel_residual bel_x].
      rewrite <- (ref_resid R), <- (ref_x R).
      apply residual_pointwise with (ax := A (self_x self)).
      * transitivity n; [apply (denotes_length (ref_A R) (ref_len_x R))|symmetry; exact Hb].
      * transitivity n; [exact Hy|symmetry; exact Hb].
      * exact Hr.
      * apply (HL (self_x self) (spec_s bs) _ (ref_len_x R) Hs).
    + exists self'. cbn [iterations spec_steps]. rewrite iteration_None, E.
      cbn [bind]. rewrite E'. auto.
Qed.

(** X11.  The residual the loop carries is the residual of the
    estimate.  In exact arithmetic, for a linear system operator [A]: if the
    residual is [A x - b] before the first iteration, as it is when [solve]
    enters its loop, then after every iteration the residual, which the
    loop updates as [r + alpha y] without applying [A] to [x], is
    [A x - b] for the updated estimate [x]; and so it is when the loop of
    [solve] returns (the denominators of the iterations are assumed not to
    be zero). *)
Theorem residual_is_that_of_the_estimate (n : nat) (self : @solver QA) (resid : list Q)
    (A : @op QA) (bs : @belief QA) :
  refines n self resid A bs -> linear n A -> length (self_b self) = n ->
  veq resid (vsub (ar:=QA) (A (self_x self)) (self_b self)) ->
  (forall k, nondegenerate k A bs ->
     exists self' resid',
       iterations k None self resid = Ok (self', resid') /\
       veq resid' (vsub (ar:=QA) (A (self_x self')) (self_b self'))) /\
  (forall fuel callback maxiter atol rtol warnings self' resid' crit warnings',
     solve_loop fuel callback maxiter atol rtol self resid warnings
       = Ok (self', resid', crit, warnings') ->
     nondegenerate (Z.to_nat (self_iter self' - self_iter self)) A bs ->
     veq resid' (vsub (ar:=QA) (A (self_x self')) (self_b self'))).
Proof.
  intros R HL Hb Hr. split.
  - intros k _. destruct (iterations_residual k n self resid A bs R HL Hb Hr) as (self' & E & S).
    eauto.
  - intros fuel callback maxiter atol rtol warnings self' resid' crit warnings' H _.
    apply solve_loop_iterations in H. destruct H as (k & E & _).
    apply iterations_callback in E.
    destruct (iterations_residual k n self resid A bs R HL Hb Hr) as (self'' & E'' & S).
    rewrite E in E''. inversion E''; subst. exact S.
Qed.

(** A dense matrix is a linear map. *)
Lemma rows_op_linear n (rows : list (list Q)) :
  Forall (fun row => length row = n) rows -> linear n (@rows_op QA rows).
Proof.
  intros Hrows u v c Hu Hv. unfold rows_op, veq, vadd, vscale.
  induction Hrows as [|row rows Hrow _ IH]; cbn [map zipWith]; constructor; [|exact IH].
  change (dot (ar:=QA) row (vadd (ar:=QA) u (vscale (ar:=QA) c v))
          == dot (ar:=QA) row u + c * dot (ar:=QA) row v).
  rewrite dotQ_vadd_r, dotQ_vscale; [reflexivity|].
  rewrite (length_vscale (ar:=QA) _ _ n Hv). exact Hu.
Qed.

End ExactIteration.

(** * The priors of the ODE filter: shapes *)

Section PriorFacts.
Context {ar : Arith}.
Local Open Scope num_scope.
Local Open Scope result_scope.

Lemma tabulate_shape n m f : has_shape n m (tabulate n m f).
Proof.
  unfold has_shape, tabulate. rewrite length_map, length_seq. split; [reflexivity|].
  apply Forall_map, Forall_forall. intros i _. now rewrite length_map, length_seq.
Qed.

Lemma seq_from s p : seq s p = map (fun k => (s + k)%nat) (seq 0 p).
Proof.
  revert s. induction p as [|p IH]; intros s; [reflexivity|].
  cbn [seq map]. rewrite Nat.add_0_r. f_equal.
  rewrite (IH (Datatypes.S s)), (IH 1%nat), map_map. apply map_ext. intros k. lia.
Qed.

Lemma seq_mul a p :
  seq 0 (a * p) = flat_map (fun i => map (fun k => (i * p + k)%nat) (seq 0 p)) (seq 0 a).
Proof.
  induction a as [|a IH]; [reflexivity|].
  rewrite seq_S, flat_map_app. cbn [flat_map]. rewrite app_nil_r, <- IH. cbn [plus].
  replace (Datatypes.S a * p)%nat with (a * p + p)%nat by lia.
  rewrite seq_app. f_equal. cbn [plus]. apply seq_from.
Qed.

Lemma flat_map_map {T U V : Type} (f : U -> list V) (g : T -> U) l :
  flat_map f (map g l) = flat_map (fun x => f (g x)) l.
Proof. induction l as [|x l IH]; [reflexivity|]. cbn [map flat_map]. now rewrite IH. Qed.

Lemma map_flat_map {T U V : Type} (h : U -> V) (g : T -> list U) l :
  map h (flat_map g l) = flat_map (fun x => map h (g x)) l.
Proof.
  induction l as [|x l IH]; [reflexivity|]. cbn [flat_map]. now rewrite map_app, IH.
Qed.

Lemma flat_map_ext_seq {T : Type} (f g : nat -> list T) n :
  (forall i, (i < n)%nat -> f i = g i) -> flat_map f (seq 0 n) = flat_map g (seq 0 n).
Proof.
  intros H. rewrite !flat_map_concat_map. f_equal. apply map_ext_in.
  intros i Hi. apply in_seq in Hi. apply H. lia.
Qed.

Lemma map_ext_seq {T : Type} (f g : nat -> T) n :
  (forall i, (i < n)%nat -> f i = g i) -> map f (seq 0 n) = map g (seq 0 n).
Proof. intros H. apply map_ext_in. intros i Hi. apply in_seq in Hi. apply H. lia. Qed.

Lemma map_seq_mul {T : Type} (h : nat -> T) a p :
  map h (seq 0 (a * p))
  = flat_map (fun i => map (fun k => h (i * p + k)%nat) (seq 0 p)) (seq 0 a).
Proof.
  rewrite seq_mul, map_flat_map. apply flat_map_ext_seq. intros i _. apply map_map.
Qed.

(** The Kronecker product of two tabulated arrays, entry by entry. *)
Lemma kron_tabulate a b p q f g :
  kron (tabulate a b f) (tabulate p q g)
  = tabulate (a * p) (b * q)
      (fun I J => f (I / p)%nat (J / q)%nat * g (I mod p)%nat (J mod q)%nat).
Proof.
  unfold kron, tabulate. rewrite flat_map_map, map_seq_mul.
  apply flat_map_ext_seq. intros i _. rewrite map_map.
  apply map_ext_seq. intros k Hk. rewrite flat_map_map, map_seq_mul.
  apply flat_map_ext_seq. intros j _. rewrite map_map.
  apply map_ext_seq. intros l Hl.
  rewrite <- (Nat.div_unique (i * p + k) p i k), <- (Nat.mod_unique (i * p + k) p i k),
          <- (Nat.div_unique (j * q + l) q j l), <- (Nat.mod_unique (j * q + l) q j l)
    by lia.
  reflexivity.
Qed.


Lemma length_list_set {T : Type} (l : list T) i x : length (list_set l i x) = length l.
Proof.
  revert i. induction l as [|h l IH]; intros [|i]; cbn [list_set length]; auto.
Qed.

Lemma Forall_list_set {T : Type} (P : T -> Prop) (l : list T) i x :
  Forall P l -> P x -> Forall P (list_set l i x).
Proof.
  intros Hl Hx. revert i. induction Hl as [|h l Hh Hl IH]; intros [|i]; cbn [list_set];
    constructor; auto.
Qed.

Lemma length_kron_row (arow brow : list scalar) :
  length (flat_map (fun a => map (fun b => a * b) brow) arow)
  = (length arow * length brow)%nat.
Proof.
  induction arow as [|a arow IH]; [reflexivity|]. cbn [flat_map].
  rewrite length_app, length_map, IH. reflexivity.
Qed.

Lemma kron_shape a b p q (A B : matrix) :
  has_shape a b A -> has_shape p q B -> has_shape (a * p) (b * q) (kron A B).
Proof.
  intros [HA1 HA2] [HB1 HB2]. subst a p. unfold kron. split.
  - induction A as [|arow A IH]; [reflexivity|]. cbn [flat_map].
    rewrite length_app, length_map, IH; [reflexivity|]. now inversion HA2.
  - induction HA2 as [|arow A Harow HA2 IH]; [constructor|]. cbn [flat_map].
    apply Forall_app. split; [|exact IH].
    apply Forall_map. eapply Forall_impl; [|exact HB2].
    intros brow Hbrow. cbv beta. rewrite length_kron_row. congruence.
Qed.

Lemma np_diag_ones_1_shape k : has_shape (k + 1) (k + 1) (np_diag_ones_1 k).
Proof. apply tabulate_shape. Qed.

Lemma np_eye_shape n : has_shape n n (np_eye n).
Proof. apply tabulate_shape. Qed.

Lemma dynamat_ibm_shape ordint spatialdim :
  has_shape (spatialdim * (ordint + 1)) (spatialdim * (ordint + 1))
            (_dynamat_ibm ordint spatialdim).
Proof. apply kron_shape; [apply np_eye_shape|apply np_diag_ones_1_shape]. Qed.

Lemma has_shape_nth n m (M : matrix) i :
  has_shape n m M -> (i < n)%nat -> length (nth i M []) = m.
Proof.
  intros [H1 H2] Hi. rewrite Forall_forall in H2. apply H2, nth_In. lia.
Qed.

Lemma dynamat_ioup_shape ordint spatialdim driftspeed :
  has_shape (spatialdim * (ordint + 1)) (spatialdim * (ordint + 1))
            (_dynamat_ioup ordint spatialdim driftspeed).
Proof.
  apply kron_shape; [apply np_eye_shape|].
  destruct (np_diag_ones_1_shape ordint) as [H1 H2]. split.
  - rewrite length_list_set. exact H1.
  - apply Forall_list_set; [exact H2|]. rewrite length_list_set.
    apply (has_shape_nth (ordint + 1)); [split; assumption|lia].
Qed.

Lemma dynamat_matern_shape ordint spatialdim lengthscale :
  has_shape (spatialdim * (ordint + 1)) (spatialdim * (ordint + 1))
            (_dynamat_matern ordint spatialdim lengthscale).
Proof.
  apply kron_shape; [apply np_eye_shape|].
  destruct (np_diag_ones_1_shape ordint) as [H1 H2]. split.
  - rewrite length_list_set. exact H1.
  - apply Forall_list_set; [exact H2|]. now rewrite length_map, length_seq.
Qed.

Lemma length_dispvec ordint spatialdim diffconst :
  length (_dispvec_ibm_ioup_matern ordint spatialdim diffconst)
  = (spatialdim * (ordint + 1))%nat.
Proof.
  unfold _dispvec_ibm_ioup_matern, kron1.
  rewrite length_kron_row, repeat_length, !length_map.
  destruct (np_eye_shape (ordint + 1)) as [H _]. now rewrite H.
Qed.

Lemma ah_ibm_shape ordint spatialdim start stop :
  has_shape (spatialdim * (ordint + 1)) (spatialdim * (ordint + 1))
            (_ah_ibm ordint spatialdim start stop).
Proof. apply kron_shape; [apply np_eye_shape|apply tabulate_shape]. Qed.

Lemma qh_ibm_shape ordint spatialdim diffconst start stop :
  has_shape (spatialdim * (ordint + 1)) (spatialdim * (ordint + 1))
            (_qh_ibm ordint spatialdim diffconst start stop).
Proof. apply kron_shape; [apply np_eye_shape|apply tabulate_shape]. Qed.

(** X12.  The four arrays that the constructors of [IBM], [IOUP] and
    [Matern] hand to the base class fit together: with
    [D = spatialdim * (ordint + 1)], the drift matrix and the diffusion
    matrix are square of size [D], and the force vector and the dispersion
    vector have length [D], for every order, dimension and parameter. *)
Theorem prior_arrays_have_one_size (ordint spatialdim : nat)
    (driftspeed lengthscale diffconst : scalar) :
  let D := (spatialdim * (ordint + 1))%nat in
  Forall (fun m => has_shape D D (ltisde_driftmat m) /\ length (ltisde_forcevec m) = D /\
                   length (ltisde_dispvec m) = D /\ has_shape D D (ltisde_diffmat m))
    [ibm_model (IBM_init ordint spatialdim diffconst);
     ioup_model (IOUP_init ordint spatialdim driftspeed diffconst);
     matern_model (Matern_init ordint spatialdim lengthscale diffconst)].
Proof.
  cbv zeta. repeat constructor;
    cbn [ltisde_driftmat ltisde_forcevec ltisde_dispvec ltisde_diffmat
         ibm_model ioup_model matern_model IBM_init IOUP_init Matern_init];
    try apply np_eye_shape; try apply length_dispvec;
    try rewrite repeat_length;
    try apply dynamat_ibm_shape; try apply dynamat_ioup_shape;
    try apply dynamat_matern_shape.
Qed.

Lemma length_hd_shape n m (M : matrix) :
  has_shape n m M -> (n = 0 -> m = 0)%nat -> length (hd [] M) = m.
Proof.
  intros [H1 H2] H0. destruct M as [|row M]; cbn [hd length] in *; [symmetry; auto|].
  now inversion H2.
Qed.

Lemma length_transpose (M : matrix) : length (transpose M) = length (hd [] M).
Proof. unfold transpose. now rewrite length_map, length_seq. Qed.

Lemma mat_vec_shape n m (M : matrix) v :
  has_shape n m M -> (n = 0 -> m = 0)%nat -> length v = m ->
  mat_vec M v = Ok (map (fun row => dot row v) M).
Proof.
  intros HM H0 Hv. unfold mat_vec.
  rewrite (length_hd_shape n m M HM H0), Hv, Nat.eqb_refl. reflexivity.
Qed.

Lemma mat_mat_shape n m k (M N : matrix) :
  has_shape n m M -> (n = 0 -> m = 0)%nat -> has_shape m k N -> (m = 0 -> k = 0)%nat ->
  mat_mat M N = Ok (map (fun row => map (fun col => dot row col) (transpose N)) M) /\
  has_shape n k (map (fun row => map (fun col => dot row col) (transpose N)) M).
Proof.
  intros HM H0 HN H0'. unfold mat_mat.
  rewrite (length_hd_shape n m M HM H0). destruct HN as [HN1 HN2]. rewrite HN1, Nat.eqb_refl.
  split; [reflexivity|]. split; [rewrite length_map; apply HM|].
  apply Forall_map, Forall_forall. intros row _.
  rewrite length_map, length_transpose. apply (length_hd_shape m k); [split; assumption|exact H0'].
Qed.

Lemma transpose_shape n (M : matrix) : has_shape n n M -> has_shape n n (transpose M).
Proof.
  intros HM. pose proof (length_hd_shape n n M HM (fun H => H)) as Hh.
  unfold transpose. rewrite Hh. split; [now rewrite length_map, length_seq|].
  apply Forall_map, Forall_forall. intros j _. rewrite length_map. apply HM.
Qed.

Lemma mat_add_shape n m (M N : matrix) :
  has_shape n m M -> has_shape n m N -> has_shape n m (mat_add M N).
Proof.
  intros [HM1 HM2] [HN1 HN2]. unfold mat_add. split.
  - rewrite length_map, length_combine. lia.
  - apply Forall_map, Forall_forall. intros [r1 r2] Hin. cbn [fst snd].
    rewrite Forall_forall in HM2, HN2.
    rewrite length_zipWith.
    + apply HM2. eapply in_combine_l, Hin.
    + rewrite (HM2 r1), (HN2 r2); [reflexivity| |].
      * eapply in_combine_r, Hin.
      * eapply in_combine_l, Hin.
Qed.

(** On arrays of matching shapes the prediction returns. *)
Lemma chapmankolmogorov_Ok (self : IBM) (start stop step : scalar)
    (randvar : Normal (list scalar) matrix) :
  let D := (ibm_spatialdim self * (ibm_ordint self + 1))%nat in
  length (mean_of randvar) = D -> has_shape D D (cov_of randvar) ->
  exists pred,
    chapmankolmogorov self start stop step randvar = Ok pred /\
    mean_of pred
    = map (fun row => dot row (mean_of randvar))
          (_ah_ibm (ibm_ordint self) (ibm_spatialdim self) start stop) /\
    length (mean_of pred) = D /\ has_shape D D (cov_of pred).
Proof.
  intros D Hm Hc. unfold chapmankolmogorov.
  pose proof (ah_ibm_shape (ibm_ordint self) (ibm_spatialdim self) start stop) as Hah.
  pose proof (qh_ibm_shape (ibm_ordint self) (ibm_spatialdim self) (ibm_diffconst self)
                start stop) as Hqh.
  fold D in Hah, Hqh.
  rewrite (mat_vec_shape D D _ _ Hah (fun H => H) Hm). cbn [bind].
  destruct (mat_mat_shape D D D _ _ Hah (fun H => H) Hc (fun H => H)) as [E1 S1].
  rewrite E1. cbn [bind].
  destruct (mat_mat_shape D D D _ _ S1 (fun H => H) (transpose_shape D _ Hah) (fun H => H))
    as [E2 S2].
  rewrite E2. cbn [bind]. eexists. split; [reflexivity|]. cbn [mean_of cov_of].
  split; [reflexivity|].
  split; [rewrite length_map; apply Hah|]. apply mat_add_shape; assumption.
Qed.


End PriorFacts.

(** * The priors of the ODE filter: the closed forms *)

Section PriorFactsAny.
Context {ar : Arith}.
Local Open Scope num_scope.

Lemma nth_map_seq {T : Type} (h : nat -> T) n j d :
  (j < n)%nat -> nth j (map h (seq 0 n)) d = h j.
Proof.
  intros Hj. rewrite (nth_indep _ d (h 0%nat)) by now rewrite length_map, length_seq.
  rewrite (map_nth h (seq 0 n) 0%nat j), seq_nth by exact Hj. reflexivity.
Qed.

Lemma transpose_tabulate n f :
  transpose (tabulate n n f) = tabulate n n (fun i j => f j i).
Proof.
  unfold transpose. rewrite (length_hd_shape n n _ (tabulate_shape n n f) (fun H => H)).
  unfold tabulate. apply map_ext_seq. intros j Hj. rewrite map_map.
  apply map_ext_seq. intros i Hi. apply nth_map_seq, Hj.
Qed.

Lemma tabulate_ext n m f g :
  (forall i j, (i < n)%nat -> (j < m)%nat -> f i j = g i j) -> tabulate n m f = tabulate n m g.
Proof.
  intros H. unfold tabulate. apply map_ext_seq. intros i Hi.
  apply map_ext_seq. intros j Hj. apply H; assumption.
Qed.

Lemma qh_element_sym stp ordint rw cl dconst :
  qh_element stp ordint rw cl dconst = qh_element stp ordint cl rw dconst.
Proof.
  unfold qh_element. cbv zeta.
  replace (2 * Z.of_nat ordint + 1 - Z.of_nat cl - Z.of_nat rw)%Z
    with (2 * Z.of_nat ordint + 1 - Z.of_nat rw - Z.of_nat cl)%Z by lia.
  f_equal. f_equal. ring.
Qed.

(** X14.  The matrix [Q(h)] that [IBM._qh_ibm] returns is its own
    transpose, entry for entry and in every arithmetic, binary64 included:
    the index and the factorials of the closed form are integers, and their
    product does not depend on the order of row and column. *)
Theorem qh_ibm_is_symmetric (ordint spatialdim : nat) (diffconst start stop : scalar) :
  transpose (_qh_ibm ordint spatialdim diffconst start stop)
  = _qh_ibm ordint spatialdim diffconst start stop.
Proof.
  unfold _qh_ibm, np_eye. cbv zeta. rewrite kron_tabulate, transpose_tabulate.
  apply tabulate_ext. intros i j _ _.
  rewrite (Nat.eqb_sym (j / (ordint + 1)) (i / (ordint + 1))), qh_element_sym. reflexivity.
Qed.
End PriorFactsAny.

Section PriorFactsExact.
Context {sq lg ex : Q -> Q}.
Local Abbreviation QA := (exactQ sq lg ex).
Local Open Scope Q_scope.

Lemma veq_nth (u v : list Q) :
  length u = length v ->
  (forall i, (i < length u)%nat -> nth i u 0 == nth i v 0) -> veq u v.
Proof.
  revert v. induction u as [|a u IH]; intros [|c v] Hl H; try discriminate; constructor.
  - apply (H 0%nat). cbn [length]. lia.
  - apply IH; [now injection Hl|]. intros i Hi. apply (H (Datatypes.S i)). cbn [length]. lia.
Qed.

Lemma meq_nth (M N : list (list Q)) :
  length M = length N ->
  (forall i, (i < length M)%nat -> veq (nth i M []) (nth i N [])) -> meq M N.
Proof.
  revert N. induction M as [|a M IH]; intros [|c N] Hl H; try discriminate; constructor.
  - apply (H 0%nat). cbn [length]. lia.
  - apply IH; [now injection Hl|]. intros i Hi. apply (H (Datatypes.S i)). cbn [length]. lia.
Qed.

(** The inner product with a row whose entries vanish. *)
Lemma dot_zeros (v : list Q) : forall (g : nat -> Q),
  (forall j, (j < length v)%nat -> g j == 0) ->
  dot (ar:=QA) (map g (seq 0 (length v))) v == 0.
Proof.
  induction v as [|a v IH]; intros g H; [reflexivity|].
  cbn [length seq map]. rewrite <- seq_shift, map_map. qsimpl.
  rewrite (IH (fun j => g (Datatypes.S j))).
  - rewrite (H 0%nat) by (cbn [length]; lia). ring.
  - intros j Hj. apply H. cbn [length]. lia.
Qed.

(** The inner product with a row of the identity. *)
Lemma dot_delta (v : list Q) : forall (g : nat -> Q) i,
  (i < length v)%nat ->
  (forall j, (j < length v)%nat -> g j == if (i =? j)%nat then 1 else 0) ->
  dot (ar:=QA) (map g (seq 0 (length v))) v == nth i v 0.
Proof.
  induction v as [|a v IH]; intros g i Hi H; [cbn [length] in Hi; lia|].
  cbn [length seq map]. rewrite <- seq_shift, map_map. qsimpl.
  destruct i as [|i].
  - rewrite (dot_zeros v (fun j => g (Datatypes.S j))).
    + rewrite (H 0%nat) by (cbn [length]; lia). cbn [Nat.eqb nth]. ring.
    + intros j Hj. rewrite (H (Datatypes.S j)) by (cbn [length]; lia). reflexivity.
  - rewrite (IH (fun j => g (Datatypes.S j)) i).
    + rewrite (H 0%nat) by (cbn [length]; lia). cbn [Nat.eqb nth]. ring.
    + cbn [length] in Hi. lia.
    + intros j Hj. rewrite (H (Datatypes.S j)) by (cbn [length]; lia). reflexivity.
Qed.

Lemma fpow_zero (x : Q) k : x == 0 -> fpow (ar:=QA) x (Datatypes.S k) == 0.
Proof.
  intros H. cbn [fpow]. qsimpl.
  transitivity (0 * fpow (ar:=QA) x k); [apply Qmult_comp; [exact H|reflexivity]|ring].
Qed.

(** [A(0)] is the identity, entry by entry. *)
Lemma ah_element_zero (stp : Q) rw cl :
  stp == 0 ->
  ah_element (ar:=QA) stp rw cl == if (rw =? cl)%nat then 1 else 0.
Proof.
  intros H. unfold ah_element.
  destruct (Nat.leb_spec rw cl) as [Hle|Hgt].
  - destruct (Nat.eqb_spec rw cl) as [->|Hne].
    + rewrite Nat.sub_diag. reflexivity.
    + replace (cl - rw)%nat with (Datatypes.S (cl - rw - 1)) by lia.
      change (fpow (ar:=QA) stp (Datatypes.S (cl - rw - 1)) / inject_Z (factorial (Datatypes.S (cl - rw - 1))) == 0).
      rewrite (fpow_zero stp _ H). unfold Qdiv. ring.
  - destruct (Nat.eqb_spec rw cl) as [->|Hne]; [lia|reflexivity].
Qed.

Lemma qh_element_zero (stp : Q) ordint rw cl dconst :
  stp == 0 -> (rw <= ordint)%nat -> (cl <= ordint)%nat ->
  qh_element (ar:=QA) stp ordint rw cl dconst == 0.
Proof.
  intros H Hr Hc. unfold qh_element. cbv zeta.
  set (idx := (2 * Z.of_nat ordint + 1 - Z.of_nat rw - Z.of_nat cl)%Z).
  replace (Z.to_nat idx) with (Datatypes.S (Z.to_nat idx - 1)) by (unfold idx; lia).
  set (p := fpow (ar:=QA) stp (Datatypes.S (Z.to_nat idx - 1))).
  assert (Hp : p == 0) by (apply fpow_zero, H).
  change (fpow (ar:=QA) dconst 2 * p / @fofZ QA (idx * factorial (ordint - rw) * factorial (ordint - cl)) == 0).
  transitivity (fpow (ar:=QA) dconst 2 * 0 / @fofZ QA (idx * factorial (ordint - rw) * factorial (ordint - cl))).
  - apply Qmult_comp; [|reflexivity]. apply Qmult_comp; [reflexivity|exact Hp].
  - unfold Qdiv. ring.
Qed.

Lemma div_mod_eqb i j m : (0 < m)%nat ->
  ((i / m =? j / m) && (i mod m =? j mod m))%nat = (i =? j)%nat.
Proof.
  intros Hm. destruct (Nat.eqb_spec i j) as [->|Hne].
  - now rewrite !Nat.eqb_refl.
  - destruct (Nat.eqb_spec (i / m) (j / m)) as [Hd|]; [|reflexivity].
    destruct (Nat.eqb_spec (i mod m) (j mod m)) as [Hmod|]; [|reflexivity].
    exfalso. apply Hne.
    rewrite (Nat.div_mod_eq i m), (Nat.div_mod_eq j m). congruence.
Qed.

(** The entries of [A(h)] and of [Q(h)] for a step [h == 0]. *)
Lemma ah_ibm_zero ordint spatialdim (start stop : Q) :
  stop - start == 0 ->
  exists E,
    _ah_ibm (ar:=QA) ordint spatialdim start stop
    = tabulate (spatialdim * (ordint + 1)) (spatialdim * (ordint + 1)) E /\
    forall i j, E i j == if (i =? j)%nat then 1 else 0.
Proof.
  intros H. unfold _ah_ibm, np_eye. cbv zeta. rewrite kron_tabulate.
  eexists. split; [reflexivity|]. intros i j. cbv beta.
  change (fsub (Arith:=QA) stop start) with (stop - start).
  qsimpl. rewrite (ah_element_zero _ _ _ H).
  rewrite <- (div_mod_eqb i j (ordint + 1)) by lia.
  destruct (i / (ordint + 1) =? j / (ordint + 1))%nat,
           (i mod (ordint + 1) =? j mod (ordint + 1))%nat; cbn [andb]; reflexivity || ring.
Qed.

Lemma qh_ibm_zero ordint spatialdim diffconst (start stop : Q) :
  stop - start == 0 ->
  exists E,
    _qh_ibm (ar:=QA) ordint spatialdim diffconst start stop
    = tabulate (spatialdim * (ordint + 1)) (spatialdim * (ordint + 1)) E /\
    forall i j, E i j == 0.
Proof.
  intros H. unfold _qh_ibm, np_eye. cbv zeta. rewrite kron_tabulate.
  eexists. split; [reflexivity|]. intros i j. cbv beta.
  change (fsub (Arith:=QA) stop start) with (stop - start).
  qsimpl. rewrite (qh_element_zero _ ordint _ _ _ H).
  - ring.
  - pose proof (Nat.mod_upper_bound i (ordint + 1)). lia.
  - pose proof (Nat.mod_upper_bound j (ordint + 1)). lia.
Qed.

Lemma nth_map_default {T U : Type} (F : T -> U) l i d d' :
  (i < length l)%nat -> nth i (map F l) d' = F (nth i l d).
Proof.
  intros Hi. rewrite (nth_indep _ d' (F d)) by now rewrite length_map.
  apply map_nth.
Qed.

Lemma nth_zipWith (u v : list Q) i :
  (i < length u)%nat -> (i < length v)%nat ->
  nth i (zipWith (ar:=QA) Qplus u v) 0 = nth i u 0 + nth i v 0.
Proof.
  revert v i. induction u as [|a u IH]; intros [|c v] [|i] Hu Hv; cbn [length] in *;
    try lia; cbn [zipWith nth]; [reflexivity|]. apply IH; lia.
Qed.

Lemma nth_tabulate_row n m (f : nat -> nat -> Q) i :
  (i < n)%nat -> nth i (tabulate (ar:=QA) n m f) [] = map (f i) (seq 0 m).
Proof. intros Hi. unfold tabulate. apply (nth_map_seq (fun row => map (f row) (seq 0 m))), Hi. Qed.

(** A matrix with the entries of the identity, applied to a vector. *)
Lemma identity_row D (E : nat -> nat -> Q) (v : list Q) i :
  (forall i j, E i j == if (i =? j)%nat then 1 else 0) ->
  (i < D)%nat -> length v = D ->
  dot (ar:=QA) (map (E i) (seq 0 D)) v == nth i v 0.
Proof.
  intros Hdelta Hi Hv. subst D. apply dot_delta; [exact Hi|]. intros j _. apply Hdelta.
Qed.

Lemma identity_mat_vec D (E : nat -> nat -> Q) (v : list Q) :
  (forall i j, E i j == if (i =? j)%nat then 1 else 0) ->
  length v = D ->
  veq (map (fun row => dot (ar:=QA) row v) (tabulate (ar:=QA) D D E)) v.
Proof.
  intros Hdelta Hv. unfold tabulate. rewrite map_map. apply veq_nth.
  - rewrite length_map, length_seq. symmetry. exact Hv.
  - intros i Hi. rewrite length_map, length_seq in Hi.
    rewrite (nth_map_seq _ D i 0 Hi). apply identity_row; assumption.
Qed.

(** [I @ C]: the entries are those of [C]. *)
Lemma identity_mat_mat_l D (E : nat -> nat -> Q) (C : list (list Q)) i j :
  (forall i j, E i j == if (i =? j)%nat then 1 else 0) ->
  has_shape (ar:=QA) D D C -> (i < D)%nat -> (j < D)%nat ->
  nth j (nth i (map (fun row => map (fun col => dot (ar:=QA) row col) (transpose (ar:=QA) C))
                    (tabulate (ar:=QA) D D E)) []) 0
  == nth j (nth i C []) 0.
Proof.
  intros Hdelta HC Hi Hj. unfold tabulate. rewrite map_map, (nth_map_seq _ D i [] Hi).
  unfold transpose. rewrite (length_hd_shape (ar:=QA) D D C HC (fun H => H)).
  rewrite map_map, (nth_map_seq _ D j 0 Hj).
  rewrite (identity_row D E _ i Hdelta Hi).
  - rewrite (nth_map_default (fun row : list Q => nth j row 0) C i []); [reflexivity|].
    apply Nat.lt_le_trans with D; [exact Hi|apply Nat.eq_le_incl; symmetry; apply HC].
  - rewrite length_map. apply HC.
Qed.

(** [X @ I.T]: the entries are those of [X]. *)
Lemma identity_mat_mat_r D (E : nat -> nat -> Q) (X : list (list Q)) i j :
  (forall i j, E i j == if (i =? j)%nat then 1 else 0) ->
  has_shape (ar:=QA) D D X -> (i < D)%nat -> (j < D)%nat ->
  nth j (nth i (map (fun row => map (fun col => dot (ar:=QA) row col)
                                  (transpose (ar:=QA) (transpose (ar:=QA) (tabulate (ar:=QA) D D E))))
                    X) []) 0
  == nth j (nth i X []) 0.
Proof.
  intros Hdelta HX Hi Hj. rewrite !(transpose_tabulate (ar:=QA)).
  rewrite (nth_map_default _ X i [])
    by (apply Nat.lt_le_trans with D; [exact Hi|apply Nat.eq_le_incl; symmetry; apply HX]).
  unfold tabulate. rewrite map_map, (nth_map_seq _ D j 0 Hj).
  rewrite dotQ_comm. apply identity_row; [exact Hdelta|exact Hj|].
  apply (has_shape_nth (ar:=QA) D D X i HX Hi).
Qed.

(** [X + Z] for a matrix [Z] of zeros. *)
Lemma mat_add_zero D (Z : nat -> nat -> Q) (X : list (list Q)) i j :
  (forall i j, Z i j == 0) ->
  has_shape (ar:=QA) D D X -> (i < D)%nat -> (j < D)%nat ->
  nth j (nth i (mat_add (ar:=QA) X (tabulate (ar:=QA) D D Z)) []) 0 == nth j (nth i X []) 0.
Proof.
  intros Hzero HX Hi Hj. unfold mat_add.
  pose proof (tabulate_shape (ar:=QA) D D Z) as SZ.
  unfold vec, matrix in *. cbn [scalar exactQ] in *.
  assert (Hl : length X = length (tabulate (ar:=QA) D D Z)).
  { transitivity D; [apply HX|symmetry; apply SZ]. }
  rewrite (nth_map_default _ _ i ([], [])).
  2:{ rewrite length_combine.
      apply Nat.min_glb_lt; (apply Nat.lt_le_trans with D;
        [exact Hi|apply Nat.eq_le_incl; symmetry; (apply HX || apply SZ)]). }
  rewrite combine_nth by exact Hl. cbn [fst snd].
  pose proof (nth_tabulate_row D D Z i Hi) as R.
  pose proof (has_shape_nth (ar:=QA) D D X i HX Hi) as L2.
  unfold vec, matrix in *. cbn [scalar exactQ] in *. rewrite R.
  change (@fadd QA) with Qplus.
  rewrite nth_zipWith.
  - rewrite (nth_map_seq _ D j 0 Hj), Hzero. ring.
  - apply Nat.lt_le_trans with D; [exact Hj|apply Nat.eq_le_incl; symmetry; exact L2].
  - rewrite length_map, length_seq. exact Hj.
Qed.

Lemma meq_entries D (M N : list (list Q)) :
  has_shape (ar:=QA) D D M -> has_shape (ar:=QA) D D N ->
  (forall i j, (i < D)%nat -> (j < D)%nat -> nth j (nth i M []) 0 == nth j (nth i N []) 0) ->
  meq M N.
Proof.
  intros HM HN H. apply meq_nth.
  - transitivity D; [apply HM|symmetry; apply HN].
  - intros i Hi.
    assert (HiD : (i < D)%nat).
    { apply Nat.lt_le_trans with (length M); [exact Hi|apply Nat.eq_le_incl; apply HM]. }
    pose proof (has_shape_nth (ar:=QA) D D M i HM HiD) as LM.
    pose proof (has_shape_nth (ar:=QA) D D N i HN HiD) as LN.
    apply veq_nth.
    + transitivity D; [exact LM|symmetry; exact LN].
    + intros j Hj. apply H; [exact HiD|].
      apply Nat.lt_le_trans with (length (nth i M [])); [exact Hj|apply Nat.eq_le_incl, LM].
Qed.

(** X15.  In exact arithmetic, the prediction over an interval of
    length zero changes nothing: for [stop = start],
    [IBM.chapmankolmogorov] returns the mean and the covariance it was
    given ([A(0)] is the identity and [Q(0)] is zero). *)
Theorem chapmankolmogorov_over_no_time (self : @IBM QA) (start stop step : Q)
    (randvar : Normal (list (@scalar QA)) (@matrix QA)) :
  let D := (ibm_spatialdim self * (ibm_ordint self + 1))%nat in
  stop == start ->
  length (mean_of randvar) = D -> has_shape (ar:=QA) D D (cov_of randvar) ->
  exists pred,
    chapmankolmogorov self start stop step randvar = Ok pred /\
    veq (mean_of pred) (mean_of randvar) /\ meq (cov_of pred) (cov_of randvar).
Proof.
  intros D Hstep Hm Hc.
  assert (H0 : stop - start == 0) by (rewrite Hstep; ring).
  destruct (ah_ibm_zero (ibm_ordint self) (ibm_spatialdim self) start stop H0)
    as (E & HE & Hdelta).
  destruct (qh_ibm_zero (ibm_ordint self) (ibm_spatialdim self) (ibm_diffconst self)
              start stop H0) as (Z & HZ & Hzero).
  fold D in HE, HZ.
  unfold chapmankolmogorov. cbv zeta. rewrite HE, HZ.
  pose proof (tabulate_shape (ar:=QA) D D E) as Hah.
  rewrite (mat_vec_shape (ar:=QA) D D _ _ Hah (fun H => H) Hm). cbn [bind].
  destruct (mat_mat_shape (ar:=QA) D D D _ _ Hah (fun H => H) Hc (fun H => H)) as [E1 S1].
  rewrite E1. cbn [bind].
  destruct (mat_mat_shape (ar:=QA) D D D _ _ S1 (fun H => H) (transpose_shape (ar:=QA) D _ Hah) (fun H => H))
    as [E2 S2].
  rewrite E2. cbn [bind]. eexists. split; [reflexivity|]. cbn [mean_of cov_of].
  split; [apply identity_mat_vec; assumption|].
  apply (meq_entries D).
  - apply (mat_add_shape (ar:=QA)); [exact S2|apply (tabulate_shape (ar:=QA))].
  - exact Hc.
  - intros i j Hi Hj.
    rewrite (mat_add_zero D Z _ i j Hzero S2 Hi Hj).
    rewrite (identity_mat_mat_r D E _ i j Hdelta S1 Hi Hj).
    apply (identity_mat_mat_l D E _ i j Hdelta Hc Hi Hj).
Qed.

(** X16.  In exact arithmetic, the matrix [A(h)] that [IBM._ah_ibm]
    returns is upper triangular with ones on its diagonal, for every step
    [h]: the entry in row [i] and column [j <= i] is 1 when [i = j] and 0
    when [j < i]. *)
Theorem ah_ibm_is_unit_upper_triangular (ordint spatialdim : nat) (start stop : Q)
    (i j : nat) :
  let D := (spatialdim * (ordint + 1))%nat in
  (j <= i < D)%nat ->
  nth j (nth i (_ah_ibm (ar:=QA) ordint spatialdim start stop) []) 0
  == if (i =? j)%nat then 1 else 0.
Proof.
  intros D [Hji Hi]. unfold _ah_ibm, np_eye. cbv zeta. rewrite kron_tabulate. fold D.
  pose proof (nth_tabulate_row D D
    (fun I J => (if (I / (ordint + 1) =? J / (ordint + 1))%nat then inject_Z 1 else 0)
                * ah_element (ar:=QA) (stop - start) (I mod (ordint + 1)) (J mod (ordint + 1)))
    i Hi) as R.
  unfold vec, matrix in *. cbn [scalar fmul fzero fofZ fsub exactQ] in *. rewrite R.
  rewrite (nth_map_seq _ D j 0) by lia.
  destruct (Nat.eqb_spec i j) as [->|Hne].
  - rewrite Nat.eqb_refl. unfold ah_element. rewrite Nat.leb_refl, Nat.sub_diag.
    reflexivity.
  - destruct (Nat.eqb_spec (i / (ordint + 1)) (j / (ordint + 1))) as [Hd|_]; [|ring].
    unfold ah_element.
    destruct (Nat.leb_spec (i mod (ordint + 1)) (j mod (ordint + 1))) as [Hle|_];
      [|cbn [fzero exactQ]; ring].
    exfalso.
    pose proof (Nat.div_mod_eq i (ordint + 1)). pose proof (Nat.div_mod_eq j (ordint + 1)).
    nia.
Qed.
Lemma qsum_ext (f g : nat -> Q) n :
  (forall k, (k < n)%nat -> f k == g k) -> qsum f n == qsum g n.
Proof.
  induction n as [|n IH]; intros H; cbn [qsum]; [reflexivity|].
  rewrite IH, (H n) by (intros; try apply H; lia). reflexivity.
Qed.

Lemma qsum_shift (f : nat -> Q) n :
  qsum f (Datatypes.S n) == f 0%nat + qsum (fun k => f (Datatypes.S k)) n.
Proof.
  induction n as [|n IH]; [cbn [qsum]; ring|].
  change (qsum f (Datatypes.S (Datatypes.S n))) with (qsum f (Datatypes.S n) + f (Datatypes.S n)).
  rewrite IH. cbn [qsum]. ring.
Qed.

Lemma qsum_add (f : nat -> Q) n p :
  qsum f (n + p) == qsum f n + qsum (fun k => f (n + k)%nat) p.
Proof.
  induction p as [|p IH]; [rewrite Nat.add_0_r; cbn [qsum]; ring|].
  rewrite Nat.add_succ_r. cbn [qsum]. rewrite IH. ring.
Qed.

Lemma qsum_zero (f : nat -> Q) n :
  (forall k, (k < n)%nat -> f k == 0) -> qsum f n == 0.
Proof.
  induction n as [|n IH]; intros H; cbn [qsum]; [reflexivity|].
  rewrite IH, (H n) by (intros; try apply H; lia). ring.
Qed.

Lemma qsum_scale (f : nat -> Q) c n : qsum (fun k => c * f k) n == c * qsum f n.
Proof. induction n as [|n IH]; cbn [qsum]; [ring|]. rewrite IH. ring. Qed.

Lemma qsum_plus (f g : nat -> Q) n :
  qsum (fun k => f k + g k) n == qsum f n + qsum g n.
Proof. induction n as [|n IH]; cbn [qsum]; [ring|]. rewrite IH. ring. Qed.

Lemma qsum_delta (g : nat -> Q) i n :
  (i < n)%nat -> qsum (fun k => (if (i =? k)%nat then 1 else 0) * g k) n == g i.
Proof.
  induction n as [|n IH]; intros Hi; [lia|]. cbn [qsum].
  destruct (Nat.eqb_spec i n) as [->|Hne].
  - rewrite qsum_zero; [ring|]. intros k Hk.
    destruct (Nat.eqb_spec n k); [lia|ring].
  - rewrite IH by lia. ring.
Qed.

Lemma qsum_mul (f : nat -> Q) d m :
  qsum f (d * m) == qsum (fun k1 => qsum (fun k2 => f (k1 * m + k2)%nat) m) d.
Proof.
  induction d as [|d IH]; [reflexivity|].
  replace (Datatypes.S d * m)%nat with (d * m + m)%nat by lia.
  rewrite qsum_add, IH. cbn [qsum]. reflexivity.
Qed.

(** The inner product of two tabulated rows is a sum. *)
Lemma dot_map_seq (f g : nat -> Q) n :
  dot (ar:=QA) (map f (seq 0 n)) (map g (seq 0 n)) == qsum (fun k => f k * g k) n.
Proof.
  revert f g. induction n as [|n IH]; intros f g; [reflexivity|].
  rewrite qsum_shift. cbn [seq map]. rewrite <- seq_shift, !map_map. qsimpl.
  rewrite (IH (fun k => f (Datatypes.S k)) (fun k => g (Datatypes.S k))). reflexivity.
Qed.

(** [h^n / n!]. *)
Local Abbreviation expo h n := (fpow (ar:=QA) h n / inject_Z (factorial n)).

Lemma fpow_proper (x y : Q) n : x == y -> fpow (ar:=QA) x n == fpow (ar:=QA) y n.
Proof.
  intros H. induction n as [|n IH]; [reflexivity|]. cbn [fpow]. qsimpl.
  rewrite IH, H. reflexivity.
Qed.

Lemma factorial_neq_0 n : ~ inject_Z (factorial n) == 0.
Proof.
  unfold factorial. intros H. unfold Qeq, inject_Z in H. cbn [Qnum Qden] in H.
  pose proof (fact_neq_0 n). lia.
Qed.

Lemma factorial_S n :
  inject_Z (factorial (Datatypes.S n))
  == inject_Z (Z.of_nat (Datatypes.S n)) * inject_Z (factorial n).
Proof.
  unfold factorial. rewrite <- inject_Z_mult, <- Nat2Z.inj_mul. reflexivity.
Qed.

Lemma expo_S (z : Q) n :
  inject_Z (Z.of_nat (Datatypes.S n)) * expo z (Datatypes.S n) == z * expo z n.
Proof.
  rewrite factorial_S. cbn [fpow]. qsimpl. field. split.
  - apply factorial_neq_0.
  - intros H. unfold Qeq, inject_Z in H. cbn [Qnum Qden] in H. lia.
Qed.

(** The binomial theorem, in the form of the exponential series. *)
Lemma expo_add (x y : Q) n :
  qsum (fun t => expo x t * expo y (n - t)) (Datatypes.S n) == expo (x + y) n.
Proof.
  induction n as [|n IH].
  - cbn [qsum fpow Nat.sub]. qsimpl. unfold factorial. cbn. field.
  - assert (Hn : ~ inject_Z (Z.of_nat (Datatypes.S n)) == 0).
    { intros H. unfold Qeq, inject_Z in H. cbn [Qnum Qden] in H. lia. }
    apply (Qmult_inj_l _ _ (inject_Z (Z.of_nat (Datatypes.S n))) Hn).
    rewrite expo_S, <- IH, <- qsum_scale.
    (* split the factor [n + 1] as [t + (n + 1 - t)] *)
    transitivity
      (qsum (fun t => (inject_Z (Z.of_nat t) * expo x t) * expo y (Datatypes.S n - t)
                      + expo x t * (inject_Z (Z.of_nat (Datatypes.S n - t))
                                    * expo y (Datatypes.S n - t)))
            (Datatypes.S (Datatypes.S n))).
    { apply qsum_ext. intros t Ht.
      replace (Z.of_nat (Datatypes.S n)) with (Z.of_nat t + Z.of_nat (Datatypes.S n - t))%Z by lia.
      rewrite inject_Z_plus. ring. }
    rewrite qsum_plus.
    (* first part: the term [t = 0] vanishes *)
    rewrite (qsum_shift (fun t => inject_Z (Z.of_nat t) * expo x t * expo y (Datatypes.S n - t))).
    (* second part: the term [t = n + 1] vanishes *)
    change (qsum (fun t => expo x t * (inject_Z (Z.of_nat (Datatypes.S n - t))
                                       * expo y (Datatypes.S n - t)))
                 (Datatypes.S (Datatypes.S n)))
      with (qsum (fun t => expo x t * (inject_Z (Z.of_nat (Datatypes.S n - t))
                                       * expo y (Datatypes.S n - t)))
                 (Datatypes.S n)
            + expo x (Datatypes.S n) * (inject_Z (Z.of_nat (Datatypes.S n - Datatypes.S n))
                                        * expo y (Datatypes.S n - Datatypes.S n))).
    rewrite Nat.sub_diag.
    rewrite (qsum_ext
      (fun k => inject_Z (Z.of_nat (Datatypes.S k)) * expo x (Datatypes.S k)
                * expo y (Datatypes.S n - Datatypes.S k))
      (fun k => x * (expo x k * expo y (n - k)))).
    2:{ intros k Hk. rewrite expo_S. cbn [Nat.sub]. ring. }
    rewrite (qsum_ext
      (fun t => expo x t * (inject_Z (Z.of_nat (Datatypes.S n - t)) * expo y (Datatypes.S n - t)))
      (fun t => y * (expo x t * expo y (n - t)))).
    2:{ intros t Ht. replace (Datatypes.S n - t)%nat with (Datatypes.S (n - t)) by lia.
        rewrite expo_S. ring. }
    rewrite !qsum_scale. cbn [Z.of_nat]. change (inject_Z 0) with 0. ring.
Qed.

Lemma ah_element_proper (x y : Q) rw cl :
  x == y -> ah_element (ar:=QA) x rw cl == ah_element (ar:=QA) y rw cl.
Proof.
  intros H. unfold ah_element. destruct (rw <=? cl)%nat; [|reflexivity].
  change (expo x (cl - rw) == expo y (cl - rw)).
  rewrite (fpow_proper x y _ H). reflexivity.
Qed.

(** The product of two blocks [A(h2)] and [A(h1)], entry by entry. *)
Lemma ah_block_product (h1 h2 : Q) m i j :
  (i < m)%nat -> (j < m)%nat ->
  qsum (fun k => ah_element (ar:=QA) h2 i k * ah_element (ar:=QA) h1 k j) m
  == ah_element (ar:=QA) (h2 + h1) i j.
Proof.
  intros Hi Hj. unfold ah_element at 3.
  destruct (Nat.leb_spec i j) as [Hle|Hgt].
  - replace m with (i + (Datatypes.S (j - i) + (m - j - 1)))%nat at 1 by lia.
    rewrite qsum_add, qsum_zero, qsum_add, (qsum_zero _ (m - j - 1)).
    + rewrite <- (expo_add h2 h1 (j - i)), Qplus_0_l, Qplus_0_r.
      apply qsum_ext. intros t Ht. unfold ah_element.
      destruct (Nat.leb_spec i (i + t)) as [_|]; [|lia].
      destruct (Nat.leb_spec (i + t) j) as [_|]; [|lia].
      replace (i + t - i)%nat with t by lia.
      replace (j - (i + t))%nat with (j - i - t)%nat by lia. reflexivity.
    + intros k Hk. unfold ah_element.
      destruct (Nat.leb_spec (i + (Datatypes.S (j - i) + k)) j) as [|_]; [lia|].
      cbn [fzero exactQ]. ring.
    + intros k Hk. unfold ah_element.
      destruct (Nat.leb_spec i k) as [|_]; [lia|]. cbn [fzero exactQ]. ring.
  - apply qsum_zero. intros k Hk. unfold ah_element.
    destruct (Nat.leb_spec i k) as [Hik|_]; [|cbn [fzero exactQ]; ring].
    destruct (Nat.leb_spec k j) as [|_]; [lia|]. cbn [fzero exactQ]. ring.
Qed.

(** The entries of the product of two tabulated square arrays. *)
Lemma mat_mat_tabulate_entry D (E2 E1 : nat -> nat -> Q) i j :
  (i < D)%nat -> (j < D)%nat ->
  nth j (nth i (map (fun row => map (fun col => dot (ar:=QA) row col)
                                  (transpose (ar:=QA) (tabulate (ar:=QA) D D E1)))
                    (tabulate (ar:=QA) D D E2)) []) 0
  == qsum (fun K => E2 i K * E1 K j) D.
Proof.
  intros Hi Hj. rewrite (transpose_tabulate (ar:=QA)).
  unfold tabulate at 2. rewrite map_map.
  pose proof (nth_map_seq (fun I => map (fun col => dot (ar:=QA) (map (E2 I) (seq 0 D)) col)
                                        (tabulate (ar:=QA) D D (fun i j => E1 j i)))
                          D i [] Hi) as R.
  unfold vec, matrix in *. cbn [scalar exactQ] in *. rewrite R. clear R.
  unfold tabulate. rewrite map_map, (nth_map_seq _ D j 0 Hj).
  apply dot_map_seq.
Qed.

(** The entry of [A(h)] in row [I] and column [J], for blocks of size [m]. *)
Local Abbreviation ah_entry m h :=
  (fun I J : nat => (if (I / m =? J / m)%nat then 1 else 0)
                    * ah_element (ar:=QA) h (I mod m) (J mod m)).

Lemma ah_ibm_tabulate ordint spatialdim (start stop : Q) :
  _ah_ibm (ar:=QA) ordint spatialdim start stop
  = tabulate (ar:=QA) (spatialdim * (ordint + 1)) (spatialdim * (ordint + 1))
      (ah_entry (ordint + 1)%nat (stop - start)).
Proof. unfold _ah_ibm, np_eye. cbv zeta. rewrite kron_tabulate. reflexivity. Qed.

(** The product of [A(t2 - t1)] and [A(t1 - t0)], entry by entry. *)
Lemma ah_product_entry m spatialdim (t0 t1 t2 : Q) i j :
  (0 < m)%nat -> (i < spatialdim * m)%nat -> (j < spatialdim * m)%nat ->
  qsum (fun K => ah_entry m (t2 - t1) i K * ah_entry m (t1 - t0) K j) (spatialdim * m)
  == ah_entry m (t2 - t0) i j.
Proof.
  intros Hm Hi Hj. rewrite qsum_mul.
  assert (Hi1 : (i / m < spatialdim)%nat) by (apply Nat.Div0.div_lt_upper_bound; lia).
  pose proof (Nat.mod_upper_bound i m) as Hi2. pose proof (Nat.mod_upper_bound j m) as Hj2.
  rewrite (qsum_ext _
    (fun k1 => (if (i / m =? k1)%nat then 1 else 0)
               * ((if (k1 =? j / m)%nat then 1 else 0)
                  * ah_element (ar:=QA) ((t2 - t1) + (t1 - t0)) (i mod m) (j mod m)))).
  - rewrite (qsum_delta _ (i / m) spatialdim Hi1).
    rewrite (ah_element_proper (t2 - t0) ((t2 - t1) + (t1 - t0))) by ring.
    reflexivity.
  - intros k1 Hk1.
    rewrite (qsum_ext _
      (fun k2 => ((if (i / m =? k1)%nat then 1 else 0) * (if (k1 =? j / m)%nat then 1 else 0))
                 * (ah_element (ar:=QA) (t2 - t1) (i mod m) k2
                    * ah_element (ar:=QA) (t1 - t0) k2 (j mod m)))).
    + rewrite qsum_scale, (ah_block_product (t1 - t0) (t2 - t1) m) by lia. ring.
    + intros k2 Hk2.
      rewrite <- (Nat.div_unique (k1 * m + k2) m k1 k2),
              <- (Nat.mod_unique (k1 * m + k2) m k1 k2) by lia.
      ring.
Qed.

(** X17.  In exact arithmetic, the transition matrices of
    [IBM._ah_ibm] compose: the product [A(t1, t2) @ A(t0, t1)] is formed
    without a shape error and equals [A(t0, t2)], for every order and
    dimension (the binomial theorem, on the closed form
    [h^(j - i) / (j - i)!]). *)
Theorem ah_ibm_steps_compose (ordint spatialdim : nat) (t0 t1 t2 : Q) :
  exists P,
    mat_mat (_ah_ibm (ar:=QA) ordint spatialdim t1 t2)
            (_ah_ibm (ar:=QA) ordint spatialdim t0 t1) = Ok P /\
    meq P (_ah_ibm (ar:=QA) ordint spatialdim t0 t2).
Proof.
  set (m := (ordint + 1)%nat). set (D := (spatialdim * m)%nat).
  pose proof (ah_ibm_shape (ar:=QA) ordint spatialdim t1 t2) as S2.
  pose proof (ah_ibm_shape (ar:=QA) ordint spatialdim t0 t1) as S1.
  pose proof (ah_ibm_shape (ar:=QA) ordint spatialdim t0 t2) as S0.
  destruct (mat_mat_shape (ar:=QA) D D D _ _ S2 (fun H => H) S1 (fun H => H)) as [E SP].
  rewrite E. eexists. split; [reflexivity|].
  apply (meq_entries D); [exact SP|exact S0|]. intros i j Hi Hj.
  rewrite !ah_ibm_tabulate. fold m. fold D.
  rewrite (mat_mat_tabulate_entry D _ _ i j Hi Hj).
  pose proof (nth_tabulate_row D D (ah_entry m (t2 - t0)) i Hi) as R0.
  unfold vec, matrix in *. cbn [scalar exactQ] in *. rewrite R0. clear R0.
  rewrite (nth_map_seq _ D j 0 Hj).
  apply (ah_product_entry m spatialdim t0 t1 t2 i j); [unfold m; lia|exact Hi|exact Hj].
Qed.

Lemma qsum_swap (F : nat -> nat -> Q) n p :
  qsum (fun K => qsum (fun J => F K J) n) p == qsum (fun J => qsum (fun K => F K J) p) n.
Proof.
  induction p as [|p IH]; cbn [qsum].
  - symmetry. apply qsum_zero. reflexivity.
  - rewrite IH, <- qsum_plus. reflexivity.
Qed.

Lemma list_as_map_nth (v : list Q) : v = map (fun J => nth J v 0) (seq 0 (length v)).
Proof.
  induction v as [|a v IH]; [reflexivity|].
  cbn [length seq map nth]. f_equal. rewrite <- seq_shift, map_map. exact IH.
Qed.

(** The inner product of a tabulated row and a vector is a sum. *)
Lemma dot_map_seq_vec (f : nat -> Q) (v : list Q) n :
  length v = n ->
  dot (ar:=QA) (map f (seq 0 n)) v == qsum (fun J => f J * nth J v 0) n.
Proof.
  intros <-. rewrite (list_as_map_nth v) at 2. apply dot_map_seq.
Qed.

(** X18.  In exact arithmetic, two predictions in a row give the mean
    of one: for a distribution with a mean of length [D] and a square
    covariance of size [D], [IBM.chapmankolmogorov] from [t0] to [t1] and
    then from [t1] to [t2] returns the mean that [IBM.chapmankolmogorov]
    from [t0] to [t2] returns. *)
Theorem chapmankolmogorov_means_compose (self : @IBM QA) (t0 t1 t2 step : Q)
    (randvar : Normal (list (@scalar QA)) (@matrix QA)) :
  let D := (ibm_spatialdim self * (ibm_ordint self + 1))%nat in
  length (mean_of randvar) = D -> has_shape (ar:=QA) D D (cov_of randvar) ->
  exists mid last direct,
    chapmankolmogorov self t0 t1 step randvar = Ok mid /\
    chapmankolmogorov self t1 t2 step mid = Ok last /\
    chapmankolmogorov self t0 t2 step randvar = Ok direct /\
    veq (mean_of last) (mean_of direct).
Proof.
  intros D Hm Hc.
  destruct (chapmankolmogorov_Ok (ar:=QA) self t0 t1 step randvar Hm Hc)
    as (mid & Emid & Hmid & Lm & Sm).
  destruct (chapmankolmogorov_Ok (ar:=QA) self t1 t2 step mid Lm Sm)
    as (last & Elast & Hlast & _).
  destruct (chapmankolmogorov_Ok (ar:=QA) self t0 t2 step randvar Hm Hc)
    as (direct & Edirect & Hdirect & _).
  exists mid, last, direct. split; [exact Emid|]. split; [exact Elast|].
  split; [exact Edirect|].
  rewrite Hlast, Hmid, Hdirect, !ah_ibm_tabulate. fold D.
  set (m := (ibm_ordint self + 1)%nat). set (v := mean_of randvar) in *.
  unfold tabulate. rewrite !map_map.
  apply veq_nth; [now rewrite !length_map|].
  intros i Hi. rewrite length_map, length_seq in Hi.
  pose proof (nth_map_seq (fun I => dot (ar:=QA) (map (ah_entry m (t2 - t1) I) (seq 0 D))
               (map (fun K => dot (ar:=QA) (map (ah_entry m (t1 - t0) K) (seq 0 D)) v)
                    (seq 0 D))) D i 0 Hi) as R2.
  pose proof (nth_map_seq (fun I => dot (ar:=QA) (map (ah_entry m (t2 - t0) I) (seq 0 D)) v)
               D i 0 Hi) as R0.
  unfold vec, matrix in *. cbn [scalar exactQ] in *. rewrite R2, R0. clear R2 R0.
  rewrite dot_map_seq, (dot_map_seq_vec _ v D Hm).
  rewrite (qsum_ext _ (fun K => qsum (fun J => ah_entry m (t2 - t1) i K
                                               * ah_entry m (t1 - t0) K J * nth J v 0) D)).
  2:{ intros K HK. rewrite (dot_map_seq_vec _ v D Hm), <- qsum_scale.
      apply qsum_ext. intros J _. ring. }
  rewrite qsum_swap. apply qsum_ext. intros J HJ.
  rewrite <- (ah_product_entry m (ibm_spatialdim self) t0 t1 t2 i J)
    by (unfold m; try exact Hi; try exact HJ; lia).
  rewrite (Qmult_comm (qsum _ _)), <- qsum_scale. apply qsum_ext. intros K _. ring.
Qed.
End PriorFactsExact.

(** * Polynomial quadrature and the diffusion estimate *)

Section QuadratureFacts.
Context {sq lg ex : Q -> Q}.
Local Abbreviation QA := (exactQ sq lg ex).
Local Open Scope Q_scope.

Lemma quadrature_loop_acc (f : list Q -> Q) (nw : list (list Q * Q)) : forall acc,
  fold_left (fun output node_weight => output + snd node_weight * f (fst node_weight)) nw acc
  == acc + fold_left (fun output node_weight => output + snd node_weight * f (fst node_weight))
             nw 0.
Proof.
  induction nw as [|[node w] nw IH]; intros acc; cbn [fold_left fst snd]; [ring|].
  rewrite (IH (acc + w * f node)), (IH (0 + w * f node)). ring.
Qed.

Lemma quadrature_loop_dot (f : list Q -> Q) (rows : list (list Q)) : forall (w : list Q),
  length rows = length w ->
  fold_left (fun output node_weight => output + snd node_weight * f (fst node_weight))
            (combine rows w) 0
  == dot (ar:=QA) w (map f rows).
Proof.
  induction rows as [|node rows IH]; intros [|w0 w] H; try discriminate; [reflexivity|].
  cbn [combine fold_left fst snd map]. qsimpl.
  rewrite quadrature_loop_acc, IH by now injection H. ring.
Qed.

Lemma quadrature_init_Ok (nodes : @array2 QA) weights bounds self :
  PolynomialQuadrature_init nodes weights bounds = Ok self ->
  quad_nodes self = nodes /\ quad_weights self = weights /\ quad_bounds self = bounds /\
  length (a2_rows nodes) = length weights /\ a2_ncols nodes = length (a2_rows bounds).
Proof.
  unfold PolynomialQuadrature_init.
  destruct (Nat.eqb_spec (length (a2_rows nodes)) (length weights)) as [H1|];
    [|discriminate].
  destruct (Nat.eqb_spec (a2_ncols nodes) (length (a2_rows bounds))) as [H2|];
    [|discriminate].
  cbn [negb orb]. intros H. inversion H. cbn. auto.
Qed.

(** X19.  For a quadrature rule that its constructor has accepted
    and an integrand that returns on the array of all nodes what it returns
    on each node, the two branches of [integrate] return, and in exact
    arithmetic they return the same number, the sum of the weights times
    the values at the nodes: the check of the constructor makes [zip] use
    every node and every weight. *)
Theorem vectorized_integration_agrees_with_the_loop (nodes : @array2 QA)
    (weights : list Q) (bounds : @array2 QA) (self : @PolynomialQuadrature QA)
    (fun_ : @integrand QA) :
  PolynomialQuadrature_init nodes weights bounds = Ok self ->
  on_nodes fun_ nodes = map (on_node fun_) (a2_rows nodes) ->
  exists looped vectorized,
    integrate self fun_ false = Ok looped /\
    integrate self fun_ true = Ok vectorized /\
    looped == vectorized /\
    vectorized == dot (ar:=QA) weights (map (on_node fun_) (a2_rows nodes)).
Proof.
  intros Hinit Hvec. apply quadrature_init_Ok in Hinit.
  destruct Hinit as (H1 & H2 & _ & Hl & _).
  unfold integrate. cbn [negb]. rewrite H1, H2, Hvec.
  rewrite (@inner_same QA _ _ (length weights)) by (rewrite ?length_map; auto).
  do 2 eexists. split; [reflexivity|]. split; [reflexivity|].
  split; [|reflexivity]. apply (quadrature_loop_dot (on_node fun_)). exact Hl.
Qed.

Lemma quadrature_loop_linear (f g h : list Q -> Q) (a : Q) (nw : list (list Q * Q)) :
  (forall node, h node == a * f node + g node) ->
  fold_left (fun output node_weight => output + snd node_weight * h (fst node_weight)) nw 0
  == a * fold_left (fun output node_weight => output + snd node_weight * f (fst node_weight))
           nw 0
     + fold_left (fun output node_weight => output + snd node_weight * g (fst node_weight))
           nw 0.
Proof.
  intros Hh. induction nw as [|[node w] nw IH]; cbn [fold_left fst snd]; [ring|].
  rewrite (quadrature_loop_acc h), (quadrature_loop_acc f), (quadrature_loop_acc g).
  rewrite IH, Hh. ring.
Qed.

(** X20.  In exact arithmetic [integrate] (the loop over the nodes)
    is linear in the integrand: for [h = a f + g] on every node, the
    integral of [h] is [a] times the integral of [f] plus the integral of
    [g]. *)
Theorem integrate_is_linear_in_the_integrand (self : @PolynomialQuadrature QA)
    (f g h : @integrand QA) (a : Q) :
  (forall node, on_node h node == a * on_node f node + on_node g node) ->
  exists If Ig Ih,
    integrate self f false = Ok If /\ integrate self g false = Ok Ig /\
    integrate self h false = Ok Ih /\ Ih == a * If + Ig.
Proof.
  intros Hh. unfold integrate. cbn [negb].
  do 3 eexists. split; [reflexivity|]. split; [reflexivity|]. split; [reflexivity|].
  apply (quadrature_loop_linear (on_node f) (on_node g) (on_node h) a _ Hh).
Qed.

End QuadratureFacts.

Section DiffusionFacts.
Context {sq lg ex : Q -> Q} {cap : @Capabilities (exactQ sq lg ex)}.
Local Abbreviation QA := (exactQ sq lg ex).
Local Open Scope Q_scope.

Lemma dotQ_square_nonneg (w : list Q) : 0 <= dot (ar:=QA) w w.
Proof.
  induction w as [|a w IH]; qsimpl; [apply Qle_refl|].
  pose proof (Qmult_le_0_compat a a) as H. nra.
Qed.

(** X21.  In exact arithmetic, the diffusion that
    [GaussianIVPFilter._estimate_diffusion] returns for a random variable
    of positive size is never negative, whatever [np.linalg.solve] has
    returned: it is a sum of squares divided by the size. *)
Theorem estimated_diffusion_is_not_negative (meas_rv : @measured_rv QA) (ssq : Q) :
  (0 < rv_size meas_rv)%Z ->
  _estimate_diffusion meas_rv = Ok ssq ->
  0 <= ssq.
Proof.
  intros Hsize. unfold _estimate_diffusion. cbv zeta.
  destruct (linalg_solve _ _) as [w|]; [|discriminate]. cbn [bind].
  unfold inner. rewrite Nat.eqb_refl. cbn [bind]. intros H. inversion H.
  change (0 <= dot (ar:=QA) w w / inject_Z (rv_size meas_rv)).
  apply Qle_shift_div_l.
  - change 0 with (inject_Z 0). rewrite <- Zlt_Qlt. exact Hsize.
  - rewrite Qmult_0_l. apply dotQ_square_nonneg.
Qed.
End DiffusionFacts.

(** * The properties above on concrete inputs *)

(** X6 on the residual [[nan]], before [maxiter]. *)
Lemma nan_residual_meets_no_tolerance_witness :
  @norm binary64 [nan] = nan /\
  forall atol rtol,
    @_check_convergence binary64 scenario_A_solver 1 10 [nan] atol rtol
    = ((false, EmptyString), []).
Proof.
  split; [vm_compute; reflexivity|]. intros atol rtol.
  exact (nan_residual_meets_no_tolerance _ _ scenario_A_solver 1 10 [nan] atol rtol eq_refl).
Defined.


(** X2 on scenario A with [maxiter = 2] and zero tolerances, in binary64. *)
Lemma solve_counts_its_iterations_witness :
  exists out,
    @solve binary64 no_capabilities scenario_A_solver None 2 0%float 0%float false = Ok out /\
    (0 <= info_iter (out_info out) <= 2)%Z /\
    length (self_S (out_self out)) = Z.to_nat (info_iter (out_info out)) /\
    self_b (out_self out) = [1%float; 2%float].
Proof.
  eexists. split; [vm_compute; reflexivity|].
  destruct (@solve_counts_its_iterations binary64 no_capabilities scenario_A_solver
              None 2 0%float 0%float false _ ltac:(vm_compute; reflexivity))
    as (Hk & _ & HS & _ & _ & _ & Hb).
  split; [exact Hk|]. split; [exact HS|exact Hb].
Defined.

(** X3 on the first iteration of scenario A, with a callback that raises. *)
Lemma callback_sees_the_updated_belief_witness :
  refines 2 scenario_A_solver_Q scenario_A_resid_Q
          (@rows_op rationals scenario_A_rows_Q) scenario_A_belief_Q /\
  length (self_b scenario_A_solver_Q) = 2%nat /\
  @iteration rationals no_capabilities_Q
    (Some (fun _ => Raise (CallbackError "stop"%string)))
    scenario_A_solver_Q scenario_A_resid_Q
  = Raise (CallbackError "stop"%string).
Proof.
  split; [exact scenario_A_refines|]. split; [reflexivity|].
  destruct (@callback_sees_the_updated_belief rationals no_capabilities_Q 2 _ _ _ _
              (fun _ => Raise (CallbackError "stop"%string)) scenario_A_refines eq_refl)
    as (self' & resid' & args & _ & E & _).
  exact E.
Defined.

(** The operators of scenario A as maps on vectors. *)
Lemma scenario_A_denotes_Q :
  denotes 2 (self_A scenario_A_solver_Q) (@rows_op rationals scenario_A_rows_Q) /\
  denotes 2 (@MatrixMult rationals eye2_rows_Q) (@rows_op rationals eye2_rows_Q).
Proof.
  split; apply (denotes_MatrixMult (ar:=rationals) 2); reflexivity.
Qed.



(** The three denominators of the first iteration of scenario A. *)
Lemma scenario_A_first_denominators :
  ~ (dot (ar:=rationals) (spec_s scenario_A_belief_Q)
         (spec_y (@rows_op rationals scenario_A_rows_Q) scenario_A_belief_Q) == 0)%Q /\
  ~ (dot (ar:=rationals) (spec_s scenario_A_belief_Q)
         (bel_A_covfactor scenario_A_belief_Q (spec_s scenario_A_belief_Q)) == 0)%Q /\
  ~ (dot (ar:=rationals) (spec_y (@rows_op rationals scenario_A_rows_Q) scenario_A_belief_Q)
         (bel_Ainv_covfactor scenario_A_belief_Q
            (spec_y (@rows_op rationals scenario_A_rows_Q) scenario_A_belief_Q)) == 0)%Q.
Proof.
  repeat split; intros H; vm_compute in H; discriminate H.
Qed.

(** X7 on the first iteration of scenario A. *)
Lemma updated_means_satisfy_the_secant_equations_witness :
  exists self' resid' As Hy,
    @iteration rationals no_capabilities_Q None scenario_A_solver_Q scenario_A_resid_Q
      = Ok (self', resid') /\
    matmul (self_A_mean self') (spec_s scenario_A_belief_Q) = Ok As /\
    veq As (spec_y (@rows_op rationals scenario_A_rows_Q) scenario_A_belief_Q) /\
    matmul (self_Ainv_mean self')
           (spec_y (@rows_op rationals scenario_A_rows_Q) scenario_A_belief_Q) = Ok Hy /\
    veq Hy (spec_s scenario_A_belief_Q).
Proof.
  destruct (@updated_means_satisfy_the_secant_equations _ _ _ no_capabilities_Q 2 _ _ _ _
              scenario_A_refines (proj1 (proj2 scenario_A_first_denominators))
              (proj2 (proj2 scenario_A_first_denominators)))
    as (self' & resid' & As & Hy & E & _ & _ & E1 & V1 & E2 & V2).
  exists self', resid', As, Hy. auto.
Defined.

(** X8 on the first iteration of scenario A. *)
Lemma updated_covfactors_vanish_on_the_direction_witness :
  exists self' resid' Vs,
    @iteration rationals no_capabilities_Q None scenario_A_solver_Q scenario_A_resid_Q
      = Ok (self', resid') /\
    matmul (self_A_covfactor self') (spec_s scenario_A_belief_Q) = Ok Vs /\
    Forall (fun q => q == 0)%Q Vs.
Proof.
  destruct (@updated_covfactors_vanish_on_the_direction _ _ _ no_capabilities_Q 2 _ _ _ _
              scenario_A_refines (proj1 (proj2 scenario_A_first_denominators))
              (proj2 (proj2 scenario_A_first_denominators)))
    as (self' & resid' & Vs & Wy & E & E1 & V1 & _).
  exists self', resid', Vs. auto.
Defined.

(** X9 on the first iteration of scenario A. *)
Lemma new_residual_is_orthogonal_to_the_direction_witness :
  exists self' resid',
    @iteration rationals no_capabilities_Q None scenario_A_solver_Q scenario_A_resid_Q
      = Ok (self', resid') /\
    (dot (ar:=rationals) (spec_s scenario_A_belief_Q) resid' == 0)%Q.
Proof.
  exact (@new_residual_is_orthogonal_to_the_direction _ _ _ no_capabilities_Q 2 _ _ _ _
           scenario_A_refines (proj1 scenario_A_first_denominators)).
Defined.

Lemma symmetric_op_eye2 : symmetric_op 2 (@MatrixMult rationals eye2_rows_Q).
Proof.
  apply (symmetric_op_form 2 _ _ (proj2 scenario_A_denotes_Q)).
  apply (spsd_sym spsd_eye2).
Qed.

(** X10 on two iterations of scenario A. *)
Lemma means_stay_symmetric_witness :
  exists self' resid',
    @iterations rationals no_capabilities_Q 2 None scenario_A_solver_Q scenario_A_resid_Q
      = Ok (self', resid') /\
    symmetric_op 2 (self_A_mean self') /\ symmetric_op 2 (self_Ainv_mean self').
Proof.
  exact (proj1 (@means_stay_symmetric _ _ _ no_capabilities_Q 2 _ _ _ _
                  scenario_A_refines symmetric_op_eye2 symmetric_op_eye2)
               2%nat scenario_A_nondegenerate).
Defined.

Lemma scenario_A_linear : linear 2 (@rows_op rationals scenario_A_rows_Q).
Proof. apply rows_op_linear. repeat constructor. Qed.

(** X11 on two iterations of scenario A. *)
Lemma residual_is_that_of_the_estimate_witness :
  exists self' resid',
    @iterations rationals no_capabilities_Q 2 None scenario_A_solver_Q scenario_A_resid_Q
      = Ok (self', resid') /\
    veq resid' (@vsub rationals (@rows_op rationals scenario_A_rows_Q (self_x self'))
                      (self_b self')).
Proof.
  exact (proj1 (@residual_is_that_of_the_estimate _ _ _ no_capabilities_Q 2 _ _ _ _
                  scenario_A_refines scenario_A_linear eq_refl (veq_refl _))
               2%nat scenario_A_nondegenerate).
Defined.

Lemma normal_2_Q_shape : has_shape (ar:=rationals) 2 2 (cov_of normal_2_Q).
Proof. split; [reflexivity|repeat constructor]. Qed.


(** X15 on the integrated Brownian motion of order 1, from 1/3 to 2/6. *)
Lemma chapmankolmogorov_over_no_time_witness :
  exists pred,
    @chapmankolmogorov rationals ibm_1_1_Q (1 # 3)%Q (2 # 6)%Q 0%Q normal_2_Q = Ok pred /\
    veq (mean_of pred) [1%Q; 2%Q] /\ meq (cov_of pred) eye2_rows_Q.
Proof.
  apply (@chapmankolmogorov_over_no_time _ _ _ ibm_1_1_Q (1 # 3)%Q (2 # 6)%Q 0%Q normal_2_Q).
  - reflexivity.
  - reflexivity.
  - exact normal_2_Q_shape.
Defined.

(** X16 on the entry below the diagonal of [A(1/2)] for order 1. *)
Lemma ah_ibm_is_unit_upper_triangular_witness :
  (nth 0 (nth 1 (@_ah_ibm rationals 1 1 0%Q (1 # 2)%Q) []) 0 == 0)%Q.
Proof.
  apply (@ah_ibm_is_unit_upper_triangular (fun _ => 0%Q) (fun _ => 0%Q) (fun _ => 0%Q)
           1 1 0%Q (1 # 2)%Q 1 0).
  lia.
Defined.

(** X18 on the integrated Brownian motion of order 1, from 0 to 1/2 to 2. *)
Lemma chapmankolmogorov_means_compose_witness :
  exists mid last direct,
    @chapmankolmogorov rationals ibm_1_1_Q 0%Q (1 # 2)%Q 0%Q normal_2_Q = Ok mid /\
    @chapmankolmogorov rationals ibm_1_1_Q (1 # 2)%Q 2%Q 0%Q mid = Ok last /\
    @chapmankolmogorov rationals ibm_1_1_Q 0%Q 2%Q 0%Q normal_2_Q = Ok direct /\
    veq (mean_of last) (mean_of direct).
Proof.
  exact (@chapmankolmogorov_means_compose _ _ _ ibm_1_1_Q 0%Q (1 # 2)%Q 2%Q 0%Q normal_2_Q
           eq_refl normal_2_Q_shape).
Defined.

(** X19 on the trapezoidal rule and the integrand [x]. *)
Lemma vectorized_integration_agrees_with_the_loop_witness :
  exists looped vectorized,
    @integrate rationals trapezoid_Q first_coordinate_Q false = Ok looped /\
    @integrate rationals trapezoid_Q first_coordinate_Q true = Ok vectorized /\
    (looped == vectorized)%Q /\
    (vectorized == @dot rationals [(1 # 2)%Q; (1 # 2)%Q] [0%Q; 1%Q])%Q.
Proof.
  exact (@vectorized_integration_agrees_with_the_loop _ _ _
           trapezoid_nodes_Q [(1 # 2)%Q; (1 # 2)%Q] unit_interval_Q trapezoid_Q
           first_coordinate_Q eq_refl eq_refl).
Defined.

(** X20 on the trapezoidal rule and the integrands [x], [1] and [3 x + 1]. *)
Lemma integrate_is_linear_in_the_integrand_witness :
  exists If Ig Ih,
    @integrate rationals trapezoid_Q first_coordinate_Q false = Ok If /\
    @integrate rationals trapezoid_Q constant_one_Q false = Ok Ig /\
    @integrate rationals trapezoid_Q affine_Q false = Ok Ih /\
    (Ih == 3 * If + Ig)%Q.
Proof.
  apply (@integrate_is_linear_in_the_integrand _ _ _ trapezoid_Q
           first_coordinate_Q constant_one_Q affine_Q 3%Q).
  intros node. reflexivity.
Defined.

(** X21 on the mean [[3]] and the factor [[[2]]] of size 1. *)
Lemma estimated_diffusion_is_not_negative_witness :
  @_estimate_diffusion rationals solve_1x1_Q measured_3_Q = Ok (9 # 4)%Q /\
  (0 <= 9 # 4)%Q.
Proof.
  split; [vm_compute; reflexivity|].
  apply (@estimated_diffusion_is_not_negative _ _ _ solve_1x1_Q measured_3_Q (9 # 4)%Q).
  - reflexivity.
  - vm_compute. reflexivity.
Defined.
